(** * PromptPilot: the prompt version store and its reconciliation with Supabase

    A shallow embedding of [src/lib/storage.ts] (the [localStorage] wrapper,
    [versionStorage], [promptStorage], [analysisStorage],
    [preferencesStorage], [favoritesStorage] and [storageManager.cleanup]) and
    of the part of [src/lib/supabase-prompt-service.ts] that [versionStorage]
    relies on ([convertGroupToLocal], [createGroup] and [getAllGroups]),
    followed by the properties of the version control engine and of the other
    stores.

    Conventions of the embedding.
    - A JavaScript [number] that holds a count, a version number or a time in
      milliseconds is a [Z]; the one sum made on a version number,
      [Math.max(...) + 1], is rounded to the nearest double ([plus_one]).
    - A call of [window.localStorage.setItem] or [removeItem] may throw: the
      world says for each such call whether it does ([ls_throws]). The
      wrapper catches the exception and answers [false], leaving the item as
      it was; [accepts k w] says that the write [k] calls from now does not
      throw.
    - A plain object used as a map from identifiers is a [gmap] of its own
      properties; a key that names a property every object inherits
      ([inherited]) is looked up as the code finds it, on the prototype.
    - An optional field ([f?: T]) is an [option]; [undefined] is [None].
      [JSON.stringify] drops such a field and [JSON.parse] gives it back
      absent, so the store round trip is the identity on it.
    - A [Set<string>] is a [gset string]: the code only asks [has], [add],
      [new Set(array)] and [Array.from(set)], the last one only to serialise.
    - The code runs on one thread. Every [versionStorage] method is a function
      of the state monad [M] over [World]; what a promise does once it settles
      is a separate step of the world, [settle]. A run of calls in a statement
      is a run of synchronous calls: a promise settles between two calls only
      where the statement says so.
    - The stores other than the version store live under keys of their own;
      they are the fields of [Shelf], and their methods are functions of the
      state monad [MS].
    - [String.prototype.toLowerCase] is a parameter of the two searches. *)

From stdpp Require Import base option list gmap sets strings pretty sorting.
From Stdlib Require Import ZArith Lia.

Open Scope Z_scope.

(** ** Data model *)

Inductive Status := draft | current | production.

Global Instance Status_eq_dec : EqDecision Status.
Proof. solve_decision. Defined.

Inductive CreatedFromType := manual | improved | generated | rewritten.

Global Instance CreatedFromType_eq_dec : EqDecision CreatedFromType.
Proof. solve_decision. Defined.

(** [interface PromptVersion]. The fields [id], [name], [description] and
    [timestamp] of the source carry the prefix [v_] here, as [PromptGroup] has
    fields of the same names (prefix [g_] there).
    [version] is [None] when the number is not finite: [Math.max()] of no
    argument is [-Infinity], which [JSON.stringify] writes as [null].
    [metadata] and [createdFrom.sourceData] are left out: no method of
    [versionStorage] reads or writes them. *)
Record PromptVersion := mkVersion {
  v_id : string;
  promptId : string;
  version : option Z;
  v_name : string;
  content : string;
  v_description : option string;
  status : Status;
  parentVersionId : option string;
  v_timestamp : Z;
  createdFrom : option CreatedFromType
}.

(** [_syncedVersionIds?: Set<string> | string[]] *)
Inductive SyncedIds :=
  | IdSet (s : gset string)
  | IdArray (a : list string).

(** [interface PromptGroup]; [templates] is left out for the same reason as
    [metadata]. *)
Record PromptGroup := mkGroup {
  g_id : string;
  g_name : string;
  g_description : option string;
  currentVersionId : string;
  productionVersionId : option string;
  versions : list PromptVersion;
  tags : option (list string);
  g_timestamp : Z;
  lastModified : Z;
  supabase_id : option string;
  _syncedVersionIds : option SyncedIds
}.

Global Instance PromptVersion_eq_dec : EqDecision PromptVersion.
Proof. solve_decision. Defined.

Global Instance SyncedIds_eq_dec : EqDecision SyncedIds.
Proof. solve_decision. Defined.

Global Instance PromptGroup_eq_dec : EqDecision PromptGroup.
Proof. solve_decision. Defined.

(** Assignments to one field of an object. *)
Definition set_status (s : Status) (v : PromptVersion) : PromptVersion :=
  mkVersion (v_id v) (promptId v) (version v) (v_name v) (content v)
    (v_description v) s (parentVersionId v) (v_timestamp v) (createdFrom v).

Definition set_versions (vs : list PromptVersion) (g : PromptGroup) : PromptGroup :=
  mkGroup (g_id g) (g_name g) (g_description g) (currentVersionId g)
    (productionVersionId g) vs (tags g) (g_timestamp g) (lastModified g)
    (supabase_id g) (_syncedVersionIds g).

Definition set_currentVersionId (i : string) (g : PromptGroup) : PromptGroup :=
  mkGroup (g_id g) (g_name g) (g_description g) i
    (productionVersionId g) (versions g) (tags g) (g_timestamp g) (lastModified g)
    (supabase_id g) (_syncedVersionIds g).

Definition set_productionVersionId (i : option string) (g : PromptGroup) : PromptGroup :=
  mkGroup (g_id g) (g_name g) (g_description g) (currentVersionId g)
    i (versions g) (tags g) (g_timestamp g) (lastModified g)
    (supabase_id g) (_syncedVersionIds g).

Definition set_lastModified (t : Z) (g : PromptGroup) : PromptGroup :=
  mkGroup (g_id g) (g_name g) (g_description g) (currentVersionId g)
    (productionVersionId g) (versions g) (tags g) (g_timestamp g) t
    (supabase_id g) (_syncedVersionIds g).

Definition set_supabase_id (i : option string) (g : PromptGroup) : PromptGroup :=
  mkGroup (g_id g) (g_name g) (g_description g) (currentVersionId g)
    (productionVersionId g) (versions g) (tags g) (g_timestamp g) (lastModified g)
    i (_syncedVersionIds g).

Definition set_syncedVersionIds (i : option SyncedIds) (g : PromptGroup) : PromptGroup :=
  mkGroup (g_id g) (g_name g) (g_description g) (currentVersionId g)
    (productionVersionId g) (versions g) (tags g) (g_timestamp g) (lastModified g)
    (supabase_id g) i.

(** The decimal text of an integer, as a template literal writes it: its
    digits, for a number of at most 21 digits; a time in milliseconds has
    at most 16. *)
Definition decimal (z : Z) : string := pretty z.

Global Arguments decimal : simpl never.

(** JavaScript truthiness of a possibly absent string: [undefined] and the empty
    string are falsy. *)
Definition truthy (o : option string) : bool :=
  match o with
  | Some s => negb (String.eqb s "")
  | None => false
  end.

(** [a || b] on strings. *)
Definition or_else (o : option string) (d : string) : string :=
  match o with
  | Some s => if String.eqb s "" then d else s
  | None => d
  end.

(** ** The remote service, seen from the client

    A call to [supabasePromptService] returns a promise. The world records the
    call and the continuation that waits for it. *)

Inductive RemoteCall :=
  | RGetAllGroups
  | RCreateGroup (name initialContent : string) (description : option string)
  | RAddVersion (groupId name content : string)
  | RSetVersionStatus (versionId : string) (st : Status)
  | RUpdateGroup (groupId : string) (name description : option string)
  | RUpdateVersion (versionId : string) (name description : option string).

(** A call together with the local version on whose behalf it was made
    ([None] for a call that concerns no single version). *)
Record Issued := mkIssued {
  cause : option string;
  call : RemoteCall
}.

(** The [.then] continuations of [syncFromSupabase] and [syncToSupabase], and
    the [setTimeout] callback of [createPromptGroup]. A continuation of
    [syncToSupabase] closes over the array [groups] of its pass (number [arr]
    in the world), over one of its groups (index [gi]) and possibly over one
    version of that group (index [vi]). *)
Inductive Continuation :=
  | PullTimer
  | AfterPull
  | AfterCreateGroup (arr gi : nat)
  | AfterAddAdditional (arr gi vi : nat)
  | AfterAddVersion (arr gi vi : nat).

(** How a promise settles. *)
Inductive Settled :=
  | Fired
  | Rejected
  | Groups (gs : list PromptGroup)
  | Ident (i : option string).

(** ** The world *)

Record World := mkWorld {
  (** [window.localStorage] under [STORAGE_KEYS.PROMPT_GROUPS], parsed;
      [None] when there is no item or the item does not parse: in both cases
      [localStorage.get] returns its default value. *)
  ls_prompt_groups : option (list PromptGroup);
  (** [isSupabaseConfigured()] *)
  supabase_configured : bool;
  (** successive values of [Date.now()] and how many were read *)
  clock : nat -> Z;
  clock_reads : nat;
  (** successive values of [Math.random().toString(36).substr(2, 9)] *)
  random : nat -> string;
  random_draws : nat;
  (** the arrays [groups] that pending continuations still refer to *)
  arrays : list (list PromptGroup);
  pending : list Continuation;
  (** every call made to the remote service so far, oldest first *)
  remote_calls : list Issued;
  (** whether the successive calls of [window.localStorage.setItem] and
      [removeItem] throw (the quota is exceeded, the disk is full, storage is
      disabled, there is no [window]), and how many such calls were made *)
  ls_throws : nat -> bool;
  ls_writes : nat
}.

Definition M (A : Type) : Type := World -> A * World.

Definition ret {A} (a : A) : M A := fun w => (a, w).

Definition bind {A B} (m : M A) (k : A -> M B) : M B :=
  fun w => let (a, w') := m w in k a w'.

Declare Scope monad_scope.
Delimit Scope monad_scope with M.
Bind Scope monad_scope with M.
Notation "x <- y ; z" := (bind y (fun x => z))
  (at level 20, y at level 100, z at level 200, only parsing) : monad_scope.
Notation "y ;; z" := (bind y (fun _ => z))
  (at level 100, z at level 200, only parsing, right associativity) : monad_scope.
Open Scope monad_scope.

Definition with_store (o : option (list PromptGroup)) (w : World) : World :=
  mkWorld o (supabase_configured w) (clock w) (clock_reads w)
    (random w) (random_draws w) (arrays w) (pending w) (remote_calls w)
    (ls_throws w) (ls_writes w).

(** The world after one more reading of the clock, resp. one more random
    draw. *)
Definition tick (w : World) : World :=
  mkWorld (ls_prompt_groups w) (supabase_configured w) (clock w)
    (S (clock_reads w)) (random w) (random_draws w) (arrays w) (pending w)
    (remote_calls w) (ls_throws w) (ls_writes w).

Definition draw (w : World) : World :=
  mkWorld (ls_prompt_groups w) (supabase_configured w) (clock w)
    (clock_reads w) (random w) (S (random_draws w)) (arrays w) (pending w)
    (remote_calls w) (ls_throws w) (ls_writes w).

(** The world after one more call of [setItem] or [removeItem]. *)
Definition written (w : World) : World :=
  mkWorld (ls_prompt_groups w) (supabase_configured w) (clock w)
    (clock_reads w) (random w) (random_draws w) (arrays w) (pending w)
    (remote_calls w) (ls_throws w) (S (ls_writes w)).

(** [Date.now()] *)
Definition Date_now : M Z := fun w => (clock w (clock_reads w), tick w).

(** [Math.random().toString(36).substr(2, 9)] *)
Definition Math_random36 : M string := fun w => (random w (random_draws w), draw w).

Definition isSupabaseConfigured : M bool := fun w => (supabase_configured w, w).

(** Makes a remote call and registers the continuations of its promise. *)
Definition issue (c : Issued) (ks : list Continuation) : M unit := fun w =>
  (tt,
   mkWorld (ls_prompt_groups w) (supabase_configured w) (clock w)
     (clock_reads w) (random w) (random_draws w) (arrays w)
     (pending w ++ ks) (remote_calls w ++ [c]) (ls_throws w) (ls_writes w)).

(** [setTimeout(callback, delay)] *)
Definition setTimeout (k : Continuation) : M unit := fun w =>
  (tt,
   mkWorld (ls_prompt_groups w) (supabase_configured w) (clock w)
     (clock_reads w) (random w) (random_draws w) (arrays w)
     (pending w ++ [k]) (remote_calls w) (ls_throws w) (ls_writes w)).

(** Keeps an array alive for the continuations of a pass; returns its number. *)
Definition retain (groups : list PromptGroup) : M nat := fun w =>
  (length (arrays w),
   mkWorld (ls_prompt_groups w) (supabase_configured w) (clock w)
     (clock_reads w) (random w) (random_draws w) (arrays w ++ [groups])
     (pending w) (remote_calls w) (ls_throws w) (ls_writes w)).

(** [generateId] *)
Definition generateId : M string :=
  t <- Date_now;
  r <- Math_random36;
  ret (decimal t +:+ "_" +:+ r).

(** ** [localStorage] *)

(** [localStorage.get(STORAGE_KEYS.PROMPT_GROUPS, [])] *)
Definition localStorage_get : M (list PromptGroup) := fun w =>
  (default [] (ls_prompt_groups w), w).

(** The map of [localStorage.set]: a [Set] becomes an array. *)
Definition serializable (group : PromptGroup) : PromptGroup :=
  match _syncedVersionIds group with
  | Some (IdSet s) => set_syncedVersionIds (Some (IdArray (elements s))) group
  | _ => group
  end.

(** [localStorage.set(STORAGE_KEYS.PROMPT_GROUPS, groups)]: when [setItem]
    throws, the [catch] returns [false] and nothing was stored. *)
Definition localStorage_set (groups : list PromptGroup) : M bool := fun w =>
  if ls_throws w (ls_writes w) then (false, written w)
  else (true, written (with_store (Some (map serializable groups)) w)).

(** ** Reconciliation *)

(** [items.forEach((item, index) => ...)] *)
Fixpoint forEach {A} (f : nat -> A -> M unit) (index : nat) (items : list A) : M unit :=
  match items with
  | [] => ret tt
  | item :: rest => f index item;; forEach f (S index) rest
  end.

(** [versionStorage.syncFromSupabase]: asks for the remote groups; the answer
    is handled by [AfterPull]. *)
Definition syncFromSupabase : M unit :=
  configured <- isSupabaseConfigured;
  if configured then issue (mkIssued None RGetAllGroups) [AfterPull] else ret tt.

(** The loop body of [getAllGroups]: [_syncedVersionIds] becomes a [Set]. *)
Definition rehydrate (group : PromptGroup) : PromptGroup :=
  match _syncedVersionIds group with
  | Some (IdArray a) => set_syncedVersionIds (Some (IdSet (list_to_set a))) group
  | Some (IdSet _) => group
  | None => set_syncedVersionIds (Some (IdSet ∅)) group
  end.

(** [versionStorage.getAllGroups] *)
Definition getAllGroups : M (list PromptGroup) :=
  syncFromSupabase;;
  groups <- localStorage_get;
  ret (map rehydrate groups).

(** The test of [syncToSupabase] that skips a version:
    [ids && ((ids instanceof Set && ids.has(id)) || (Array.isArray(ids) && ids.includes(id)))] *)
Definition already_synced (ids : option SyncedIds) (i : string) : bool :=
  match ids with
  | Some (IdSet s) => bool_decide (i ∈ s)
  | Some (IdArray a) => bool_decide (i ∈ a)
  | None => false
  end.

(** The members of [_syncedVersionIds], whatever its representation. *)
Definition synced_set (ids : option SyncedIds) : gset string :=
  match ids with
  | Some (IdSet s) => s
  | Some (IdArray a) => list_to_set a
  | None => ∅
  end.

(** Marks a version as synced: the field becomes a [Set] if it was not one,
    then [add(version.id)]. *)
Definition mark_synced (i : string) (ids : option SyncedIds) : option SyncedIds :=
  Some (IdSet ({[ i ]} ∪ synced_set ids)).

(** Mutation of group [gi] of the retained array [arr]. *)
Definition modify_group (arr gi : nat) (f : PromptGroup -> PromptGroup) : M unit := fun w =>
  (tt,
   mkWorld (ls_prompt_groups w) (supabase_configured w) (clock w)
     (clock_reads w) (random w) (random_draws w)
     (alter (alter f gi) arr (arrays w)) (pending w) (remote_calls w)
     (ls_throws w) (ls_writes w)).

Definition read_array (arr : nat) : M (list PromptGroup) := fun w =>
  (default [] (arrays w !! arr), w).

(** [if (version.status === 'current' || version.status === 'production')
      supabasePromptService.setVersionStatus(result.id, version.status)] *)
Definition push_status (remoteId : string) (version : PromptVersion) : M unit :=
  match status version with
  | draft => ret tt
  | st => issue (mkIssued (Some (v_id version)) (RSetVersionStatus remoteId st)) []
  end.

(** [versionStorage.syncToSupabase], up to its return: the calls are made, the
    continuations wait. *)
Definition syncToSupabase (groups : list PromptGroup) : M unit :=
  configured <- isSupabaseConfigured;
  if configured then
    arr <- retain groups;
    forEach (fun gi group =>
      if negb (truthy (supabase_id group)) && bool_decide (0 < length (versions group))%nat then
        match versions group with
        | firstVersion :: _ =>
            issue (mkIssued (Some (v_id firstVersion))
                     (RCreateGroup (g_name group) (content firstVersion) (g_description group)))
                  [AfterCreateGroup arr gi]
        | [] => ret tt
        end
      else if truthy (supabase_id group) then
        (if _syncedVersionIds group is None
         then modify_group arr gi (set_syncedVersionIds (Some (IdSet ∅)))
         else ret tt);;
        forEach (fun vi version =>
          if already_synced (_syncedVersionIds group) (v_id version) then ret tt
          else
            issue (mkIssued (Some (v_id version))
                     (RAddVersion (default "" (supabase_id group)) (v_name version) (content version)))
                  [AfterAddVersion arr gi vi])
          0%nat (versions group)
      else ret tt)
      0%nat groups
  else ret tt.

(** What a continuation does when its promise settles with [r]. *)
Definition run_continuation (k : Continuation) (r : Settled) : M unit :=
  match k, r with
  | PullTimer, Fired => syncFromSupabase
  | AfterPull, Groups groups => localStorage_set groups;; ret tt
  | AfterCreateGroup arr gi, Ident (Some supabaseGroup_id) =>
      modify_group arr gi (set_supabase_id (Some supabaseGroup_id));;
      groups <- read_array arr;
      localStorage_set groups;;
      match groups !! gi with
      | Some group =>
          if bool_decide (1 < length (versions group))%nat then
            forEach (fun vi version =>
              issue (mkIssued (Some (v_id version))
                       (RAddVersion supabaseGroup_id (v_name version) (content version)))
                    [AfterAddAdditional arr gi (S vi)])
              0%nat (drop 1 (versions group))
          else ret tt
      | None => ret tt
      end
  | AfterAddAdditional arr gi vi, Ident (Some result_id) =>
      groups <- read_array arr;
      match groups !! gi ≫= (fun group : PromptGroup => versions group !! vi) with
      | Some version => push_status result_id version
      | None => ret tt
      end
  | AfterAddVersion arr gi vi, Ident (Some result_id) =>
      groups <- read_array arr;
      match groups !! gi ≫= (fun group : PromptGroup => versions group !! vi) with
      | Some version =>
          modify_group arr gi
            (fun group => set_syncedVersionIds
                            (mark_synced (v_id version) (_syncedVersionIds group)) group);;
          groups' <- read_array arr;
          localStorage_set groups';;
          push_status result_id version
      | None => ret tt
      end
  | _, _ => ret tt
  end.

(** The [n]-th pending promise settles with [r]. *)
Definition settle (n : nat) (r : Settled) : M unit := fun w =>
  match pending w !! n with
  | Some k =>
      run_continuation k r
        (mkWorld (ls_prompt_groups w) (supabase_configured w) (clock w)
           (clock_reads w) (random w) (random_draws w) (arrays w)
           (delete n (pending w)) (remote_calls w) (ls_throws w) (ls_writes w))
  | None => (tt, w)
  end.

(** ** The remote service: [supabasePromptService.createGroup]

    The two [insert(...).select().single()] of [createGroup] return the row
    that was inserted, with the identifier and the dates the database chose.
    A date is kept as the number [new Date(s).getTime()] makes of it. *)

Record SupabasePromptGroup := mkSupabaseGroup {
  sg_id : string;
  sg_name : string;
  sg_description : option string;
  sg_created_at : Z;
  sg_updated_at : Z
}.

Record SupabasePromptVersion := mkSupabaseVersion {
  sv_id : string;
  sv_group_id : string;
  sv_name : string;
  sv_content : string;
  sv_status : Status;
  sv_created_at : Z
}.

(** What the database answers to the two inserts: [None] is an error. *)
Record DbAnswers := mkDbAnswers {
  group_inserted : option (string * Z * Z);
  version_inserted : option (string * Z)
}.

(** [array.find(pred)] *)
Definition find {A} (P : A -> Prop) `{!forall x, Decision (P x)} (l : list A) : option A :=
  snd <$> list_find P l.

(** [array.findIndex(pred)], [None] for [-1] *)
Definition findIndex {A} (P : A -> Prop) `{!forall x, Decision (P x)} (l : list A) : option nat :=
  fst <$> list_find P l.

(** [convertGroupToLocal] *)
Definition convertGroupToLocal (supabaseGroup : SupabasePromptGroup)
    (rows : list SupabasePromptVersion) : PromptGroup :=
  let convertedVersions :=
    imap (fun index v =>
      mkVersion (sv_id v) (sv_group_id v) (Some (Z.of_nat index + 1)) (sv_name v)
        (sv_content v) None (sv_status v) None (sv_created_at v) None) rows in
  let currentVersion :=
    match find (fun v => status v = current) convertedVersions with
    | Some v => Some v
    | None =>
        match find (fun v => status v = production) convertedVersions with
        | Some v => Some v
        | None => head convertedVersions
        end
    end in
  let productionVersion := find (fun v => status v = production) convertedVersions in
  mkGroup (sg_id supabaseGroup) (sg_name supabaseGroup)
    (Some (or_else (sg_description supabaseGroup) ""))
    (or_else (v_id <$> currentVersion) "")
    (v_id <$> productionVersion)
    convertedVersions None
    (sg_created_at supabaseGroup) (sg_updated_at supabaseGroup)
    (Some (sg_id supabaseGroup)) None.

(** [supabasePromptService.createGroup(name, initialContent, description)],
    called without [options]: the group row takes the prompt text as its
    description; an error of either insert is caught and gives [null]. *)
Definition supabase_createGroup (name initialContent : string) (db : DbAnswers)
    : option PromptGroup :=
  match group_inserted db with
  | None => None
  | Some (gid, created_at, updated_at) =>
      let group := mkSupabaseGroup gid name (Some initialContent) created_at updated_at in
      match version_inserted db with
      | None => None
      | Some (vid, v_created_at) =>
          let row := mkSupabaseVersion vid gid (name +:+ " v1") initialContent
                       current v_created_at in
          Some (convertGroupToLocal group [row])
      end
  end.

(** ** The version control engine *)

(** [ToNumber(v.version)] on a version read from the store, where a number
    that is not finite is [null]: [null] counts as 0. *)
Definition num (v : PromptVersion) : Z := default 0 (version v).

(** [x + 1] on numbers. A sum is the double nearest to the exact sum, the
    one with the even significand when two are as near. An integer is a
    double when it has at most 53 significant bits; [ulp x] is the distance
    between the doubles around [x], which is 1 up to [2 ^ 53]. *)
Definition ulp (x : Z) : Z := 2 ^ Z.max 0 (Z.log2 (Z.abs x) - 52).

Definition nearest_double (x : Z) : Z :=
  let u := ulp x in
  let q := x / u in
  let r := x mod u in
  if bool_decide (2 * r < u) then q * u
  else if bool_decide (u < 2 * r) then (q + 1) * u
  else if Z.even q then q * u else (q + 1) * u.

Definition plus_one (m : Z) : Z := nearest_double (m + 1).

(** [Math.max(...xs)]; [None] is [-Infinity]. *)
Definition Math_max (xs : list Z) : option Z :=
  foldr (fun x acc => Some (match acc with Some a => Z.max x a | None => x end)) None xs.

(** Template text of a number. *)
Definition show_number (n : option Z) : string :=
  match n with
  | Some z => decimal z
  | None => "-Infinity"
  end.

(** [array.sort((a, b) => b.version - a.version)] on versions that carry their
    index in [group.versions]: the sort is stable, so each element goes before
    the elements to its right that are not greater. *)
Fixpoint insert_desc (x : nat * PromptVersion) (l : list (nat * PromptVersion))
    : list (nat * PromptVersion) :=
  match l with
  | [] => [x]
  | y :: l' =>
      if bool_decide (num (snd y) <= num (snd x)) then x :: y :: l'
      else y :: insert_desc x l'
  end.

Definition sort_desc (l : list (nat * PromptVersion)) : list (nat * PromptVersion) :=
  foldr insert_desc [] l.

(** [versionStorage.createPromptGroup]. The function is suspended once, at
    [await supabasePromptService.createGroup(...)]; nothing before that point
    reads or writes local state, so the model runs the body when the function
    resumes and takes the answers of the database as [db]. *)
Definition createPromptGroup (name content : string) (description : option string)
    (db : DbAnswers) : M PromptGroup :=
  configured <- isSupabaseConfigured;
  remote <-
    (if configured then
       issue (mkIssued None (RCreateGroup name content description)) [];;
       ret (supabase_createGroup name content db)
     else ret None);
  match remote with
  | Some group =>
      groups <- localStorage_get;
      localStorage_set (group :: groups);;
      setTimeout PullTimer;;
      ret group
  | None =>
      groupId <- generateId;
      versionId <- generateId;
      now1 <- Date_now;
      let firstVersion :=
        mkVersion versionId groupId (Some 1) "v1.0" content
          (Some (or_else description "Initial version")) current None now1 (Some manual) in
      now2 <- Date_now;
      now3 <- Date_now;
      let group :=
        mkGroup groupId name description versionId None [firstVersion] None
          now2 now3 None None in
      groups <- getAllGroups;
      let groups := groups ++ [group] in
      localStorage_set groups;;
      syncToSupabase groups;;
      ret group
  end.

(** The [options] of [addVersion]; [None] is a key that was not given. *)
Record AddVersionOptions := mkOptions {
  opt_name : option string;
  opt_description : option string;
  opt_status : option Status;
  opt_createdFrom : option CreatedFromType;
  opt_parentVersionId : option string
}.

(** The object literal [newVersion] of [addVersion] *)
Definition addVersion_newVersion (versionId groupId content : string)
    (options : AddVersionOptions) (nextVersionNumber : option Z) (now : Z)
    : PromptVersion :=
  mkVersion versionId groupId nextVersionNumber
    (or_else (opt_name options) ("v" +:+ show_number nextVersionNumber +:+ ".0"))
    content (opt_description options)
    (default draft (opt_status options))
    (opt_parentVersionId options) now
    (Some (default manual (opt_createdFrom options))).

(** [if (v.status === st) v.status = 'draft'] *)
Definition demote (st : Status) (v : PromptVersion) : PromptVersion :=
  if decide (status v = st) then set_status draft v else v.

(** What [addVersion] does to the group before it sets [lastModified]: if the
    new version is current the versions that were current become drafts and
    the pointer moves; then the new version is pushed. *)
Definition addVersion_mutate (newVersion : PromptVersion) (group : PromptGroup)
    : PromptGroup :=
  let group :=
    if decide (status newVersion = current) then
      set_currentVersionId (v_id newVersion)
        (set_versions (map (demote current) (versions group)) group)
    else group in
  set_versions (versions group ++ [newVersion]) group.

(** [versionStorage.addVersion] *)
Definition addVersion (groupId content : string) (options : AddVersionOptions)
    : M (option PromptVersion) :=
  groups <- getAllGroups;
  match list_find (fun g => g_id g = groupId) groups with
  | None => ret None
  | Some (groupIndex, group) =>
      let nextVersionNumber :=
        plus_one <$> Math_max (map num (versions group)) in
      versionId <- generateId;
      now <- Date_now;
      let newVersion :=
        addVersion_newVersion versionId groupId content options nextVersionNumber now in
      let group := addVersion_mutate newVersion group in
      now' <- Date_now;
      let group := set_lastModified now' group in
      let groups := <[groupIndex := group]> groups in
      localStorage_set groups;;
      syncToSupabase groups;;
      ret (Some newVersion)
  end.

(** [versionStorage.getGroupById] *)
Definition getGroupById (groupId : string) : M (option PromptGroup) :=
  groups <- getAllGroups;
  ret (find (fun g => g_id g = groupId) groups).

(** The loop [for (const group of groups)] of [getVersionById] *)
Fixpoint first_version (versionId : string) (groups : list PromptGroup)
    : option PromptVersion :=
  match groups with
  | [] => None
  | group :: rest =>
      match find (fun v => v_id v = versionId) (versions group) with
      | Some version => Some version
      | None => first_version versionId rest
      end
  end.

(** [versionStorage.getVersionById] *)
Definition getVersionById (versionId : string) : M (option PromptVersion) :=
  groups <- getAllGroups;
  ret (first_version versionId groups).

(** One turn of the loop [for (let i = 0; i < groups.length; i++)] of
    [setVersionStatus], [deleteVersion] and [updateVersion]: go on to the next
    group, leave the loop with the group mutated, or [return false]. *)
Inductive LoopStep :=
  | Continue
  | Break (group : PromptGroup)
  | ReturnFalse.

(** The loop: [None] when the body returned [false]; otherwise the flag
    [updated] and the array after the loop. *)
Fixpoint for_groups (body : PromptGroup -> M LoopStep) (groups : list PromptGroup)
    : M (option (bool * list PromptGroup)) :=
  match groups with
  | [] => ret (Some (false, []))
  | group :: rest =>
      step <- body group;
      match step with
      | Continue =>
          r <- for_groups body rest;
          ret (prod_map id (cons group) <$> r)
      | Break group' => ret (Some (true, group' :: rest))
      | ReturnFalse => ret None
      end
  end.

(** What the loop body of [setVersionStatus] does to the group that holds the
    version, at index [versionIndex], before it sets [lastModified]. *)
Definition setVersionStatus_mutate (versionId : string) (st : Status)
    (versionIndex : nat) (group : PromptGroup) : PromptGroup :=
  let group :=
    match st with
    | draft => group
    | _ =>
        let group :=
          set_versions
            (imap (fun idx v =>
                     if decide (idx ≠ versionIndex ∧ status v = st)
                     then set_status draft v else v)
                  (versions group))
            group in
        match st with
        | current => set_currentVersionId versionId group
        | production => set_productionVersionId (Some versionId) group
        | draft => group
        end
    end in
  set_versions (alter (set_status st) versionIndex (versions group)) group.

(** The loop body of [setVersionStatus] *)
Definition setVersionStatus_body (versionId : string) (st : Status)
    (group : PromptGroup) : M LoopStep :=
  match findIndex (fun v => v_id v = versionId) (versions group) with
  | None => ret Continue
  | Some versionIndex =>
      let group := setVersionStatus_mutate versionId st versionIndex group in
      now <- Date_now;
      ret (Break (set_lastModified now group))
  end.

(** [versionStorage.setVersionStatus] *)
Definition setVersionStatus (versionId : string) (st : Status) : M bool :=
  groups <- getAllGroups;
  r <- for_groups (setVersionStatus_body versionId st) groups;
  match r with
  | Some (true, groups) =>
      localStorage_set groups;;
      syncToSupabase groups;;
      ret true
  | _ => ret false
  end.

(** What the loop body of [deleteVersion] does to the group once it has
    decided to delete [versionToDelete], found at index [versionIndex]. *)
Definition deleteVersion_mutate (versionIndex : nat) (versionToDelete : PromptVersion)
    (group : PromptGroup) : PromptGroup :=
  let group :=
    if decide (status versionToDelete = current) then
      let remainingVersions :=
        filter (fun iv => fst iv ≠ versionIndex) (imap pair (versions group)) in
      match sort_desc remainingVersions with
      | (j, latestVersion) :: _ =>
          set_currentVersionId (v_id latestVersion)
            (set_versions (alter (set_status current) j (versions group)) group)
      | [] => group
      end
    else group in
  let group :=
    if decide (status versionToDelete = production)
    then set_productionVersionId None group else group in
  set_versions (delete versionIndex (versions group)) group.

(** The loop body of [deleteVersion] *)
Definition deleteVersion_body (versionId : string) (group : PromptGroup) : M LoopStep :=
  match list_find (fun v => v_id v = versionId) (versions group) with
  | None => ret Continue
  | Some (versionIndex, versionToDelete) =>
      if bool_decide (length (versions group) = 1%nat) then ret ReturnFalse
      else
        let group := deleteVersion_mutate versionIndex versionToDelete group in
        now <- Date_now;
        ret (Break (set_lastModified now group))
  end.

(** [versionStorage.deleteVersion] *)
Definition deleteVersion (versionId : string) : M bool :=
  groups <- getAllGroups;
  r <- for_groups (deleteVersion_body versionId) groups;
  match r with
  | Some (true, groups) => localStorage_set groups;; ret true
  | _ => ret false
  end.

(** [Partial<Pick<PromptGroup, 'name' | 'description' | 'tags'>>] and
    [Partial<Pick<PromptVersion, 'name' | 'description'>>]; [None] is a key
    that was not given. *)
Record GroupUpdates := mkGroupUpdates {
  gu_name : option string;
  gu_description : option string;
  gu_tags : option (list string)
}.

Record VersionUpdates := mkVersionUpdates {
  vu_name : option string;
  vu_description : option string
}.

(** [versionStorage.updateGroup] *)
Definition updateGroup (groupId : string) (updates : GroupUpdates) : M bool :=
  groups <- getAllGroups;
  match list_find (fun g => g_id g = groupId) groups with
  | None => ret false
  | Some (groupIndex, group) =>
      now <- Date_now;
      let group' :=
        mkGroup (g_id group) (default (g_name group) (gu_name updates))
          (from_option Some (g_description group) (gu_description updates))
          (currentVersionId group) (productionVersionId group) (versions group)
          (from_option Some (tags group) (gu_tags updates))
          (g_timestamp group) now (supabase_id group) (_syncedVersionIds group) in
      localStorage_set (<[groupIndex := group']> groups);;
      configured <- isSupabaseConfigured;
      (if configured && truthy (supabase_id group) then
         issue (mkIssued None
                  (RUpdateGroup (default "" (supabase_id group))
                     (gu_name updates) (gu_description updates))) []
       else ret tt);;
      ret true
  end.

(** [{...version, ...updates}] *)
Definition patch_version (updates : VersionUpdates) (v : PromptVersion) : PromptVersion :=
  mkVersion (v_id v) (promptId v) (version v)
    (default (v_name v) (vu_name updates)) (content v)
    (from_option Some (v_description v) (vu_description updates))
    (status v) (parentVersionId v) (v_timestamp v) (createdFrom v).

(** The loop body of [updateVersion] *)
Definition updateVersion_body (versionId : string) (updates : VersionUpdates)
    (group : PromptGroup) : M LoopStep :=
  match findIndex (fun v => v_id v = versionId) (versions group) with
  | None => ret Continue
  | Some versionIndex =>
      let group :=
        set_versions (alter (patch_version updates) versionIndex (versions group)) group in
      now <- Date_now;
      ret (Break (set_lastModified now group))
  end.

(** [versionStorage.updateVersion] *)
Definition updateVersion (versionId : string) (updates : VersionUpdates) : M bool :=
  groups <- getAllGroups;
  r <- for_groups (updateVersion_body versionId updates) groups;
  match r with
  | Some (true, groups) =>
      localStorage_set groups;;
      configured <- isSupabaseConfigured;
      (if configured && truthy (Some versionId) then
         issue (mkIssued (Some versionId)
                  (RUpdateVersion versionId (vu_name updates) (vu_description updates))) []
       else ret tt);;
      ret true
  | _ => ret false
  end.

(** ** Vocabulary of the properties *)

(** The groups in the local cache store. *)
Definition stored (w : World) : list PromptGroup := default [] (ls_prompt_groups w).

(** [w'] differs from [w] at most in the pending promises, the arrays they
    refer to and the record of remote calls. *)
Definition same_local (w w' : World) : Prop :=
  ls_prompt_groups w' = ls_prompt_groups w ∧
  supabase_configured w' = supabase_configured w ∧
  clock w' = clock w ∧ clock_reads w' = clock_reads w ∧
  random w' = random w ∧ random_draws w' = random_draws w ∧
  ls_throws w' = ls_throws w ∧ ls_writes w' = ls_writes w.

(** The medium accepts the write that comes [k] writes from now: the next
    one for [k = 0]. *)
Definition accepts (k : nat) (w : World) : Prop :=
  ls_throws w (k + ls_writes w) = false.

Global Instance accepts_dec k w : Decision (accepts k w).
Proof. unfold accepts. apply _. Defined.

(** The group holds a version with this identifier. *)
Definition contains (versionId : string) (group : PromptGroup) : Prop :=
  Exists (fun v => v_id v = versionId) (versions group).

Global Instance contains_dec versionId group : Decision (contains versionId group).
Proof. unfold contains. apply _. Defined.

(** The number of versions that have status [st], in a list and in a group. *)
Definition count_versions (st : Status) (vs : list PromptVersion) : nat :=
  length (filter (fun v => status v = st) vs).

Definition count_status (st : Status) (group : PromptGroup) : nat :=
  count_versions st (versions group).

(** The versions of a group after [setVersionStatus] gave status [st] to the
    version at index [k]. *)
Definition status_versions (st : Status) (k : nat) (vs : list PromptVersion)
    : list PromptVersion :=
  alter (set_status st) k
    (match st with
     | draft => vs
     | _ => imap (fun idx v =>
                    if decide (idx ≠ k ∧ status v = st) then set_status draft v else v) vs
     end).

(** Two groups that differ at most in how [_syncedVersionIds] is represented:
    every other field is equal and the set has the same members. *)
Definition same_group (g g' : PromptGroup) : Prop :=
  g' = set_syncedVersionIds (_syncedVersionIds g') g ∧
  synced_set (_syncedVersionIds g') = synced_set (_syncedVersionIds g).

(** A loop body seen as a function of the group alone: [None] to go on,
    [Some None] to return [false], [Some (Some g)] to leave the loop with the
    group [g], on which [lastModified] is still to be set. *)
Definition loop_body (act : PromptGroup -> option (option PromptGroup))
    (group : PromptGroup) : M LoopStep :=
  match act group with
  | None => ret Continue
  | Some None => ret ReturnFalse
  | Some (Some group') => now <- Date_now; ret (Break (set_lastModified now group'))
  end.

Definition setVersionStatus_act (versionId : string) (st : Status) (group : PromptGroup)
    : option (option PromptGroup) :=
  (fun versionIndex => Some (setVersionStatus_mutate versionId st versionIndex group))
    <$> findIndex (fun v => v_id v = versionId) (versions group).

Definition deleteVersion_act (versionId : string) (group : PromptGroup)
    : option (option PromptGroup) :=
  (fun iv : nat * PromptVersion =>
     if bool_decide (length (versions group) = 1%nat) then None
     else Some (deleteVersion_mutate iv.1 iv.2 group))
    <$> list_find (fun v => v_id v = versionId) (versions group).

Definition updateVersion_act (versionId : string) (updates : VersionUpdates)
    (group : PromptGroup) : option (option PromptGroup) :=
  (fun versionIndex =>
     Some (set_versions (alter (patch_version updates) versionIndex (versions group)) group))
    <$> findIndex (fun v => v_id v = versionId) (versions group).

(** The loop without the world: the time read by [Date.now()] is [now]. *)
Fixpoint scan (act : PromptGroup -> option (option PromptGroup)) (now : Z)
    (groups : list PromptGroup) : option (bool * list PromptGroup) :=
  match groups with
  | [] => Some (false, [])
  | group :: rest =>
      match act group with
      | None => prod_map id (cons group) <$> scan act now rest
      | Some None => None
      | Some (Some group') => Some (true, set_lastModified now group' :: rest)
      end
  end.

(** A run of [setVersionStatus] calls, results dropped. *)
Fixpoint setVersionStatus_calls (calls : list (string * Status)) (w : World) : World :=
  match calls with
  | [] => w
  | (versionId, st) :: rest =>
      setVersionStatus_calls rest (setVersionStatus versionId st w).2
  end.


(** The common shape of [setVersionStatus], [deleteVersion] and
    [updateVersion]: read the groups, run the loop, and when [updated] is set
    write the groups back and do what follows. *)
Definition loop_op (act : PromptGroup -> option (option PromptGroup))
    (after : list PromptGroup -> M unit) : M bool :=
  groups <- getAllGroups;
  r <- for_groups (loop_body act) groups;
  match r with
  | Some (true, groups) => localStorage_set groups;; after groups;; ret true
  | _ => ret false
  end.

(** The end of [updateVersion]: the remote update. *)
Definition updateVersion_after (versionId : string) (updates : VersionUpdates)
    (groups : list PromptGroup) : M unit :=
  configured <- isSupabaseConfigured;
  if configured && truthy (Some versionId) then
    issue (mkIssued (Some versionId)
             (RUpdateVersion versionId (vu_name updates) (vu_description updates))) []
  else ret tt.

(** A stored group after it was read by [getAllGroups] and written back by
    [localStorage.set]. *)
Definition normalize (group : PromptGroup) : PromptGroup :=
  serializable (rehydrate group).

(** The index of the first group, in stored order, that holds a version with
    this identifier: the group on which the loops act. *)
Definition owner (versionId : string) (groups : list PromptGroup) : option nat :=
  fst <$> list_find (contains versionId) groups.

(** Version identifiers are unique across the store: no two groups hold a
    version with the same identifier. *)
Definition one_group_per_version (groups : list PromptGroup) : Prop :=
  forall i j gi gj versionId,
    groups !! i = Some gi -> groups !! j = Some gj ->
    contains versionId gi -> contains versionId gj -> i = j.

(** ** Sample data *)

Definition sample_version (i : string) (n : Z) (st : Status) : PromptVersion :=
  mkVersion i "G" (Some n) ("v" +:+ decimal n +:+ ".0") "You are helpful." None st None
    1700000000000 (Some manual).

Definition sample_group (i : string) (cur : string) (vs : list PromptVersion) : PromptGroup :=
  mkGroup i "Support Bot" None cur None vs None 1700000000000 1700000000000 None None.

(** A world without Supabase whose store holds the given groups and accepts
    every write. *)
Definition sample_world (groups : list PromptGroup) : World :=
  mkWorld (Some groups) false (fun n => 1700000000001 + Z.of_nat n) 0
    (fun n => "r" +:+ decimal (Z.of_nat n)) 0 [] [] [] (fun _ => false) 0.

(** Two groups: [G] with a draft [a1] and the current [a2], [H] with the
    current [b1] alone. *)
Definition group_G : PromptGroup :=
  sample_group "G" "a2" [sample_version "a1" 1 draft; sample_version "a2" 2 current].

Definition group_H : PromptGroup :=
  sample_group "H" "b1" [sample_version "b1" 1 current].

Definition two_groups : list PromptGroup := [group_G; group_H].

Definition world0 : World := sample_world two_groups.

(** The world [w] when the medium refuses every write from now on: the quota
    is exceeded. *)
Definition refusing (w : World) : World :=
  mkWorld (ls_prompt_groups w) (supabase_configured w) (clock w)
    (clock_reads w) (random w) (random_draws w) (arrays w) (pending w)
    (remote_calls w) (fun _ => true) (ls_writes w).

Definition full_world : World := refusing world0.




(** ** Reconciliation run twice *)

(** The remote calls that create a version on behalf of the local version
    [versionId]: [createGroup], which inserts the text of the first version as
    the initial remote version, and [addVersion]. *)
Definition is_create_for (versionId : string) (c : Issued) : bool :=
  bool_decide (cause c = Some versionId) &&
  match call c with
  | RCreateGroup _ _ _ | RAddVersion _ _ _ => true
  | _ => false
  end.

Definition creates_for (versionId : string) (w : World) : nat :=
  length (filter (fun c => is_create_for versionId c = true) (remote_calls w)).

(** A world with Supabase configured whose store holds one group that was
    never pushed: no [supabase_id], versions [a1] (draft) and [a2] (current). *)
Definition unsynced_world : World :=
  mkWorld
    (Some [group_G])
    true (fun n => 1700000000001 + Z.of_nat n) 0 (fun n => "r" +:+ decimal (Z.of_nat n)) 0 [] [] []
    (fun _ => false) 0.

(** A mutation triggers a first pass; the remote [createGroup] succeeds, then
    the remote [addVersion] for [a2] succeeds. (The pull asked for by
    [getAllGroups] stays pending at position 0.) *)
Definition after_first_pass : World :=
  let w1 := (setVersionStatus "a1" draft unsynced_world).2 in
  let w2 := (settle 1 (Ident (Some "remote-G")) w1).2 in
  (settle 1 (Ident (Some "remote-a2")) w2).2.

(** A second mutation triggers a second pass. *)
Definition after_second_pass : World :=
  (setVersionStatus "a1" draft after_first_pass).2.

(** From an empty store, with Supabase configured: [createPromptGroup] whose
    awaited remote [createGroup] gives [null], so that the group is made
    locally and pushed in the background; this time the remote [createGroup]
    succeeds. Then [addVersion] on the new group. *)
Definition fresh_world : World :=
  mkWorld None true (fun n => 1700000000001 + Z.of_nat n) 0
    (fun n => "r" +:+ decimal (Z.of_nat n)) 0 [] [] [] (fun _ => false) 0.

Definition created : PromptGroup * World :=
  createPromptGroup "Support Bot" "You are helpful." None (mkDbAnswers None None)
    fresh_world.

Definition created_and_pushed : World :=
  (settle 1 (Ident (Some "remote-G")) created.2).2.

Definition then_added : World :=
  (addVersion (g_id created.1) "Be brief." (mkOptions None None None None None)
     created_and_pushed).2.

(** The same group once it has a [supabase_id]: the two passes again, both
    remote [addVersion] calls of the first pass succeeding. *)
Definition pushed_world : World :=
  mkWorld
    (Some [set_supabase_id (Some "remote-G") group_G])
    true (fun n => 1700000000001 + Z.of_nat n) 0 (fun n => "r" +:+ decimal (Z.of_nat n)) 0
    [] [] [] (fun _ => false) 0.

Definition pushed_after_first_pass : World :=
  let w1 := (setVersionStatus "a1" draft pushed_world).2 in
  let w2 := (settle 1 (Ident (Some "remote-a1")) w1).2 in
  (settle 1 (Ident (Some "remote-a2")) w2).2.

Definition pushed_after_second_pass : World :=
  (setVersionStatus "a1" draft pushed_after_first_pass).2.

(** ** More of [versionStorage] *)

(** [array.sort((a, b) => key(b) - key(a))]: the sort of an array is stable,
    so an element goes before the elements to its right whose key is not
    greater. [insert_desc] is the instance that [deleteVersion] needs. *)
Fixpoint insert_by {A} (key : A -> Z) (x : A) (l : list A) : list A :=
  match l with
  | [] => [x]
  | y :: l' =>
      if bool_decide (key y <= key x) then x :: y :: l'
      else y :: insert_by key x l'
  end.

Definition sort_by {A} (key : A -> Z) (l : list A) : list A :=
  foldr (insert_by key) [] l.

(** [array.slice(0, limit)] for an integer [limit]: a negative [limit] counts
    from the end of the array. *)
Definition slice0 {A} (limit : Z) (l : list A) : list A :=
  if bool_decide (limit < 0) then take (length l - Z.to_nat (- limit)) l
  else take (Z.to_nat limit) l.

(** [versionStorage.getVersionsForGroup] *)
Definition getVersionsForGroup (groupId : string) : M (list PromptVersion) :=
  group <- getGroupById groupId;
  ret (match group with
       | Some group => sort_by num (versions group)
       | None => []
       end).

(** The two nested [forEach] of [getRecentVersions]: every version, paired
    with its group, is pushed on [allVersions]. *)
Definition allVersions (groups : list PromptGroup) : list (PromptGroup * PromptVersion) :=
  foldl (fun acc group =>
           foldl (fun acc version => acc ++ [(group, version)]) acc (versions group))
        [] groups.

(** [versionStorage.getRecentVersions(limit)]; [None] is the call without
    argument, for which [limit] is 10. *)
Definition getRecentVersions (limit : option Z)
    : M (list (PromptGroup * PromptVersion)) :=
  groups <- getAllGroups;
  ret (slice0 (default 10 limit)
         (sort_by (fun gv : PromptGroup * PromptVersion => v_timestamp gv.2)
            (allVersions groups))).

(** [versionStorage.deleteGroup]. The function is suspended once, at
    [await supabasePromptService.deleteGroup(groupId)], which is reached only
    when Supabase is configured and before which nothing reads or writes local
    state; [success] is what the awaited call gives ([false] also stands for a
    call that throws: the [catch] leads to the same fallback). The model runs
    the body when the function resumes. The awaited call is not entered in
    [remote_calls]. *)
Definition deleteGroup (groupId : string) (success : bool) : M bool :=
  configured <- isSupabaseConfigured;
  if configured && success then
    groups <- getAllGroups;
    let filtered := filter (fun g => g_id g ≠ groupId) groups in
    localStorage_set filtered;;
    setTimeout PullTimer;;
    ret true
  else
    groups <- getAllGroups;
    let filtered := filter (fun g => g_id g ≠ groupId) groups in
    localStorage_set filtered;;
    ret (bool_decide (length groups ≠ length filtered)).

(** ** The operations as steps of the world

    A call of a [versionStorage] method with its arguments, or the settling
    of a pending promise. *)
Inductive Action :=
  | CreatePromptGroup (name content : string) (description : option string) (db : DbAnswers)
  | AddVersion (groupId content : string) (options : AddVersionOptions)
  | SetVersionStatus (versionId : string) (st : Status)
  | DeleteVersion (versionId : string)
  | DeleteGroup (groupId : string) (success : bool)
  | UpdateGroup (groupId : string) (updates : GroupUpdates)
  | UpdateVersion (versionId : string) (updates : VersionUpdates)
  | GetAllGroups
  | GetGroupById (groupId : string)
  | GetVersionById (versionId : string)
  | GetVersionsForGroup (groupId : string)
  | GetRecentVersions (limit : option Z)
  | Settle (n : nat) (r : Settled).

Definition perform (a : Action) (w : World) : World :=
  match a with
  | CreatePromptGroup name content description db =>
      (createPromptGroup name content description db w).2
  | AddVersion groupId content options => (addVersion groupId content options w).2
  | SetVersionStatus versionId st => (setVersionStatus versionId st w).2
  | DeleteVersion versionId => (deleteVersion versionId w).2
  | DeleteGroup groupId success => (deleteGroup groupId success w).2
  | UpdateGroup groupId updates => (updateGroup groupId updates w).2
  | UpdateVersion versionId updates => (updateVersion versionId updates w).2
  | GetAllGroups => (getAllGroups w).2
  | GetGroupById groupId => (getGroupById groupId w).2
  | GetVersionById versionId => (getVersionById versionId w).2
  | GetVersionsForGroup groupId => (getVersionsForGroup groupId w).2
  | GetRecentVersions limit => (getRecentVersions limit w).2
  | Settle n r => (settle n r w).2
  end.

Definition run (actions : list Action) (w : World) : World :=
  foldl (fun w a => perform a w) w actions.

(** The statuses and the two pointers of a group agree: at most one version
    is current and at most one is in production, and a version with one of
    these statuses is the one the pointer of that status names. *)
Definition pointers_ok (g : PromptGroup) : Prop :=
  (count_status current g <= 1)%nat ∧
  (count_status production g <= 1)%nat ∧
  Forall (fun v => status v = current -> currentVersionId g = v_id v) (versions g) ∧
  Forall (fun v => status v = production -> productionVersionId g = Some (v_id v))
    (versions g).

Global Instance pointers_ok_dec g : Decision (pointers_ok g).
Proof. unfold pointers_ok. apply _. Defined.

(** The group has at least one version. *)
Definition has_versions (g : PromptGroup) : Prop := versions g ≠ [].

(** [P] holds of every group in the store and of every group in the arrays
    that pending continuations still refer to. *)
Definition kept (P : PromptGroup -> Prop) (w : World) : Prop :=
  Forall P (stored w) ∧ Forall (Forall P) (arrays w).

(** A world that cannot reach the remote service: Supabase is not configured
    and no promise is pending; [calls] are the remote calls made so far. *)
Definition offline (calls : list Issued) (w : World) : Prop :=
  supabase_configured w = false ∧ pending w = [] ∧ remote_calls w = calls.

(** From a world where [I] holds, [m] returns a value for which [Q] holds and
    leaves a world where [I] holds. *)
Definition preserves {A} (I : World -> Prop) (m : M A) (Q : A -> Prop) : Prop :=
  forall w, I w -> Q (m w).1 ∧ I (m w).2.

(** What the interface of [versionStorage] and of the remote service lets an
    action carry: [addVersion] takes ['draft' | 'current'] as status. The
    groups a pull answers with are constrained by the property at hand,
    [P]. *)
Definition admissible (P : PromptGroup -> Prop) (a : Action) : Prop :=
  match a with
  | AddVersion _ _ options => opt_status options ≠ Some production
  | Settle _ (Groups gs) => Forall P gs
  | _ => True
  end.

(** ** The other keys of [localStorage]

    [promptStorage], [analysisStorage], [preferencesStorage],
    [favoritesStorage] and [storageManager] keep their data under the keys
    [PROMPTS], [ANALYSES], [PREFERENCES], [RECENT_PROMPTS] and [FAVORITES]. *)

Module PromptType.
Inductive t := generated | improved | analyzed | rewritten | evaluated.
End PromptType.

(** [interface FileData] *)
Record FileData := mkFile {
  f_name : string;
  mimeType : string;
  f_data : string;
  f_size : Z
}.

(** [interface PromptData]; the fields [id], [context], [timestamp] and
    [type] carry the prefix [p_]. *)
Record PromptData := mkPrompt {
  p_id : string;
  originalPrompt : option string;
  improvedPrompt : option string;
  p_context : option string;
  files : option (list FileData);
  p_timestamp : Z;
  p_type : PromptType.t
}.

(** [Omit<PromptData, 'id' | 'timestamp'>] *)
Record PromptInput := mkPromptInput {
  in_originalPrompt : option string;
  in_improvedPrompt : option string;
  in_context : option string;
  in_files : option (list FileData);
  in_type : PromptType.t
}.

(** [interface AnalysisResult]. A score is kept as an integer; the storage
    layer stores and returns the scores and never reads them. *)
Record Improvement := mkImprovement {
  category : string;
  i_description : string;
  impact : string
}.

Record Metrics := mkMetrics {
  clarityScore : Z;
  specificityScore : Z;
  structureScore : Z;
  overallScore : Z
}.

Record BeforeAfterAnalysis := mkBeforeAfter {
  beforeStrengths : list string;
  beforeWeaknesses : list string;
  afterStrengths : list string;
  keyChanges : list string
}.

Record AnalysisResult := mkAnalysis {
  a_id : string;
  a_promptId : string;
  summary : string;
  improvements : list Improvement;
  metrics : Metrics;
  beforeAfterAnalysis : BeforeAfterAnalysis;
  recommendations : list string;
  a_timestamp : Z
}.

(** [Omit<AnalysisResult, 'id' | 'timestamp'>] *)
Record AnalysisInput := mkAnalysisInput {
  in_promptId : string;
  in_summary : string;
  in_improvements : list Improvement;
  in_metrics : Metrics;
  in_beforeAfterAnalysis : BeforeAfterAnalysis;
  in_recommendations : list string
}.

(** [interface UserPreferences] and [Partial<UserPreferences>] *)
Inductive Theme := light | dark | system.

Record UserPreferences := mkPreferences {
  theme : Theme;
  autoAnalyze : bool;
  maxFileSize : Z;
  maxHistoryItems : Z
}.

Record PreferenceUpdates := mkPreferenceUpdates {
  pu_theme : option Theme;
  pu_autoAnalyze : option bool;
  pu_maxFileSize : option Z;
  pu_maxHistoryItems : option Z
}.

(** The items under the five keys, parsed; as for [ls_prompt_groups], [None]
    is a missing item or one that does not parse. An item holds a value of
    the type its key is written with. *)
Record Shelf := mkShelf {
  ls_prompts : option (list PromptData);
  ls_analyses : option (list AnalysisResult);
  ls_preferences : option UserPreferences;
  ls_recent : option (list PromptData);
  ls_favorites : option (list string)
}.

Definition set_ls_prompts (o : option (list PromptData)) (s : Shelf) : Shelf :=
  mkShelf o (ls_analyses s) (ls_preferences s) (ls_recent s) (ls_favorites s).

Definition set_ls_analyses (o : option (list AnalysisResult)) (s : Shelf) : Shelf :=
  mkShelf (ls_prompts s) o (ls_preferences s) (ls_recent s) (ls_favorites s).

Definition set_ls_preferences (o : option UserPreferences) (s : Shelf) : Shelf :=
  mkShelf (ls_prompts s) (ls_analyses s) o (ls_recent s) (ls_favorites s).

Definition set_ls_recent (o : option (list PromptData)) (s : Shelf) : Shelf :=
  mkShelf (ls_prompts s) (ls_analyses s) (ls_preferences s) o (ls_favorites s).


(** The functions over these keys run in the state monad over the world,
    for [Date.now()] and [generateId], and the shelf. *)
Definition MS (A : Type) : Type := World * Shelf -> A * (World * Shelf).

Definition retS {A} (a : A) : MS A := fun ws => (a, ws).

Definition bindS {A B} (m : MS A) (k : A -> MS B) : MS B :=
  fun ws => let (a, ws') := m ws in k a ws'.

Definition lift {A} (m : M A) : MS A :=
  fun ws => let (a, w') := m ws.1 in (a, (w', ws.2)).

Declare Scope shelf_scope.
Delimit Scope shelf_scope with S.
Bind Scope shelf_scope with MS.
Notation "x <- y ; z" := (bindS y (fun x => z))
  (at level 20, y at level 100, z at level 200, only parsing) : shelf_scope.
Notation "y ;; z" := (bindS y (fun _ => z))
  (at level 100, z at level 200, only parsing, right associativity) : shelf_scope.
Open Scope shelf_scope.

(** [localStorage.get(key, defaultValue)], [localStorage.set(key, value)] and
    [localStorage.remove(key)] on one of the five keys: [item] reads the key
    and [set_item] writes it. When [setItem] or [removeItem] throws, the
    [catch] returns [false] and the item is as it was. *)
Definition localStorage_get_item {T} (item : Shelf -> option T) (defaultValue : T) : MS T :=
  fun ws => (default defaultValue (item ws.2), ws).

Definition localStorage_set_item {T} (set_item : option T -> Shelf -> Shelf) (value : T)
    : MS bool :=
  fun ws =>
    if ls_throws ws.1 (ls_writes ws.1) then (false, (written ws.1, ws.2))
    else (true, (written ws.1, set_item (Some value) ws.2)).

Definition localStorage_remove_item {T} (set_item : option T -> Shelf -> Shelf) : MS bool :=
  fun ws =>
    if ls_throws ws.1 (ls_writes ws.1) then (false, (written ws.1, ws.2))
    else (true, (written ws.1, set_item None ws.2)).

(** *** [promptStorage] *)

(** [promptStorage.getAll] *)
Definition promptStorage_getAll : MS (list PromptData) :=
  localStorage_get_item ls_prompts [].

(** [promptStorage.getRecent(limit)]; [None] is the call without argument,
    for which [limit] is 10. *)
Definition promptStorage_getRecent (limit : option Z) : MS (list PromptData) :=
  recent <- localStorage_get_item ls_recent [];
  retS (slice0 (default 10 limit) recent).

(** [promptStorage.updateRecent] *)
Definition promptStorage_updateRecent (prompt : PromptData) : MS unit :=
  recent <- promptStorage_getRecent (Some 20);
  let filtered := filter (fun p => p_id p ≠ p_id prompt) recent in
  let updated := slice0 10 (prompt :: filtered) in
  localStorage_set_item set_ls_recent updated;;
  retS tt.

(** [promptStorage.save] *)
Definition promptStorage_save (prompt : PromptInput) : MS string :=
  id <- lift generateId;
  now <- lift Date_now;
  let promptData :=
    mkPrompt id (in_originalPrompt prompt) (in_improvedPrompt prompt) (in_context prompt)
      (in_files prompt) now (in_type prompt) in
  prompts <- promptStorage_getAll;
  localStorage_set_item set_ls_prompts (prompts ++ [promptData]);;
  promptStorage_updateRecent promptData;;
  retS id.

(** [promptStorage.getById] *)
Definition promptStorage_getById (id : string) : MS (option PromptData) :=
  prompts <- promptStorage_getAll;
  retS (find (fun p => p_id p = id) prompts).

(** [promptStorage.delete] *)
Definition promptStorage_delete (id : string) : MS bool :=
  prompts <- promptStorage_getAll;
  let filtered := filter (fun p => p_id p ≠ id) prompts in
  localStorage_set_item set_ls_prompts filtered;;
  recent <- promptStorage_getRecent (Some 20);
  let recentFiltered := filter (fun p => p_id p ≠ id) recent in
  localStorage_set_item set_ls_recent recentFiltered;;
  retS true.

(** *** [analysisStorage] *)

(** [analysisStorage.getAll] *)
Definition analysisStorage_getAll : MS (list AnalysisResult) :=
  localStorage_get_item ls_analyses [].

(** [analysisStorage.save] *)
Definition analysisStorage_save (analysis : AnalysisInput) : MS string :=
  id <- lift generateId;
  now <- lift Date_now;
  let analysisData :=
    mkAnalysis id (in_promptId analysis) (in_summary analysis) (in_improvements analysis)
      (in_metrics analysis) (in_beforeAfterAnalysis analysis) (in_recommendations analysis)
      now in
  analyses <- analysisStorage_getAll;
  localStorage_set_item set_ls_analyses (analyses ++ [analysisData]);;
  retS id.

(** [analysisStorage.getByPromptId] *)
Definition analysisStorage_getByPromptId (promptId : string) : MS (option AnalysisResult) :=
  analyses <- analysisStorage_getAll;
  retS (find (fun a => a_promptId a = promptId) analyses).

(** [analysisStorage.getRecent(limit)]; without argument [limit] is 5. *)
Definition analysisStorage_getRecent (limit : option Z) : MS (list AnalysisResult) :=
  analyses <- analysisStorage_getAll;
  retS (slice0 (default 5 limit) (sort_by a_timestamp analyses)).

(** *** [preferencesStorage] *)

(** The default value of [preferencesStorage.get] *)
Definition default_preferences : UserPreferences :=
  mkPreferences system true (10 * 1024 * 1024) 100.

(** [preferencesStorage.get] *)
Definition preferencesStorage_get : MS UserPreferences :=
  localStorage_get_item ls_preferences default_preferences.

(** [preferencesStorage.update]: [{ ...current, ...updates }] is stored. *)
Definition preferencesStorage_update (updates : PreferenceUpdates) : MS bool :=
  current <- preferencesStorage_get;
  let updated :=
    mkPreferences (default (theme current) (pu_theme updates))
      (default (autoAnalyze current) (pu_autoAnalyze updates))
      (default (maxFileSize current) (pu_maxFileSize updates))
      (default (maxHistoryItems current) (pu_maxHistoryItems updates)) in
  localStorage_set_item set_ls_preferences updated.

(** [preferencesStorage.reset] *)
Definition preferencesStorage_reset : MS bool :=
  localStorage_remove_item set_ls_preferences.

(** *** [favoritesStorage] *)

(** [favoritesStorage.getAll] *)
Definition favoritesStorage_getAll : MS (list string) :=
  localStorage_get_item ls_favorites [].



(** [favoritesStorage.isFavorite] *)
Definition favoritesStorage_isFavorite (promptId : string) : MS bool :=
  favorites <- favoritesStorage_getAll;
  retS (bool_decide (promptId ∈ favorites)).

(** [favoritesStorage.getFavoritePrompts] *)
Definition favoritesStorage_getFavoritePrompts : MS (list PromptData) :=
  favorites <- favoritesStorage_getAll;
  prompts <- promptStorage_getAll;
  retS (filter (fun p => p_id p ∈ favorites) prompts).

(** *** [storageManager] *)

(** [storageManager.cleanup(olderThanDays)]; without argument
    [olderThanDays] is 30. *)
Definition storageManager_cleanup (olderThanDays : option Z) : MS Z :=
  now <- lift Date_now;
  let cutoff := now - default 30 olderThanDays * 24 * 60 * 60 * 1000 in
  let removedCount := 0 in
  prompts <- promptStorage_getAll;
  let recentPrompts := filter (fun p => cutoff < p_timestamp p) prompts in
  removedCount <-
    (if bool_decide (length recentPrompts ≠ length prompts) then
       localStorage_set_item set_ls_prompts recentPrompts;;
       retS (removedCount + (Z.of_nat (length prompts) - Z.of_nat (length recentPrompts)))
     else retS removedCount);
  analyses <- analysisStorage_getAll;
  let recentAnalyses := filter (fun a => cutoff < a_timestamp a) analyses in
  removedCount <-
    (if bool_decide (length recentAnalyses ≠ length analyses) then
       localStorage_set_item set_ls_analyses recentAnalyses;;
       retS (removedCount + (Z.of_nat (length analyses) - Z.of_nat (length recentAnalyses)))
     else retS removedCount);
  retS removedCount.

Close Scope shelf_scope.

(** The shelf of a state, and what a function returns and leaves. *)
Definition shelf (ws : World * Shelf) : Shelf := ws.2.

(** A shelf with nothing stored. *)
Definition empty_shelf : Shelf := mkShelf None None None None None.

(** The state after a call of [setItem] or [removeItem] that leaves [o] under
    a key when it does not throw. *)
Definition put {T} (set_item : option T -> Shelf -> Shelf) (o : option T)
    (ws : World * Shelf) : World * Shelf :=
  (written ws.1, if ls_throws ws.1 (ls_writes ws.1) then ws.2 else set_item o ws.2).

(** The medium accepts every write. *)
Definition accepting (w : World) : Prop := forall n, ls_throws w n = false.

(** The prompts and the recent list, as the getters see them. *)
Definition prompts_of (s : Shelf) : list PromptData := default [] (ls_prompts s).

Definition recent_of (s : Shelf) : list PromptData := default [] (ls_recent s).

Definition favorites_of (s : Shelf) : list string := default [] (ls_favorites s).

Definition analyses_of (s : Shelf) : list AnalysisResult := default [] (ls_analyses s).

(** The list of recent prompts is short, names no prompt twice and holds
    stored prompts only. *)
Definition recent_ok (s : Shelf) : Prop :=
  (length (recent_of s) <= 10)%nat ∧
  NoDup (p_id <$> recent_of s) ∧
  recent_of s ⊆ prompts_of s.

(** Calls of [promptStorage.save] and [promptStorage.delete] as steps. *)
Inductive PromptAction :=
  | Save (prompt : PromptInput)
  | Delete (id : string).

Definition perform_prompt (a : PromptAction) (ws : World * Shelf) : World * Shelf :=
  match a with
  | Save prompt => (promptStorage_save prompt ws).2
  | Delete id => (promptStorage_delete id ws).2
  end.

Definition run_prompts (actions : list PromptAction) (ws : World * Shelf) : World * Shelf :=
  foldl (fun ws a => perform_prompt a ws) ws actions.

(** ** The remote service: [supabasePromptService.getAllGroups] *)

(** What a [select] answers: an error, or data, which may be [null]. *)
Inductive Answer (A : Type) :=
  | DbError
  | DbData (rows : option (list A)).

Global Arguments DbError {A}.
Global Arguments DbData {A} rows.

(** The names of the properties that every object inherits from
    [Object.prototype]. Under such a name the object [{}] of the [reduce]
    answers with a function (with [Object.prototype] itself under
    [__proto__]): a value that is truthy and is no array. *)
Definition Object_prototype_keys : list string :=
  ["constructor"; "__proto__"; "hasOwnProperty"; "isPrototypeOf";
   "propertyIsEnumerable"; "toLocaleString"; "toString"; "valueOf";
   "__defineGetter__"; "__defineSetter__"; "__lookupGetter__"; "__lookupSetter__"].

Definition inherited (key : string) : Prop := key ∈ Object_prototype_keys.

Global Instance inherited_dec key : Decision (inherited key).
Proof. unfold inherited. apply _. Defined.

(** The callback of the [reduce] of [getAllGroups]: the object [acc] maps a
    group identifier to the rows of that group met so far; the map holds the
    own properties of [acc], and [None] is a callback that has thrown. For a
    [group_id] that is an inherited name, [acc[group_id]] is truthy and has no
    [push]: the call throws. *)
Definition versionsByGroup_step (acc : option (gmap string (list SupabasePromptVersion)))
    (version : SupabasePromptVersion) : option (gmap string (list SupabasePromptVersion)) :=
  acc ≫= fun acc : gmap string (list SupabasePromptVersion) =>
  if decide (inherited (sv_group_id version)) then None
  else
    let acc :=
      if acc !! sv_group_id version is None
      then <[sv_group_id version := []]> acc else acc in
    Some (alter (fun rows => rows ++ [version]) (sv_group_id version) acc).

(** [versionsByGroup]: the [reduce] over the version rows, from [{}]. *)
Definition versionsByGroup (versions : list SupabasePromptVersion)
    : option (gmap string (list SupabasePromptVersion)) :=
  foldl versionsByGroup_step (Some ∅) versions.

(** [supabasePromptService.getAllGroups], given what the two [select] answer;
    [None] is a rejected promise: an error of a [select], or an exception,
    which the [catch] throws again. For a group whose [id] is an inherited
    name, [versionsByGroup[group.id]] is truthy and has no [map]:
    [convertGroupToLocal] throws. *)
Definition supabase_getAllGroups (groups : Answer SupabasePromptGroup)
    (versions : Answer SupabasePromptVersion) : option (list PromptGroup) :=
  match groups with
  | DbError => None
  | DbData None => Some []
  | DbData (Some groups) =>
      match versions with
      | DbError => None
      | DbData versions =>
          versionsByGroup ← versionsByGroup (default [] versions);
          mapM (fun group =>
                  if decide (inherited (sg_id group)) then None
                  else Some (convertGroupToLocal group
                               (default [] (versionsByGroup !! sg_id group))))
               groups
      end
  end.

(** How the promise of [getAllGroups] settles. *)
Definition pulled (answer : option (list PromptGroup)) : Settled :=
  match answer with
  | Some groups => Groups groups
  | None => Rejected
  end.

(** ** Searching *)

(** [s.includes(sub)] *)
Definition includes (s sub : string) : bool :=
  if String.index 0 sub s is Some _ then true else false.

(** [x?.toLowerCase().includes(q)], which is [undefined] without [x] *)
Definition includes_opt (lower : string -> string) (x : option string) (q : string) : bool :=
  match x with
  | Some s => includes (lower s) q
  | None => false
  end.

(** [String.prototype.toLowerCase] follows the Unicode case mappings, of which
    the model has none: the two search functions take it as a parameter. *)
Section Search.

Variable toLowerCase : string -> string.

(** [versionStorage.searchVersions] *)
Definition searchVersions (query : string) : M (list (PromptGroup * PromptVersion)) :=
  groups <- getAllGroups;
  let lowercaseQuery := toLowerCase query in
  ret (foldl (fun results group =>
                foldl (fun results version =>
                         if includes (toLowerCase (content version)) lowercaseQuery
                            || includes (toLowerCase (v_name version)) lowercaseQuery
                            || includes_opt toLowerCase (v_description version) lowercaseQuery
                            || includes (toLowerCase (g_name group)) lowercaseQuery
                         then results ++ [(group, version)]
                         else results)
                      results (versions group))
             [] groups).

(** [promptStorage.search] *)
Definition promptStorage_search (query : string) : MS (list PromptData) :=
  bindS promptStorage_getAll (fun prompts =>
  let lowercaseQuery := toLowerCase query in
  retS (filter (fun p =>
                  includes_opt toLowerCase (originalPrompt p) lowercaseQuery
                  || includes_opt toLowerCase (improvedPrompt p) lowercaseQuery
                  || includes_opt toLowerCase (p_context p) lowercaseQuery = true)
               prompts)).

End Search.

(** The lower case of the letters A to Z, every other character kept: what
    [toLowerCase] does on ASCII text. *)
Definition ascii_lower (c : Ascii.ascii) : Ascii.ascii :=
  let n := Ascii.nat_of_ascii c in
  if bool_decide (65 <= n <= 90)%nat then Ascii.ascii_of_nat (n + 32) else c.

Fixpoint ascii_toLowerCase (s : string) : string :=
  match s with
  | EmptyString => EmptyString
  | String c s' => String (ascii_lower c) (ascii_toLowerCase s')
  end.

(** * Properties *)

(** ** What the reconciliation calls leave alone *)

Lemma same_local_refl w : same_local w w.
Proof. by repeat split. Qed.

Lemma same_local_trans w1 w2 w3 :
  same_local w1 w2 -> same_local w2 w3 -> same_local w1 w3.
Proof.
  intros (?&?&?&?&?&?&?&?) (?&?&?&?&?&?&?&?). repeat split; congruence.
Qed.

Lemma same_local_stored w w' : same_local w w' -> stored w' = stored w.
Proof. intros (H&_). unfold stored. by rewrite H. Qed.

Lemma issue_same_local c ks w : same_local w (issue c ks w).2.
Proof. by repeat split. Qed.

Lemma retain_same_local gs w : same_local w (retain gs w).2.
Proof. by repeat split. Qed.

Lemma modify_group_same_local arr gi f w : same_local w (modify_group arr gi f w).2.
Proof. by repeat split. Qed.

Lemma forEach_same_local {A} (f : nat -> A -> M unit) :
  (forall i x w, same_local w (f i x w).2) ->
  forall items i w, same_local w (forEach f i items w).2.
Proof.
  intros Hf items. induction items as [|x items IH]; intros i w; simpl.
  - apply same_local_refl.
  - unfold bind. pose proof (Hf i x w) as H1. destruct (f i x w) as [[] w1].
    simpl in H1. eapply same_local_trans; [exact H1 | apply IH].
Qed.

Lemma syncFromSupabase_same_local w : same_local w (syncFromSupabase w).2.
Proof.
  unfold syncFromSupabase, bind, isSupabaseConfigured.
  destruct (supabase_configured w); [apply issue_same_local | apply same_local_refl].
Qed.

Lemma syncToSupabase_same_local groups w : same_local w (syncToSupabase groups w).2.
Proof.
  unfold syncToSupabase, bind, isSupabaseConfigured.
  destruct (supabase_configured w); [| apply same_local_refl].
  pose proof (retain_same_local groups w) as H0.
  destruct (retain groups w) as [arr w0]. simpl in H0.
  eapply same_local_trans; [exact H0 |].
  apply forEach_same_local. clear. intros gi group w.
  destruct (negb (truthy (supabase_id group)) &&
            bool_decide (0 < length (versions group))%nat).
  - destruct (versions group); [apply same_local_refl | apply issue_same_local].
  - destruct (truthy (supabase_id group)); [| apply same_local_refl].
    unfold bind.
    assert (H1 : same_local w
      ((if _syncedVersionIds group is None
        then modify_group arr gi (set_syncedVersionIds (Some (IdSet ∅)))
        else ret tt) w).2).
    { destruct (_syncedVersionIds group);
        [apply same_local_refl | apply modify_group_same_local]. }
    destruct ((if _syncedVersionIds group is None
        then modify_group arr gi (set_syncedVersionIds (Some (IdSet ∅)))
        else ret tt) w) as [[] w1]. simpl in H1.
    eapply same_local_trans; [exact H1 |].
    apply forEach_same_local. intros vi version w2.
    destruct (already_synced _ _); [apply same_local_refl | apply issue_same_local].
Qed.

(** [getAllGroups] returns the stored groups with their sets rebuilt and
    writes nothing. *)
Lemma getAllGroups_spec w :
  (getAllGroups w).1 = map rehydrate (stored w) ∧ same_local w (getAllGroups w).2.
Proof.
  unfold getAllGroups, bind, localStorage_get.
  pose proof (syncFromSupabase_same_local w) as H.
  destruct (syncFromSupabase w) as [[] w1]. simpl in *.
  split; [| exact H]. unfold stored, ret. simpl. by destruct H as (->&_).
Qed.

(** Runs [getAllGroups] in the goal: its result becomes the stored groups
    with their sets rebuilt, and [Hl] says that the world it leaves has the
    same local state. *)
Ltac read_groups w Hl :=
  let Hg := fresh "Hg" in
  let groups := fresh "groups" in
  let w1 := fresh "w" in
  destruct (getAllGroups_spec w) as [Hg Hl];
  destruct (getAllGroups w) as [groups w1];
  simpl in Hg, Hl; subst groups; cbn [fst snd].

(** ** The loop over the groups *)

Lemma setVersionStatus_body_act versionId st group :
  setVersionStatus_body versionId st group
  = loop_body (setVersionStatus_act versionId st) group.
Proof.
  unfold setVersionStatus_body, loop_body, setVersionStatus_act.
  by destruct (findIndex _ _).
Qed.

Lemma deleteVersion_body_act versionId group :
  deleteVersion_body versionId group = loop_body (deleteVersion_act versionId) group.
Proof.
  unfold deleteVersion_body, loop_body, deleteVersion_act.
  destruct (list_find _ _) as [[k v]|]; simpl; [| done].
  by destruct (bool_decide _).
Qed.

Lemma updateVersion_body_act versionId updates group :
  updateVersion_body versionId updates group
  = loop_body (updateVersion_act versionId updates) group.
Proof.
  unfold updateVersion_body, loop_body, updateVersion_act.
  by destruct (findIndex _ _).
Qed.

Lemma for_groups_ext body body' groups :
  (forall g, body g = body' g) -> for_groups body groups = for_groups body' groups.
Proof.
  intros H. induction groups as [|g groups IH]; simpl; [done |].
  by rewrite H, IH.
Qed.

(** The loop reads the clock once, and only when it leaves with [updated]. *)
Lemma for_groups_scan act groups w :
  for_groups (loop_body act) groups w
  = (scan act (clock w (clock_reads w)) groups,
     match scan act (clock w (clock_reads w)) groups with
     | Some (true, _) => (Date_now w).2
     | _ => w
     end).
Proof.
  induction groups as [|g groups IH]; simpl; [done |].
  unfold bind, loop_body at 1. destruct (act g) as [[g'|]|]; simpl; try done.
  unfold ret at 1. rewrite IH.
  destruct (scan act _ groups) as [[[] gs]|]; done.
Qed.

Lemma scan_miss (act : PromptGroup -> option (option PromptGroup)) now groups :
  Forall (fun g => act g = None) groups -> scan act now groups = Some (false, groups).
Proof.
  induction 1 as [|g groups Hg _ IH]; simpl; [done |]. by rewrite Hg, IH.
Qed.

Lemma scan_hit act now groups i g r :
  groups !! i = Some g ->
  (forall j gj, groups !! j = Some gj -> (j < i)%nat -> act gj = None) ->
  act g = Some r ->
  scan act now groups
  = (fun g' => (true, <[i := set_lastModified now g']> groups)) <$> r.
Proof.
  revert i. induction groups as [|g0 groups IH]; intros i Hi Hlt Hact; [done |].
  destruct i as [|i]; simpl in *.
  - injection Hi as ->. rewrite Hact. by destruct r.
  - rewrite (Hlt 0%nat g0) by (done || lia).
    rewrite (IH i Hi); [by destruct r | | done].
    intros j gj Hj Hlt'. apply (Hlt (S j)); [done | lia].
Qed.

(** Either no group makes the body act, or there is a first one. *)
Lemma first_hit (act : PromptGroup -> option (option PromptGroup)) groups :
  Forall (fun g => act g = None) groups ∨
  exists i g r, groups !! i = Some g ∧ act g = Some r ∧
    forall j gj, groups !! j = Some gj -> (j < i)%nat -> act gj = None.
Proof.
  induction groups as [|g groups IH]; [by left |].
  destruct (act g) as [r|] eqn:Hg.
  - right. exists 0%nat, g, r. repeat split; [done |]. intros; lia.
  - destruct IH as [IH | (i & gi & r & Hi & Hr & Hlt)].
    + left. by constructor.
    + right. exists (S i), gi, r. repeat split; [done.. |].
      intros [|j] gj Hj Hlt'; simpl in Hj; [by injection Hj as <- |].
      apply (Hlt j); [done | lia].
Qed.

Lemma setVersionStatus_loop_op versionId st w :
  setVersionStatus versionId st w
  = loop_op (setVersionStatus_act versionId st) syncToSupabase w.
Proof.
  unfold setVersionStatus, loop_op, bind. destruct (getAllGroups w) as [groups w1].
  by rewrite (for_groups_ext _ _ groups (setVersionStatus_body_act versionId st)).
Qed.

Lemma deleteVersion_loop_op versionId w :
  deleteVersion versionId w = loop_op (deleteVersion_act versionId) (fun _ => ret tt) w.
Proof.
  unfold deleteVersion, loop_op, bind. destruct (getAllGroups w) as [groups w1].
  rewrite (for_groups_ext _ _ groups (deleteVersion_body_act versionId)).
  destruct (for_groups _ groups w1) as [[[[] gs]|] w2]; try done.
Qed.

Lemma updateVersion_loop_op versionId updates w :
  updateVersion versionId updates w
  = loop_op (updateVersion_act versionId updates)
      (updateVersion_after versionId updates) w.
Proof.
  unfold updateVersion, loop_op, bind. destruct (getAllGroups w) as [groups w1].
  rewrite (for_groups_ext _ _ groups (updateVersion_body_act versionId updates)).
  destruct (for_groups _ groups w1) as [[[[] gs]|] w2]; try done.
Qed.

Lemma updateVersion_after_same_local versionId updates groups w :
  same_local w (updateVersion_after versionId updates groups w).2.
Proof.
  unfold updateVersion_after, bind, isSupabaseConfigured.
  destruct (_ && _); [apply issue_same_local | apply same_local_refl].
Qed.

(** ** Reading and writing back a group *)

Lemma rehydrate_fields g :
  rehydrate g = set_syncedVersionIds (_syncedVersionIds (rehydrate g)) g.
Proof. unfold rehydrate. destruct g as [? ? ? ? ? ? ? ? ? ? [[s|a]|]]; done. Qed.

Lemma serializable_fields g :
  serializable g = set_syncedVersionIds (_syncedVersionIds (serializable g)) g.
Proof. unfold serializable. destruct g as [? ? ? ? ? ? ? ? ? ? [[s|a]|]]; done. Qed.

Lemma rehydrate_versions g : versions (rehydrate g) = versions g.
Proof. by rewrite rehydrate_fields. Qed.

Lemma serializable_versions g : versions (serializable g) = versions g.
Proof. by rewrite serializable_fields. Qed.

Lemma rehydrate_id g : g_id (rehydrate g) = g_id g.
Proof. by rewrite rehydrate_fields. Qed.

Lemma serializable_id g : g_id (serializable g) = g_id g.
Proof. by rewrite serializable_fields. Qed.

Lemma rehydrate_synced_set g :
  synced_set (_syncedVersionIds (rehydrate g)) = synced_set (_syncedVersionIds g).
Proof.
  unfold rehydrate. destruct (_syncedVersionIds g) as [[s|a]|] eqn:E; simpl; by rewrite ?E.
Qed.

Lemma serializable_synced_set g :
  synced_set (_syncedVersionIds (serializable g)) = synced_set (_syncedVersionIds g).
Proof.
  unfold serializable. destruct (_syncedVersionIds g) as [[s|a]|] eqn:E; simpl; try by rewrite E.
  apply list_to_set_elements_L.
Qed.

Lemma same_group_refl g : same_group g g.
Proof. split; [by destruct g | done]. Qed.

Lemma same_group_trans g1 g2 g3 : same_group g1 g2 -> same_group g2 g3 -> same_group g1 g3.
Proof.
  intros [H1 H1'] [H2 H2']. split; [| congruence].
  rewrite H2 at 1. rewrite H1 at 1. done.
Qed.

Lemma same_group_rehydrate g : same_group g (rehydrate g).
Proof. split; [apply rehydrate_fields | apply rehydrate_synced_set]. Qed.

Lemma same_group_serializable g : same_group g (serializable g).
Proof. split; [apply serializable_fields | apply serializable_synced_set]. Qed.

Lemma same_group_normalize g : same_group g (normalize g).
Proof.
  eapply same_group_trans; [apply same_group_rehydrate | apply same_group_serializable].
Qed.

Lemma same_group_versions g g' : same_group g g' -> versions g' = versions g.
Proof. intros [-> _]. done. Qed.

Lemma normalize_versions g : versions (normalize g) = versions g.
Proof. apply same_group_versions, same_group_normalize. Qed.

Lemma normalize_id g : g_id (normalize g) = g_id g.
Proof. unfold normalize. by rewrite serializable_id, rehydrate_id. Qed.

Lemma contains_rehydrate versionId g : contains versionId (rehydrate g) ↔ contains versionId g.
Proof. unfold contains. by rewrite rehydrate_versions. Qed.

(** ** Finding the version *)

Lemma list_find_contains versionId g :
  list_find (fun v => v_id v = versionId) (versions g) = None ↔ ¬ contains versionId g.
Proof.
  rewrite list_find_None. unfold contains. by rewrite <- Forall_Exists_neg.
Qed.

Lemma setVersionStatus_act_None versionId st g :
  setVersionStatus_act versionId st g = None ↔ ¬ contains versionId g.
Proof.
  rewrite <- list_find_contains. unfold setVersionStatus_act, findIndex.
  by destruct (list_find _ _).
Qed.

Lemma deleteVersion_act_None versionId g :
  deleteVersion_act versionId g = None ↔ ¬ contains versionId g.
Proof.
  rewrite <- list_find_contains. unfold deleteVersion_act.
  by destruct (list_find _ _).
Qed.

Lemma updateVersion_act_None versionId updates g :
  updateVersion_act versionId updates g = None ↔ ¬ contains versionId g.
Proof.
  rewrite <- list_find_contains. unfold updateVersion_act, findIndex.
  by destruct (list_find _ _).
Qed.

(** ** The status transition on the versions of a group *)

Lemma setVersionStatus_mutate_versions versionId st k g :
  versions (setVersionStatus_mutate versionId st k g) = status_versions st k (versions g).
Proof. by destruct st. Qed.

Lemma set_status_same v : set_status (status v) v = v.
Proof. by destruct v. Qed.

Lemma demote_draft v : demote draft v = v.
Proof.
  unfold demote. destruct (decide (status v = draft)) as [E|]; [| done].
  rewrite <- E. apply set_status_same.
Qed.

Lemma demote_status_ne st v : st ≠ draft -> status (demote st v) ≠ st.
Proof. intros Hst. unfold demote. by destruct (decide (status v = st)). Qed.

Lemma demote_status_other st s v :
  s ≠ draft -> s ≠ st -> status (demote st v) = s ↔ status v = s.
Proof.
  intros Hs Hst. unfold demote. destruct (decide (status v = st)) as [E|]; [| done].
  simpl. split; congruence.
Qed.

Lemma alter_imap_demote st k vs v :
  vs !! k = Some v ->
  alter (set_status st) k
    (imap (fun idx u => if decide (idx ≠ k ∧ status u = st) then set_status draft u else u) vs)
  = map (demote st) (take k vs) ++ set_status st v :: map (demote st) (drop (S k) vs).
Proof.
  revert k. induction vs as [|x vs IH]; intros k Hk; [done |].
  destruct k as [|k]; simpl in *.
  - injection Hk as ->. rewrite drop_0.
    destruct (decide (0%nat ≠ 0%nat ∧ status v = st)) as [[? _]|_]; [done |].
    f_equal. rewrite <- (imap_const (demote st)). apply imap_ext. intros i u _. simpl.
    unfold demote. destruct (decide (status u = st)) as [E|E].
    + by rewrite decide_True.
    + rewrite decide_False; [done | tauto].
  - destruct (decide (0%nat ≠ S k ∧ status x = st)) as [[_ E]|E].
    + unfold demote at 1. rewrite decide_True by done. f_equal.
      rewrite <- (IH k Hk). f_equal. apply imap_ext. intros i u _. simpl.
      apply decide_ext. split; intros [? ?]; split; (done || lia).
    + unfold demote at 1. rewrite decide_False by (intros ?; apply E; split; [lia | done]).
      f_equal. rewrite <- (IH k Hk). f_equal. apply imap_ext. intros i u _. simpl.
      apply decide_ext. split; intros [? ?]; split; (done || lia).
Qed.

Lemma alter_take_drop {A} (f : A -> A) (l : list A) k x :
  l !! k = Some x -> alter f k l = take k l ++ f x :: drop (S k) l.
Proof.
  revert k. induction l as [|y l IH]; intros [|k] Hk; simpl in *; try done.
  - injection Hk as ->. by rewrite drop_0.
  - f_equal. by apply IH.
Qed.

(** The transition, version by version: the version at [k] takes the status,
    the others are demoted if they had it. *)
Lemma status_versions_split st k vs v :
  vs !! k = Some v ->
  status_versions st k vs
  = map (demote st) (take k vs) ++ set_status st v :: map (demote st) (drop (S k) vs).
Proof.
  intros Hk. unfold status_versions. destruct st; try by apply alter_imap_demote.
  rewrite (map_ext (demote draft) id) by apply demote_draft.
  rewrite (map_ext (demote draft) id) by apply demote_draft.
  rewrite !map_id. by apply alter_take_drop.
Qed.

Lemma count_versions_app st l1 l2 :
  count_versions st (l1 ++ l2) = (count_versions st l1 + count_versions st l2)%nat.
Proof. unfold count_versions. by rewrite filter_app, length_app. Qed.

Lemma count_versions_cons st v l :
  count_versions st (v :: l)
  = ((if decide (status v = st) then 1 else 0) + count_versions st l)%nat.
Proof.
  unfold count_versions. rewrite filter_cons. by destruct (decide (status v = st)).
Qed.

Lemma count_versions_middle st vs k v :
  vs !! k = Some v ->
  count_versions st vs
  = (count_versions st (take k vs) + ((if decide (status v = st) then 1 else 0)
     + count_versions st (drop (S k) vs)))%nat.
Proof.
  intros Hk. rewrite <- (take_drop_middle vs k v Hk) at 1.
  by rewrite count_versions_app, count_versions_cons.
Qed.

Lemma count_versions_demote_self st l :
  st ≠ draft -> count_versions st (map (demote st) l) = 0%nat.
Proof.
  intros Hst. induction l as [|v l IH]; [done |]. simpl.
  rewrite count_versions_cons, IH, decide_False; [done |]. by apply demote_status_ne.
Qed.

Lemma count_versions_demote_other st s l :
  s ≠ draft -> s ≠ st -> count_versions s (map (demote st) l) = count_versions s l.
Proof.
  intros Hs Hst. induction l as [|v l IH]; [done |]. simpl.
  rewrite !count_versions_cons, IH. f_equal.
  apply decide_ext. by apply demote_status_other.
Qed.

(** After the transition to [current] or [production], one version has it. *)
Lemma count_status_versions_self st k vs v :
  st ≠ draft -> vs !! k = Some v -> count_versions st (status_versions st k vs) = 1%nat.
Proof.
  intros Hst Hk. rewrite (status_versions_split st k vs v Hk).
  rewrite count_versions_app, count_versions_cons, !count_versions_demote_self by done.
  by rewrite decide_True.
Qed.

(** A transition never adds a version to another non-draft status. *)
Lemma count_status_versions_other st s k vs v :
  s ≠ draft -> s ≠ st -> vs !! k = Some v ->
  (count_versions s (status_versions st k vs) <= count_versions s vs)%nat.
Proof.
  intros Hs Hst Hk. rewrite (status_versions_split st k vs v Hk).
  rewrite (count_versions_middle s vs k v Hk).
  rewrite count_versions_app, count_versions_cons, !count_versions_demote_other by done.
  rewrite decide_False by (simpl; congruence). lia.
Qed.

(** ** Loop bodies do not look at [_syncedVersionIds] *)

Lemma set_syncedVersionIds_same g : set_syncedVersionIds (_syncedVersionIds g) g = g.
Proof. by destruct g. Qed.

Lemma same_group_set x g : same_group g (set_syncedVersionIds x g) ↔ synced_set x = synced_set (_syncedVersionIds g).
Proof. unfold same_group. simpl. tauto. Qed.

Lemma same_group_sym g g' : same_group g g' -> same_group g' g.
Proof.
  intros [H1 H2]. split; [| done]. rewrite H1. simpl. by destruct g.
Qed.

(** [F] is a mutation that commutes with an assignment to [_syncedVersionIds]. *)
Lemma same_group_map (F : PromptGroup -> PromptGroup) g g' :
  (forall x h, F (set_syncedVersionIds x h) = set_syncedVersionIds x (F h)) ->
  same_group g g' -> same_group (F g) (F g').
Proof.
  intros HF [H1 H2].
  assert (Hsame : forall h, _syncedVersionIds (F h) = _syncedVersionIds h).
  { intros h. rewrite <- (set_syncedVersionIds_same h) at 1. by rewrite HF. }
  split.
  - rewrite Hsame. rewrite H1 at 1. apply HF.
  - by rewrite !Hsame.
Qed.

Lemma setVersionStatus_mutate_synced versionId st k x h :
  setVersionStatus_mutate versionId st k (set_syncedVersionIds x h)
  = set_syncedVersionIds x (setVersionStatus_mutate versionId st k h).
Proof. by destruct st. Qed.

Lemma deleteVersion_mutate_synced k v x h :
  deleteVersion_mutate k v (set_syncedVersionIds x h)
  = set_syncedVersionIds x (deleteVersion_mutate k v h).
Proof.
  unfold deleteVersion_mutate. simpl.
  destruct (decide (status v = current)), (decide (status v = production)); simpl; try done.
  - by destruct (sort_desc _) as [|[j u] ?].
  - by destruct (sort_desc _) as [|[j u] ?].
Qed.

Lemma setVersionStatus_act_synced versionId st x h :
  setVersionStatus_act versionId st (set_syncedVersionIds x h)
  = fmap (M:=option) (fmap (M:=option) (set_syncedVersionIds x)) (setVersionStatus_act versionId st h).
Proof.
  unfold setVersionStatus_act. simpl. destruct (findIndex _ _); simpl; [| done].
  by rewrite setVersionStatus_mutate_synced.
Qed.

Lemma deleteVersion_act_synced versionId x h :
  deleteVersion_act versionId (set_syncedVersionIds x h)
  = fmap (M:=option) (fmap (M:=option) (set_syncedVersionIds x)) (deleteVersion_act versionId h).
Proof.
  unfold deleteVersion_act. simpl. destruct (list_find _ _) as [[k v]|]; simpl; [| done].
  destruct (bool_decide _); simpl; [done |]. by rewrite deleteVersion_mutate_synced.
Qed.

Lemma updateVersion_act_synced versionId updates x h :
  updateVersion_act versionId updates (set_syncedVersionIds x h)
  = fmap (M:=option) (fmap (M:=option) (set_syncedVersionIds x)) (updateVersion_act versionId updates h).
Proof.
  unfold updateVersion_act. simpl. by destruct (findIndex _ _).
Qed.

(** ** The owner of a version *)

Lemma owner_None versionId groups :
  owner versionId groups = None ↔ Forall (fun g => ¬ contains versionId g) groups.
Proof.
  unfold owner. rewrite <- (list_find_None (contains versionId)).
  destruct (list_find _ _); simpl; split; congruence.
Qed.

Lemma owner_Some versionId groups i :
  owner versionId groups = Some i ↔
  exists g, groups !! i = Some g ∧ contains versionId g ∧
    forall j gj, groups !! j = Some gj -> (j < i)%nat -> ¬ contains versionId gj.
Proof.
  unfold owner. split.
  - destruct (list_find _ _) as [[i' g]|] eqn:E; [| done]. simpl. intros [= ->].
    apply list_find_Some in E. by exists g.
  - intros (g & Hi & Hc & Hlt).
    assert (E : list_find (contains versionId) groups = Some (i, g)) by by apply list_find_Some.
    by rewrite E.
Qed.

(** With unique identifiers the owner is the group that holds the version. *)
Lemma owner_unique versionId groups i g :
  one_group_per_version groups ->
  groups !! i = Some g ->
  contains versionId g ->
  owner versionId groups = Some i.
Proof.
  intros Huniq Hi Hc. apply owner_Some. exists g. repeat (split; [done |]).
  intros j gj Hj Hji Hcj. specialize (Huniq i j g gj versionId Hi Hj Hc Hcj). lia.
Qed.

Lemma ls_stored w w' : ls_prompt_groups w' = ls_prompt_groups w -> stored w' = stored w.
Proof. unfold stored. by intros ->. Qed.

(** The stored groups after a write that replaced the group at [i]. *)
Lemma stored_after_write w w' i g' :
  ls_prompt_groups w' = Some (<[i := g']> (map normalize (stored w))) ->
  length (stored w') = length (stored w) ∧
  (forall g, stored w !! i = Some g -> stored w' !! i = Some g') ∧
  (forall j gj, j ≠ i -> stored w !! j = Some gj -> stored w' !! j = Some (normalize gj)).
Proof.
  intros H.
  assert (Hs : stored w' = <[i := g']> (map normalize (stored w))).
  { unfold stored at 1. by rewrite H. }
  rewrite Hs. split; [| split].
  - by rewrite length_insert, length_map.
  - intros g Hg. apply list_lookup_insert_eq. rewrite length_map.
    by apply lookup_lt_Some in Hg.
  - intros j gj Hj Hgj. rewrite list_lookup_insert_ne by done.
    by rewrite list_lookup_fmap, Hgj.
Qed.

(** ** The three loop operations at once *)

Section LoopOperation.

Variable versionId : string.
Variable act : PromptGroup -> option (option PromptGroup).
Variable after : list PromptGroup -> M unit.

(** The body acts on the groups that hold the version, *)
Hypothesis act_None : forall g, act g = None ↔ ¬ contains versionId g.
(** does not look at [_syncedVersionIds], *)
Hypothesis act_synced : forall x h,
  act (set_syncedVersionIds x h)
  = fmap (M:=option) (fmap (M:=option) (set_syncedVersionIds x)) (act h).
(** and what follows the write only talks to the remote service. *)
Hypothesis after_local : forall gs w0, same_local w0 (after gs w0).2.

(** The result of the operation and the store it leaves, from the stored
    groups and the time on the clock. *)
Lemma loop_op_run w :
  match scan act (clock w (clock_reads w)) (map rehydrate (stored w)) with
  | Some (true, gs) =>
      (loop_op act after w).1 = true ∧
      ls_prompt_groups (loop_op act after w).2
      = (if ls_throws w (ls_writes w) then ls_prompt_groups w
         else Some (map serializable gs))
  | _ =>
      (loop_op act after w).1 = false ∧
      ls_prompt_groups (loop_op act after w).2 = ls_prompt_groups w
  end.
Proof.
  unfold loop_op, bind.
  read_groups w Hl.
  rewrite for_groups_scan.
  destruct Hl as (Hls & _ & Hclock & Hreads & _ & _ & Hthrows & Hwrites).
  rewrite Hclock, Hreads.
  destruct (scan act _ _) as [[[] gs]|]; simpl; try done.
  unfold localStorage_set. cbn [Date_now tick snd ls_throws ls_writes].
  rewrite Hthrows, Hwrites.
  destruct (ls_throws w (ls_writes w));
    match goal with
    | |- context [after gs ?w0] =>
        pose proof (after_local gs w0) as H; destruct (after gs w0) as [[] w3]
    end;
    simpl in *; (split; [done |]); by destruct H as (-> & _).
Qed.

(** The two ways the operation can go: no group holds the version, or the
    first group that holds it decides. *)
Lemma loop_op_stored w :
  (Forall (fun g => ¬ contains versionId g) (stored w) ∧
   (loop_op act after w).1 = false ∧
   ls_prompt_groups (loop_op act after w).2 = ls_prompt_groups w)
  ∨
  (exists i g r,
     stored w !! i = Some g ∧ contains versionId g ∧
     (forall j gj, stored w !! j = Some gj -> (j < i)%nat -> ¬ contains versionId gj) ∧
     act g = Some r ∧
     match r with
     | None =>
         (loop_op act after w).1 = false ∧
         ls_prompt_groups (loop_op act after w).2 = ls_prompt_groups w
     | Some g0 =>
         (loop_op act after w).1 = true ∧
         exists g',
           same_group (set_lastModified (clock w (clock_reads w)) g0) g' ∧
           ls_prompt_groups (loop_op act after w).2
           = (if ls_throws w (ls_writes w) then ls_prompt_groups w
              else Some (<[i := g']> (map normalize (stored w))))
     end).
Proof.
  pose proof (loop_op_run w) as Hrun.
  destruct (first_hit act (map rehydrate (stored w)))
    as [Hmiss | (i & g1 & r1 & Hi & Hr & Hlt)].
  - left. rewrite (scan_miss _ _ _ Hmiss) in Hrun. split; [| done].
    rewrite Forall_fmap in Hmiss. eapply Forall_impl; [exact Hmiss |].
    intros g Hg. simpl in Hg. apply act_None in Hg. by rewrite contains_rehydrate in Hg.
  - right. rewrite list_lookup_fmap in Hi.
    destruct (stored w !! i) as [g|] eqn:Hsi; [| done]. injection Hi as <-.
    rewrite (scan_hit act _ _ i (rehydrate g) r1) in Hrun;
      [| by rewrite list_lookup_fmap, Hsi | done | done].
    rewrite rehydrate_fields, act_synced in Hr.
    destruct (act g) as [r|] eqn:Hg; [| done]. simpl in Hr. injection Hr as <-.
    exists i, g, r. split; [done |]. split.
    { apply dec_stable. rewrite <- act_None. congruence. }
    split.
    { intros j gj Hj Hji. rewrite <- contains_rehydrate, <- act_None.
      apply (Hlt j); [| done]. by rewrite list_lookup_fmap, Hj. }
    split; [done |].
    destruct r as [g0|]; simpl in Hrun; [| done].
    destruct Hrun as [Hres Hls]. split; [done |].
    rewrite list_fmap_insert, <- list_fmap_compose in Hls.
    eexists. split; [| exact Hls].
    eapply same_group_trans; [| apply same_group_serializable].
    apply (same_group_map (set_lastModified _)); [done |].
    apply same_group_set. rewrite rehydrate_synced_set.
    pose proof (act_synced (_syncedVersionIds g) g) as Hg0.
    rewrite set_syncedVersionIds_same, Hg in Hg0. simpl in Hg0.
    injection Hg0 as Hg0. by rewrite Hg0.
Qed.

(** The operation on a version that no group holds. *)
Lemma loop_op_no_owner w :
  owner versionId (stored w) = None ->
  (loop_op act after w).1 = false ∧
  ls_prompt_groups (loop_op act after w).2 = ls_prompt_groups w.
Proof.
  intros Hown.
  destruct (loop_op_stored w) as [(_ & H) | (i & g & r & Hi & Hc & _ & _)]; [done |].
  apply owner_None in Hown. rewrite Forall_lookup in Hown. by destruct (Hown i g Hi).
Qed.

(** The operation on a version whose owner is the group [g] at index [i]. *)
Lemma loop_op_owner w i g :
  owner versionId (stored w) = Some i ->
  stored w !! i = Some g ->
  exists r, act g = Some r ∧
    match r with
    | None =>
        (loop_op act after w).1 = false ∧
        ls_prompt_groups (loop_op act after w).2 = ls_prompt_groups w
    | Some g0 =>
        (loop_op act after w).1 = true ∧
        exists g',
          same_group (set_lastModified (clock w (clock_reads w)) g0) g' ∧
          ls_prompt_groups (loop_op act after w).2
          = (if ls_throws w (ls_writes w) then ls_prompt_groups w
             else Some (<[i := g']> (map normalize (stored w))))
    end.
Proof.
  intros Hown Hi.
  apply owner_Some in Hown as (g1 & Hi1 & Hc & Hlt).
  assert (g1 = g) as -> by congruence.
  destruct (loop_op_stored w)
    as [(Hall & _) | (i' & g' & r & Hi' & Hc' & Hlt' & Hr & H)].
  - rewrite Forall_lookup in Hall. by destruct (Hall i g Hi).
  - assert (i' = i).
    { destruct (Nat.lt_trichotomy i' i) as [?|[?|?]]; [| done |].
      - by destruct (Hlt i' g' Hi').
      - by destruct (Hlt' i g Hi). }
    subst i'. assert (g' = g) as -> by congruence. by exists r.
Qed.

(** The groups that do not own the version are left as they were. *)
Lemma loop_op_frame w j gj :
  stored w !! j = Some gj ->
  owner versionId (stored w) ≠ Some j ->
  length (stored (loop_op act after w).2) = length (stored w) ∧
  exists gj', stored (loop_op act after w).2 !! j = Some gj' ∧ same_group gj gj'.
Proof.
  intros Hj Hown.
  assert (Hsame : ls_prompt_groups (loop_op act after w).2 = ls_prompt_groups w ->
    length (stored (loop_op act after w).2) = length (stored w) ∧
    exists gj', stored (loop_op act after w).2 !! j = Some gj' ∧ same_group gj gj').
  { intros H%ls_stored. rewrite H. split; [reflexivity |]. exists gj.
    split; [exact Hj | apply same_group_refl]. }
  destruct (owner versionId (stored w)) as [i|] eqn:Hi.
  - assert (Hg : exists g, stored w !! i = Some g).
    { apply owner_Some in Hi as (g & ? & _). by exists g. }
    destruct Hg as [g Hg].
    destruct (loop_op_owner w i g Hi Hg) as (r & _ & H).
    destruct r as [g0|]; [| apply Hsame, H].
    destruct H as (_ & g' & _ & Hls).
    destruct (ls_throws w (ls_writes w)); [by apply Hsame |].
    apply stored_after_write in Hls as (Hlen & _ & Hother). split; [done |].
    exists (normalize gj). split; [| apply same_group_normalize].
    apply Hother; [congruence | done].
  - apply Hsame. by apply loop_op_no_owner.
Qed.

End LoopOperation.

(** ** Frame of the operations on one version *)

Lemma setVersionStatus_frame versionId st w j gj :
  stored w !! j = Some gj ->
  owner versionId (stored w) ≠ Some j ->
  length (stored (setVersionStatus versionId st w).2) = length (stored w) ∧
  exists gj', stored (setVersionStatus versionId st w).2 !! j = Some gj' ∧ same_group gj gj'.
Proof.
  intros Hj Hown. rewrite setVersionStatus_loop_op.
  exact (loop_op_frame versionId _ _
           (setVersionStatus_act_None versionId st)
           (setVersionStatus_act_synced versionId st)
           syncToSupabase_same_local w j gj Hj Hown).
Qed.

Lemma deleteVersion_frame versionId w j gj :
  stored w !! j = Some gj ->
  owner versionId (stored w) ≠ Some j ->
  length (stored (deleteVersion versionId w).2) = length (stored w) ∧
  exists gj', stored (deleteVersion versionId w).2 !! j = Some gj' ∧ same_group gj gj'.
Proof.
  intros Hj Hown. rewrite deleteVersion_loop_op.
  exact (loop_op_frame versionId _ (fun _ => ret tt)
           (deleteVersion_act_None versionId)
           (deleteVersion_act_synced versionId)
           (fun _ w0 => same_local_refl w0) w j gj Hj Hown).
Qed.

Lemma updateVersion_frame versionId updates w j gj :
  stored w !! j = Some gj ->
  owner versionId (stored w) ≠ Some j ->
  length (stored (updateVersion versionId updates w).2) = length (stored w) ∧
  exists gj', stored (updateVersion versionId updates w).2 !! j = Some gj' ∧ same_group gj gj'.
Proof.
  intros Hj Hown. rewrite updateVersion_loop_op.
  exact (loop_op_frame versionId _ _
           (updateVersion_act_None versionId updates)
           (updateVersion_act_synced versionId updates)
           (updateVersion_after_same_local versionId updates) w j gj Hj Hown).
Qed.

(** C10. [setVersionStatus], [deleteVersion] and [updateVersion] act on one
    group at most, the first group in stored order that holds a version with
    the given identifier: every group at another position is still there
    afterwards with every field equal (versions and their statuses, the two
    pointers, [lastModified], ...) and the same members in its set of synced
    versions, and no group is added or removed. A later group that holds a
    version with the same identifier is such another position. *)
Theorem per_version_operations_frame (op : M bool) versionId st updates w j gj :
  op = setVersionStatus versionId st ∨
  op = deleteVersion versionId ∨
  op = updateVersion versionId updates ->
  stored w !! j = Some gj ->
  owner versionId (stored w) ≠ Some j ->
  length (stored (op w).2) = length (stored w) ∧
  exists gj', stored (op w).2 !! j = Some gj' ∧ same_group gj gj'.
Proof.
  intros [-> | [-> | ->]] Hj Hown.
  - by apply setVersionStatus_frame.
  - by apply deleteVersion_frame.
  - by apply updateVersion_frame.
Qed.

Lemma per_version_operations_frame_witness :
  length (stored (deleteVersion "a2" world0).2) = length (stored world0) ∧
  exists gj', stored (deleteVersion "a2" world0).2 !! 1%nat = Some gj' ∧
    same_group group_H gj'.
Proof.
  apply (per_version_operations_frame (deleteVersion "a2") "a2" draft
           (mkVersionUpdates None None) world0 1%nat).
  - right; left; reflexivity.
  - reflexivity.
  - vm_compute. discriminate.
Defined.

(** ** Identifiers that resolve to nothing *)

Lemma list_find_group_rehydrate groupId groups :
  list_find (fun g => g_id g = groupId) (map rehydrate groups)
  = prod_map id rehydrate <$> list_find (fun g => g_id g = groupId) groups.
Proof.
  change (map rehydrate groups) with (rehydrate <$> groups).
  rewrite list_find_fmap. f_equal. apply list_find_ext. intros g. simpl.
  by rewrite rehydrate_id.
Qed.

Lemma list_find_group_None groupId groups :
  Forall (fun g => g_id g ≠ groupId) groups ->
  list_find (fun g => g_id g = groupId) (map rehydrate groups) = None.
Proof.
  intros H. rewrite list_find_group_rehydrate.
  apply (list_find_None (fun g => g_id g = groupId)) in H. by rewrite H.
Qed.

Lemma addVersion_not_found groupId text options w :
  Forall (fun g => g_id g ≠ groupId) (stored w) ->
  (addVersion groupId text options w).1 = None ∧
  ls_prompt_groups (addVersion groupId text options w).2 = ls_prompt_groups w.
Proof.
  intros H. unfold addVersion, bind.
  read_groups w Hl.
  rewrite (list_find_group_None _ _ H). simpl. split; [done | apply Hl].
Qed.

Lemma updateGroup_not_found groupId updates w :
  Forall (fun g => g_id g ≠ groupId) (stored w) ->
  (updateGroup groupId updates w).1 = false ∧
  ls_prompt_groups (updateGroup groupId updates w).2 = ls_prompt_groups w.
Proof.
  intros H. unfold updateGroup, bind.
  read_groups w Hl.
  rewrite (list_find_group_None _ _ H). simpl. split; [done | apply Hl].
Qed.

Lemma getGroupById_not_found groupId w :
  Forall (fun g => g_id g ≠ groupId) (stored w) ->
  (getGroupById groupId w).1 = None ∧
  ls_prompt_groups (getGroupById groupId w).2 = ls_prompt_groups w.
Proof.
  intros H. unfold getGroupById, bind, find.
  read_groups w Hl.
  rewrite (list_find_group_None _ _ H). simpl. split; [done | apply Hl].
Qed.

Lemma first_version_None versionId groups :
  Forall (fun g => ¬ contains versionId g) groups ->
  first_version versionId (map rehydrate groups) = None.
Proof.
  induction 1 as [|g groups Hg _ IH]; simpl; [done |].
  rewrite rehydrate_versions. unfold find.
  apply list_find_contains in Hg. by rewrite Hg.
Qed.

Lemma getVersionById_not_found versionId w :
  owner versionId (stored w) = None ->
  (getVersionById versionId w).1 = None ∧
  ls_prompt_groups (getVersionById versionId w).2 = ls_prompt_groups w.
Proof.
  intros H%owner_None. unfold getVersionById, bind.
  read_groups w Hl.
  rewrite (first_version_None _ _ H). split; [done | apply Hl].
Qed.

(** [setVersionStatus] on a version whose owner is the group [g] at [i]. *)
Lemma setVersionStatus_owner versionId st w i g :
  owner versionId (stored w) = Some i ->
  stored w !! i = Some g ->
  exists k v g',
    list_find (fun v => v_id v = versionId) (versions g) = Some (k, v) ∧
    (setVersionStatus versionId st w).1 = true ∧
    same_group
      (set_lastModified (clock w (clock_reads w)) (setVersionStatus_mutate versionId st k g))
      g' ∧
    ls_prompt_groups (setVersionStatus versionId st w).2
    = (if ls_throws w (ls_writes w) then ls_prompt_groups w
       else Some (<[i := g']> (map normalize (stored w)))).
Proof.
  intros Hown Hi. rewrite setVersionStatus_loop_op.
  destruct (loop_op_owner versionId _ syncToSupabase
              (setVersionStatus_act_None versionId st)
              (setVersionStatus_act_synced versionId st)
              syncToSupabase_same_local w i g Hown Hi) as (r & Hr & H).
  unfold setVersionStatus_act, findIndex in Hr.
  destruct (list_find _ (versions g)) as [[k v]|]; [| done].
  simpl in Hr. injection Hr as <-. destruct H as (Hres & g' & Hsame & Hls).
  by exists k, v, g'.
Qed.

(** C8. An identifier that resolves to nothing gives [null] or [false], and
    the store is not written: [addVersion], [updateGroup] and [getGroupById]
    on a group identifier that no stored group has; [setVersionStatus],
    [deleteVersion], [updateVersion] and [getVersionById] on a version
    identifier that no stored group holds. [setVersionStatus] returns [true]
    as soon as some group holds the version. The operations are total
    functions: there is no exceptional outcome. *)
Theorem not_found_is_a_value :
  (forall groupId text options w,
     Forall (fun g => g_id g ≠ groupId) (stored w) ->
     (addVersion groupId text options w).1 = None ∧
     ls_prompt_groups (addVersion groupId text options w).2 = ls_prompt_groups w) ∧
  (forall versionId st w,
     owner versionId (stored w) = None ->
     (setVersionStatus versionId st w).1 = false ∧
     ls_prompt_groups (setVersionStatus versionId st w).2 = ls_prompt_groups w) ∧
  (forall versionId st w,
     owner versionId (stored w) ≠ None -> (setVersionStatus versionId st w).1 = true) ∧
  (forall versionId w,
     owner versionId (stored w) = None ->
     (deleteVersion versionId w).1 = false ∧
     ls_prompt_groups (deleteVersion versionId w).2 = ls_prompt_groups w) ∧
  (forall groupId updates w,
     Forall (fun g => g_id g ≠ groupId) (stored w) ->
     (updateGroup groupId updates w).1 = false ∧
     ls_prompt_groups (updateGroup groupId updates w).2 = ls_prompt_groups w) ∧
  (forall versionId updates w,
     owner versionId (stored w) = None ->
     (updateVersion versionId updates w).1 = false ∧
     ls_prompt_groups (updateVersion versionId updates w).2 = ls_prompt_groups w) ∧
  (forall groupId w,
     Forall (fun g => g_id g ≠ groupId) (stored w) ->
     (getGroupById groupId w).1 = None ∧
     ls_prompt_groups (getGroupById groupId w).2 = ls_prompt_groups w) ∧
  (forall versionId w,
     owner versionId (stored w) = None ->
     (getVersionById versionId w).1 = None ∧
     ls_prompt_groups (getVersionById versionId w).2 = ls_prompt_groups w).
Proof.
  repeat apply conj.
  - apply addVersion_not_found.
  - intros versionId st w Hown. rewrite setVersionStatus_loop_op.
    by apply (loop_op_no_owner versionId _ syncToSupabase
                (setVersionStatus_act_None versionId st)
                (setVersionStatus_act_synced versionId st)
                syncToSupabase_same_local w).
  - intros versionId st w Hsome.
    destruct (owner versionId (stored w)) as [i|] eqn:Hown; [| done].
    pose proof Hown as Hi. apply owner_Some in Hi as (g & Hi & _).
    by destruct (setVersionStatus_owner versionId st w i g Hown Hi) as (? & ? & ? & _ & ? & _).
  - intros versionId w Hown. rewrite deleteVersion_loop_op.
    by apply (loop_op_no_owner versionId _ (fun _ => ret tt)
                (deleteVersion_act_None versionId)
                (deleteVersion_act_synced versionId)
                (fun _ w0 => same_local_refl w0) w).
  - apply updateGroup_not_found.
  - intros versionId updates w Hown. rewrite updateVersion_loop_op.
    by apply (loop_op_no_owner versionId _ _
                (updateVersion_act_None versionId updates)
                (updateVersion_act_synced versionId updates)
                (updateVersion_after_same_local versionId updates) w).
  - apply getGroupById_not_found.
  - apply getVersionById_not_found.
Qed.

Lemma not_found_is_a_value_witness :
  (setVersionStatus "zz" production world0).1 = false ∧
  ls_prompt_groups (setVersionStatus "zz" production world0).2 = ls_prompt_groups world0.
Proof.
  apply (proj1 (proj2 not_found_is_a_value) "zz" production world0).
  reflexivity.
Defined.

(** ** Deleting a version *)

(** [deleteVersion] on a version whose owner is the group [g] at [i]. *)
Lemma deleteVersion_owner versionId w i g :
  owner versionId (stored w) = Some i ->
  stored w !! i = Some g ->
  exists k v,
    list_find (fun v => v_id v = versionId) (versions g) = Some (k, v) ∧
    if decide (length (versions g) = 1%nat) then
      (deleteVersion versionId w).1 = false ∧
      ls_prompt_groups (deleteVersion versionId w).2 = ls_prompt_groups w
    else
      (deleteVersion versionId w).1 = true ∧
      exists g',
        same_group
          (set_lastModified (clock w (clock_reads w)) (deleteVersion_mutate k v g)) g' ∧
        ls_prompt_groups (deleteVersion versionId w).2
        = (if ls_throws w (ls_writes w) then ls_prompt_groups w
           else Some (<[i := g']> (map normalize (stored w)))).
Proof.
  intros Hown Hi. rewrite deleteVersion_loop_op.
  destruct (loop_op_owner versionId _ (fun _ => ret tt)
              (deleteVersion_act_None versionId)
              (deleteVersion_act_synced versionId)
              (fun _ w0 => same_local_refl w0) w i g Hown Hi) as (r & Hr & H).
  unfold deleteVersion_act in Hr.
  destruct (list_find _ (versions g)) as [[k v]|]; [| done].
  exists k, v. split; [done |]. simpl in Hr.
  destruct (decide (length (versions g) = 1%nat)) as [E|E].
  - rewrite bool_decide_eq_true_2 in Hr by done. by injection Hr as <-.
  - rewrite bool_decide_eq_false_2 in Hr by done. by injection Hr as <-.
Qed.

Lemma length_delete_alter {A} (f : A -> A) k j (l : list A) :
  length (delete k (alter f j l)) = length (delete k l).
Proof.
  by rewrite !delete_take_drop, !length_app, !length_take, !length_drop, length_alter.
Qed.

Lemma deleteVersion_mutate_length k v g :
  length (versions (deleteVersion_mutate k v g))
  = length (delete k (versions g)).
Proof.
  unfold deleteVersion_mutate.
  destruct (decide (status v = current)), (decide (status v = production)); simpl; try done.
  - destruct (sort_desc _) as [|[j u] ?]; simpl; [done |].
    apply length_delete_alter.
  - destruct (sort_desc _) as [|[j u] ?]; simpl; [done |].
    apply length_delete_alter.
Qed.

(** C5. When a group has one version only and owns it (it is the first group
    in stored order that holds a version with this identifier, which is the
    case of every group when version identifiers are unique), [deleteVersion]
    on this version returns [false] and the store is left as it was, so the
    group keeps its version, its pointers and [lastModified]. A group that has
    a version still has one after any [deleteVersion]. *)
Theorem deleteVersion_keeps_last_version :
  (forall w i g v,
     stored w !! i = Some g ->
     versions g = [v] ->
     owner (v_id v) (stored w) = Some i ->
     (deleteVersion (v_id v) w).1 = false ∧
     ls_prompt_groups (deleteVersion (v_id v) w).2 = ls_prompt_groups w) ∧
  (forall w i g v,
     one_group_per_version (stored w) ->
     stored w !! i = Some g ->
     versions g = [v] ->
     (deleteVersion (v_id v) w).1 = false ∧
     ls_prompt_groups (deleteVersion (v_id v) w).2 = ls_prompt_groups w) ∧
  (forall versionId w j g,
     stored w !! j = Some g ->
     versions g ≠ [] ->
     exists g', stored (deleteVersion versionId w).2 !! j = Some g' ∧ versions g' ≠ []).
Proof.
  assert (Hlast : forall w i g v,
     stored w !! i = Some g ->
     versions g = [v] ->
     owner (v_id v) (stored w) = Some i ->
     (deleteVersion (v_id v) w).1 = false ∧
     ls_prompt_groups (deleteVersion (v_id v) w).2 = ls_prompt_groups w).
  { intros w i g v Hi Hv Hown.
    destruct (deleteVersion_owner (v_id v) w i g Hown Hi) as (k & u & _ & H).
    rewrite decide_True in H by by rewrite Hv. done. }
  repeat apply conj; [exact Hlast | |].
  - intros w i g v Huniq Hi Hv. apply (Hlast w i g v Hi Hv).
    apply (owner_unique _ _ i g Huniq Hi). unfold contains. rewrite Hv. by left.
  - intros versionId w j g Hj Hne.
    destruct (decide (owner versionId (stored w) = Some j)) as [Hown|Hown].
    + destruct (deleteVersion_owner versionId w j g Hown Hj) as (k & u & Hk & H).
      destruct (decide (length (versions g) = 1%nat)) as [E|E].
      * destruct H as [_ H%ls_stored]. rewrite H. by exists g.
      * destruct H as (_ & g' & Hsame & Hls).
        destruct (ls_throws w (ls_writes w)).
        { apply ls_stored in Hls. rewrite Hls. by exists g. }
        apply stored_after_write in Hls as (_ & Hat & _).
        exists g'. split; [by apply (Hat g) |].
        apply same_group_versions in Hsame.
        change (versions g' = versions (deleteVersion_mutate k u g)) in Hsame.
        rewrite Hsame. intros Hnil. apply (f_equal length) in Hnil.
        rewrite deleteVersion_mutate_length in Hnil.
        apply list_find_Some in Hk as (Hk & _).
        rewrite length_delete in Hnil by by exists u.
        apply lookup_lt_Some in Hk. simpl in Hnil. lia.
    + destruct (deleteVersion_frame versionId w j g Hj Hown) as (_ & g' & Hg' & Hsame).
      exists g'. split; [done |]. by rewrite (same_group_versions _ _ Hsame).
Qed.

Lemma deleteVersion_keeps_last_version_witness :
  (deleteVersion "b1" world0).1 = false ∧
  ls_prompt_groups (deleteVersion "b1" world0).2 = ls_prompt_groups world0.
Proof.
  apply (proj1 deleteVersion_keeps_last_version world0 1%nat group_H
           (sample_version "b1" 1 current)); reflexivity.
Defined.

(** ** Setting a version to draft *)

Lemma alter_insert {A} (f : A -> A) (l : list A) k x :
  l !! k = Some x -> alter f k l = <[k := f x]> l.
Proof.
  intros Hk. rewrite (alter_take_drop f l k x Hk). symmetry. apply insert_take_drop.
  by apply lookup_lt_Some in Hk.
Qed.

(** C9, as stated, fails when the medium refuses the write: the call on the
    current version [a2] of [G] answers [true], and [a2] is still current in
    the store. *)
Lemma setVersionStatus_draft_refused :
  (setVersionStatus "a2" draft full_world).1 = true ∧
  status <$> (stored (setVersionStatus "a2" draft full_world).2 ≫= versions)
  = [draft; current; current].
Proof. by vm_compute. Qed.

(** C9, amended. [setVersionStatus(v.id, 'draft')], where [v] is the version
    found for this identifier in the group [g] that owns it, returns [true].
    When the medium accepts the write, the group stored afterwards is [g] with
    the status of [v] set to [draft] and [lastModified] set to the time of the
    call, nothing else: the other versions are as they were,
    [currentVersionId] and [productionVersionId] are as they were, so a
    pointer that referred to [v] still does; the other groups are not
    changed. When the medium refuses the write, the store is left as it
    was. *)
Theorem setVersionStatus_draft_only_changes_status versionId w i g k v :
  owner versionId (stored w) = Some i ->
  stored w !! i = Some g ->
  list_find (fun u => v_id u = versionId) (versions g) = Some (k, v) ->
  (setVersionStatus versionId draft w).1 = true ∧
  (¬ accepts 0 w ->
   ls_prompt_groups (setVersionStatus versionId draft w).2 = ls_prompt_groups w) ∧
  (accepts 0 w ->
   exists g',
     stored (setVersionStatus versionId draft w).2 !! i = Some g' ∧
     same_group
       (set_lastModified (clock w (clock_reads w))
          (set_versions (<[k := set_status draft v]> (versions g)) g))
       g' ∧
     versions g' !! k = Some (set_status draft v) ∧
     (forall j u, j ≠ k -> versions g !! j = Some u -> versions g' !! j = Some u) ∧
     lastModified g' = clock w (clock_reads w) ∧
     currentVersionId g' = currentVersionId g ∧
     productionVersionId g' = productionVersionId g ∧
     (currentVersionId g = v_id v -> currentVersionId g' = v_id v) ∧
     (productionVersionId g = Some (v_id v) -> productionVersionId g' = Some (v_id v)) ∧
     (g_id g', g_name g', g_description g', tags g', g_timestamp g', supabase_id g')
     = (g_id g, g_name g, g_description g, tags g, g_timestamp g, supabase_id g) ∧
     (forall j gj, j ≠ i -> stored w !! j = Some gj ->
        exists gj', stored (setVersionStatus versionId draft w).2 !! j = Some gj' ∧
          same_group gj gj')).
Proof.
  intros Hown Hi Hfind.
  destruct (setVersionStatus_owner versionId draft w i g Hown Hi)
    as (k' & v' & g' & Hfind' & Hres & Hsame & Hls).
  rewrite Hfind in Hfind'. injection Hfind' as <- <-.
  apply list_find_Some in Hfind as (Hk & Hid & _).
  split; [done |]. unfold accepts. cbn [Nat.add]. split.
  { intros Hno. by destruct (ls_throws w (ls_writes w)). }
  intros Hacc. rewrite Hacc in Hls. exists g'.
  apply stored_after_write in Hls as (_ & Hat & Hother).
  unfold setVersionStatus_mutate in Hsame. rewrite (alter_insert _ _ k v Hk) in Hsame.
  split; [by apply (Hat g) |]. split; [done |].
  destruct Hsame as [Hg' _]. rewrite Hg'. simpl.
  split; [apply list_lookup_insert_eq; by apply lookup_lt_Some in Hk |].
  split; [intros j u Hj Hu; by rewrite list_lookup_insert_ne |].
  repeat split; try done.
  intros j gj Hj Hgj. exists (normalize gj). split; [by apply Hother |].
  apply same_group_normalize.
Qed.

Lemma setVersionStatus_draft_only_changes_status_witness :
  (setVersionStatus "a2" draft world0).1 = true ∧
  exists g',
    stored (setVersionStatus "a2" draft world0).2 !! 0%nat = Some g' ∧
    status <$> versions g' !! 1%nat = Some draft ∧
    currentVersionId g' = "a2".
Proof.
  destruct (setVersionStatus_draft_only_changes_status "a2" world0 0%nat group_G
              1%nat (sample_version "a2" 2 current))
    as (Hres & _ & Hacc); [reflexivity .. |].
  destruct Hacc as (g' & Hg' & _ & Hk & _ & _ & Hcur & _); [reflexivity |].
  split; [exact Hres |]. exists g'. split; [exact Hg' |]. split.
  - rewrite Hk. reflexivity.
  - exact Hcur.
Defined.

(** ** Adding a version *)

Lemma addVersion_mutate_synced nv x h :
  addVersion_mutate nv (set_syncedVersionIds x h)
  = set_syncedVersionIds x (addVersion_mutate nv h).
Proof. unfold addVersion_mutate. by destruct (decide (status nv = current)). Qed.

(** [addVersion] on a group identifier that resolves to [g] at index [i]. *)
Lemma addVersion_found groupId text options w i g :
  list_find (fun g => g_id g = groupId) (stored w) = Some (i, g) ->
  let versionId := decimal (clock w (clock_reads w)) +:+ "_" +:+ random w (random_draws w) in
  let nv :=
    addVersion_newVersion versionId groupId text options
      (plus_one <$> Math_max (map num (versions g)))
      (clock w (S (clock_reads w))) in
  (addVersion groupId text options w).1 = Some nv ∧
  exists g',
    same_group
      (set_lastModified (clock w (S (S (clock_reads w)))) (addVersion_mutate nv g)) g' ∧
    ls_prompt_groups (addVersion groupId text options w).2
    = (if ls_throws w (ls_writes w) then ls_prompt_groups w
       else Some (<[i := g']> (map normalize (stored w)))) ∧
    ls_throws (addVersion groupId text options w).2 = ls_throws w ∧
    ls_writes (addVersion groupId text options w).2 = S (ls_writes w).
Proof.
  intros Hfind versionId nv. unfold addVersion, bind.
  read_groups w Hl.
  rewrite list_find_group_rehydrate, Hfind. simpl.
  destruct Hl as (Hls & Hconf & Hclock & Hreads & Hrandom & Hdraws & Hthrows & Hwrites).
  unfold generateId, bind, Date_now, Math_random36, ret, localStorage_set. simpl.
  rewrite rehydrate_versions, Hclock, Hreads, Hrandom, Hdraws, Hthrows, Hwrites.
  fold versionId. fold nv.
  assert (Hsame : same_group
            (set_lastModified (clock w (S (S (clock_reads w)))) (addVersion_mutate nv g))
            (serializable
               (set_lastModified (clock w (S (S (clock_reads w))))
                  (addVersion_mutate nv (rehydrate g))))).
  { eapply same_group_trans; [| apply same_group_serializable].
    apply (same_group_map (set_lastModified _)); [done |].
    apply (same_group_map (addVersion_mutate nv)); [apply addVersion_mutate_synced |].
    apply same_group_rehydrate. }
  destruct (ls_throws w (ls_writes w));
    match goal with
    | |- context [syncToSupabase ?gs ?w0] =>
        pose proof (syncToSupabase_same_local gs w0) as Hsync;
        destruct (syncToSupabase gs w0) as [[] w3]
    end;
    simpl in *; (split; [done |]);
    destruct Hsync as (-> & _ & _ & _ & _ & _ & -> & ->); simpl;
    rewrite ?Hls, ?Hthrows, ?Hwrites;
    (eexists; split; [exact Hsame |]); [done |].
  split; [| done].
  rewrite list_fmap_insert. unfold normalize. by rewrite <- list_fmap_compose.
Qed.

(** ** One current version, one production version *)

Lemma same_group_id g g' : same_group g g' -> g_id g' = g_id g.
Proof. by intros [-> _]. Qed.

(** What one [setVersionStatus] does to the group at position [j]: its
    versions are as before, or they went through the transition. *)
Lemma setVersionStatus_step versionId st w j g :
  stored w !! j = Some g ->
  exists g',
    stored (setVersionStatus versionId st w).2 !! j = Some g' ∧
    g_id g' = g_id g ∧
    (versions g' = versions g ∨
     exists k v, versions g !! k = Some v ∧
       versions g' = status_versions st k (versions g)).
Proof.
  intros Hj. destruct (decide (owner versionId (stored w) = Some j)) as [Hown|Hown].
  - destruct (setVersionStatus_owner versionId st w j g Hown Hj)
      as (k & v & g' & Hfind & _ & Hsame & Hls).
    destruct (ls_throws w (ls_writes w)).
    { apply ls_stored in Hls. rewrite Hls. exists g. split; [done |]. by split; [| left]. }
    apply stored_after_write in Hls as (_ & Hat & _).
    exists g'. split; [by apply (Hat g) |].
    split; [by rewrite (same_group_id _ _ Hsame); destruct st |].
    right. exists k, v. apply list_find_Some in Hfind as (Hk & _). split; [done |].
    rewrite (same_group_versions _ _ Hsame). simpl.
    apply setVersionStatus_mutate_versions.
  - destruct (setVersionStatus_frame versionId st w j g Hj Hown) as (_ & g' & Hg' & Hsame).
    exists g'. split; [done |]. split; [by apply same_group_id |].
    left. by apply same_group_versions.
Qed.

Lemma setVersionStatus_step_at_most_one versionId st s w j g :
  s ≠ draft ->
  stored w !! j = Some g ->
  (count_status s g <= 1)%nat ->
  exists g',
    stored (setVersionStatus versionId st w).2 !! j = Some g' ∧
    g_id g' = g_id g ∧ (count_status s g' <= 1)%nat.
Proof.
  intros Hs Hj Hcount.
  destruct (setVersionStatus_step versionId st w j g Hj) as (g' & Hg' & Hid & Hvs).
  exists g'. split; [done |]. split; [done |]. unfold count_status in *.
  destruct Hvs as [-> | (k & v & Hk & ->)]; [done |].
  destruct (decide (s = st)) as [<- | Hne].
  - by rewrite (count_status_versions_self s k _ v).
  - pose proof (count_status_versions_other st s k _ v Hs Hne Hk). lia.
Qed.

Lemma setVersionStatus_step_exactly_one versionId w j g :
  stored w !! j = Some g ->
  count_status current g = 1%nat ->
  exists g',
    stored (setVersionStatus versionId current w).2 !! j = Some g' ∧
    g_id g' = g_id g ∧ count_status current g' = 1%nat.
Proof.
  intros Hj Hcount.
  destruct (setVersionStatus_step versionId current w j g Hj) as (g' & Hg' & Hid & Hvs).
  exists g'. split; [done |]. split; [done |]. unfold count_status in *.
  destruct Hvs as [-> | (k & v & Hk & ->)]; [done |].
  by rewrite (count_status_versions_self current k _ v).
Qed.

Lemma setVersionStatus_calls_at_most_one calls : forall w j g,
  stored w !! j = Some g ->
  (count_status current g <= 1)%nat ->
  (count_status production g <= 1)%nat ->
  exists g',
    stored (setVersionStatus_calls calls w) !! j = Some g' ∧
    g_id g' = g_id g ∧
    (count_status current g' <= 1)%nat ∧ (count_status production g' <= 1)%nat.
Proof.
  induction calls as [|[versionId st] calls IH]; intros w j g Hj Hc Hp; simpl.
  - by exists g.
  - destruct (setVersionStatus_step versionId st w j g Hj) as (g1 & Hg1 & Hid1 & _).
    destruct (setVersionStatus_step_at_most_one versionId st current w j g) as (g1' & Hg1' & _ & Hc1);
      [done.. |].
    destruct (setVersionStatus_step_at_most_one versionId st production w j g) as (g1'' & Hg1'' & _ & Hp1);
      [done.. |].
    assert (g1' = g1) as -> by congruence. assert (g1'' = g1) as -> by congruence.
    destruct (IH _ j g1 Hg1 Hc1 Hp1) as (g' & Hg' & Hid & Hc' & Hp').
    exists g'. repeat split; try done. congruence.
Qed.

Lemma setVersionStatus_calls_exactly_one calls : forall w j g,
  Forall (fun c => c.2 = current) calls ->
  stored w !! j = Some g ->
  count_status current g = 1%nat ->
  exists g',
    stored (setVersionStatus_calls calls w) !! j = Some g' ∧
    g_id g' = g_id g ∧ count_status current g' = 1%nat.
Proof.
  induction calls as [|[versionId st] calls IH]; intros w j g Hall Hj Hc; simpl.
  - by exists g.
  - apply Forall_cons in Hall as [Hst Hall]. simpl in Hst. subst st.
    destruct (setVersionStatus_step_exactly_one versionId w j g Hj Hc) as (g1 & Hg1 & Hid1 & Hc1).
    destruct (IH _ j g1 Hall Hg1 Hc1) as (g' & Hg' & Hid & Hc').
    exists g'. repeat split; try done. congruence.
Qed.

(** The transition to [current] or [production] on the group that owns the
    version. *)
Lemma setVersionStatus_transition versionId st w i g k v :
  st ≠ draft ->
  owner versionId (stored w) = Some i ->
  stored w !! i = Some g ->
  list_find (fun u => v_id u = versionId) (versions g) = Some (k, v) ->
  (setVersionStatus versionId st w).1 = true ∧
  (¬ accepts 0 w ->
   ls_prompt_groups (setVersionStatus versionId st w).2 = ls_prompt_groups w) ∧
  (accepts 0 w ->
   exists g',
     stored (setVersionStatus versionId st w).2 !! i = Some g' ∧
     versions g'
     = map (demote st) (take k (versions g)) ++ set_status st v
         :: map (demote st) (drop (S k) (versions g)) ∧
     (st = current ->
        currentVersionId g' = versionId ∧ productionVersionId g' = productionVersionId g) ∧
     (st = production ->
        productionVersionId g' = Some versionId ∧ currentVersionId g' = currentVersionId g) ∧
     count_status st g' = 1%nat).
Proof.
  intros Hst Hown Hi Hfind.
  destruct (setVersionStatus_owner versionId st w i g Hown Hi)
    as (k' & v' & g' & Hfind' & Hres & Hsame & Hls).
  rewrite Hfind in Hfind'. injection Hfind' as <- <-.
  apply list_find_Some in Hfind as (Hk & _).
  split; [done |]. unfold accepts. cbn [Nat.add]. split.
  { intros Hno. by destruct (ls_throws w (ls_writes w)). }
  intros Hacc. rewrite Hacc in Hls. exists g'.
  apply stored_after_write in Hls as (_ & Hat & _).
  split; [by apply (Hat g) |].
  assert (Hvs : versions g' = status_versions st k (versions g)).
  { rewrite (same_group_versions _ _ Hsame). simpl. apply setVersionStatus_mutate_versions. }
  split; [by rewrite Hvs; apply status_versions_split |].
  destruct Hsame as [Hg' _].
  split; [| split].
  - intros ->. by rewrite Hg'.
  - intros ->. by rewrite Hg'.
  - unfold count_status. rewrite Hvs. by apply (count_status_versions_self st k _ v).
Qed.

(** [addVersion] with [status: 'current']. *)
Lemma addVersion_current groupId text options w i g :
  opt_status options = Some current ->
  list_find (fun g => g_id g = groupId) (stored w) = Some (i, g) ->
  exists nv,
    (addVersion groupId text options w).1 = Some nv ∧
    status nv = current ∧
    (¬ accepts 0 w ->
     ls_prompt_groups (addVersion groupId text options w).2 = ls_prompt_groups w) ∧
    (accepts 0 w ->
     exists g',
       stored (addVersion groupId text options w).2 !! i = Some g' ∧
       versions g' = map (demote current) (versions g) ++ [nv] ∧
       currentVersionId g' = v_id nv ∧
       count_status current g' = 1%nat ∧
       count_status production g' = count_status production g).
Proof.
  intros Hopt Hfind.
  destruct (addVersion_found groupId text options w i g Hfind)
    as (Hres & g' & Hsame & Hls & _).
  eexists. split; [exact Hres |].
  assert (Hcur : forall a b c,
            status (addVersion_newVersion a groupId text options b c) = current).
  { intros. unfold addVersion_newVersion. simpl. by rewrite Hopt. }
  split; [apply Hcur |].
  unfold accepts. cbn [Nat.add]. split.
  { intros Hno. by destruct (ls_throws w (ls_writes w)). }
  intros Hacc. rewrite Hacc in Hls. exists g'.
  apply list_find_Some in Hfind as (Hi & _).
  apply stored_after_write in Hls as (_ & Hat & _).
  split; [by apply (Hat g) |].
  destruct Hsame as [Hg' _]. rewrite Hg'. unfold addVersion_mutate.
  rewrite decide_True by apply Hcur. simpl.
  split; [done |]. split; [done |]. unfold count_status. simpl.
  rewrite !count_versions_app, !count_versions_cons.
  rewrite count_versions_demote_self, count_versions_demote_other by done.
  rewrite decide_True by apply Hcur.
  rewrite decide_False; [done |].
  by rewrite Hcur.
Qed.

(** C1, as stated, fails when the medium refuses the write:
    [setVersionStatus("a1", 'current')] answers [true], and in the store [a2]
    is still the current version of [G] and [currentVersionId] still names
    it; likewise [addVersion] with [status: 'current'] returns a current
    version that is not stored, [a2] staying current. *)
Lemma setVersionStatus_current_refused :
  (setVersionStatus "a1" current full_world).1 = true ∧
  (fun g => (currentVersionId g, status <$> versions g))
    <$> stored (setVersionStatus "a1" current full_world).2
  = [("a2", [draft; current]); ("b1", [current])] ∧
  status <$> (addVersion "G" "Be brief." (mkOptions None None (Some current) None None)
                full_world).1 = Some current ∧
  (fun g => (currentVersionId g, status <$> versions g))
    <$> stored (addVersion "G" "Be brief." (mkOptions None None (Some current) None None)
                  full_world).2
  = [("a2", [draft; current]); ("b1", [current])].
Proof. by vm_compute. Qed.

(** C1, amended. Single current, single production.
    - A group that has at most one current and at most one production version
      still has at most one of each after any run of [setVersionStatus] calls
      (whatever versions and statuses they name, whether or not the writes
      are accepted).
    - [setVersionStatus(versionId, st)] with [st] current or production, on the
      group that owns the version, returns [true]. When the medium accepts
      the write: every other version that had status [st] is a draft
      afterwards, the version has status [st], the pointer of [st]
      ([currentVersionId], resp. [productionVersionId]) is [versionId], the
      other pointer is untouched, and exactly one version has status [st].
      When the medium refuses the write the store is left as it was.
    - [addVersion] with [status: 'current'] returns a current version and
      applies the same demotion when the medium accepts the write: the
      versions that were current are drafts, the new version is current and
      [currentVersionId] is its identifier; the store is left as it was when
      the write is refused.
    - A group with exactly one current version has exactly one after any run
      of [setVersionStatus(_, 'current')] calls. *)
Theorem single_current_single_production :
  (forall calls w j g,
     stored w !! j = Some g ->
     (count_status current g <= 1)%nat ->
     (count_status production g <= 1)%nat ->
     exists g',
       stored (setVersionStatus_calls calls w) !! j = Some g' ∧
       g_id g' = g_id g ∧
       (count_status current g' <= 1)%nat ∧ (count_status production g' <= 1)%nat) ∧
  (forall versionId st w i g k v,
     st ≠ draft ->
     owner versionId (stored w) = Some i ->
     stored w !! i = Some g ->
     list_find (fun u => v_id u = versionId) (versions g) = Some (k, v) ->
     (setVersionStatus versionId st w).1 = true ∧
     (¬ accepts 0 w ->
      ls_prompt_groups (setVersionStatus versionId st w).2 = ls_prompt_groups w) ∧
     (accepts 0 w ->
      exists g',
        stored (setVersionStatus versionId st w).2 !! i = Some g' ∧
        versions g'
        = map (demote st) (take k (versions g)) ++ set_status st v
            :: map (demote st) (drop (S k) (versions g)) ∧
        (st = current ->
           currentVersionId g' = versionId ∧
           productionVersionId g' = productionVersionId g) ∧
        (st = production ->
           productionVersionId g' = Some versionId ∧
           currentVersionId g' = currentVersionId g) ∧
        count_status st g' = 1%nat)) ∧
  (forall groupId text options w i g,
     opt_status options = Some current ->
     list_find (fun g => g_id g = groupId) (stored w) = Some (i, g) ->
     exists nv,
       (addVersion groupId text options w).1 = Some nv ∧
       status nv = current ∧
       (¬ accepts 0 w ->
        ls_prompt_groups (addVersion groupId text options w).2 = ls_prompt_groups w) ∧
       (accepts 0 w ->
        exists g',
          stored (addVersion groupId text options w).2 !! i = Some g' ∧
          versions g' = map (demote current) (versions g) ++ [nv] ∧
          currentVersionId g' = v_id nv ∧
          count_status current g' = 1%nat ∧
          count_status production g' = count_status production g)) ∧
  (forall calls w j g,
     Forall (fun c => c.2 = current) calls ->
     stored w !! j = Some g ->
     count_status current g = 1%nat ->
     exists g',
       stored (setVersionStatus_calls calls w) !! j = Some g' ∧
       g_id g' = g_id g ∧ count_status current g' = 1%nat).
Proof.
  repeat apply conj.
  - intros calls. apply setVersionStatus_calls_at_most_one.
  - apply setVersionStatus_transition.
  - apply addVersion_current.
  - intros calls. apply setVersionStatus_calls_exactly_one.
Qed.

Lemma single_current_single_production_witness :
  exists g',
    stored (setVersionStatus_calls
              [("a1", current); ("b1", current); ("a2", current)] world0)
      !! 0%nat = Some g' ∧
    g_id g' = "G" ∧ count_status current g' = 1%nat.
Proof.
  apply (proj2 (proj2 (proj2 single_current_single_production))
           [("a1", current); ("b1", current); ("a2", current)] world0 0%nat group_G).
  - repeat constructor.
  - reflexivity.
  - reflexivity.
Defined.

(** ** Version numbers *)





Lemma num_demote st v : num (demote st v) = num v.
Proof. unfold demote. by destruct (decide (status v = st)). Qed.

Lemma addVersion_mutate_nums nv g :
  map num (versions (addVersion_mutate nv g)) = map num (versions g) ++ [num nv].
Proof.
  unfold addVersion_mutate. destruct (decide (status nv = current)); simpl.
  - rewrite map_app, map_map. simpl. f_equal. apply map_ext, num_demote.
  - by rewrite map_app.
Qed.


(** The group found for an identifier is still the one found after the group
    at its position was replaced by a group with the same identifier. *)
Lemma list_find_group_after_write groupId w w' i g g' :
  list_find (fun g => g_id g = groupId) (stored w) = Some (i, g) ->
  g_id g' = g_id g ->
  ls_prompt_groups w' = Some (<[i := g']> (map normalize (stored w))) ->
  list_find (fun g => g_id g = groupId) (stored w') = Some (i, g').
Proof.
  intros (Hi & Hid & Hlt)%list_find_Some Hid' Hls.
  apply stored_after_write in Hls as (_ & Hat & Hother).
  apply list_find_Some. split; [by apply (Hat g) |]. split; [congruence |].
  intros j y Hj Hji.
  assert (Hgj : exists gj, stored w !! j = Some gj).
  { apply lookup_lt_is_Some. apply lookup_lt_Some in Hi. lia. }
  destruct Hgj as [gj Hgj]. rewrite (Hother j gj) in Hj by (done || lia).
  injection Hj as <-. rewrite normalize_id. by apply (Hlt j).
Qed.






(** ** Creating a group *)

(** The group is created locally: Supabase is not configured, or its
    [createGroup] gave [null]. *)
Lemma createPromptGroup_local name text description db w :
  (supabase_configured w && bool_decide (is_Some (supabase_createGroup name text db))) = false ->
  let groupId := decimal (clock w (clock_reads w)) +:+ "_" +:+ random w (random_draws w) in
  let versionId :=
    decimal (clock w (S (clock_reads w))) +:+ "_" +:+ random w (S (random_draws w)) in
  let firstVersion :=
    mkVersion versionId groupId (Some 1) "v1.0" text
      (Some (or_else description "Initial version")) current None
      (clock w (S (S (clock_reads w)))) (Some manual) in
  let group :=
    mkGroup groupId name description versionId None [firstVersion] None
      (clock w (S (S (S (clock_reads w))))) (clock w (S (S (S (S (clock_reads w))))))
      None None in
  (createPromptGroup name text description db w).1 = group ∧
  ls_prompt_groups (createPromptGroup name text description db w).2
  = (if ls_throws w (ls_writes w) then ls_prompt_groups w
     else Some (map normalize (stored w) ++ [group])) ∧
  ls_throws (createPromptGroup name text description db w).2 = ls_throws w ∧
  ls_writes (createPromptGroup name text description db w).2 = S (ls_writes w).
Proof.
  intros Hlocal groupId versionId firstVersion group.
  unfold createPromptGroup, bind, isSupabaseConfigured.
  assert (Hnone : supabase_configured w = true -> supabase_createGroup name text db = None).
  { intros Hc. rewrite Hc in Hlocal. simpl in Hlocal.
    apply bool_decide_eq_false in Hlocal.
    destruct (supabase_createGroup name text db); [| done]. destruct Hlocal. by eexists. }
  destruct (supabase_configured w) eqn:Hconf; [rewrite Hnone by done |].
  all: unfold issue, generateId, bind, Date_now, Math_random36, ret; simpl.
  all: match goal with
       | |- context [getAllGroups ?w1] =>
           destruct (getAllGroups_spec w1) as [Hg Hl];
           destruct (getAllGroups w1) as [groups w2]
       end.
  all: simpl in Hg, Hl; unfold stored in Hg; simpl in Hg; fold (stored w) in Hg.
  all: subst groups; fold groupId; fold versionId; fold firstVersion; fold group.
  all: destruct Hl as (Hls & _ & _ & _ & _ & _ & Hthrows & Hwrites);
       simpl in Hls, Hthrows, Hwrites.
  all: unfold localStorage_set; rewrite Hthrows, Hwrites.
  all: destruct (ls_throws w (ls_writes w)); cbv beta iota.
  all: match goal with
       | |- context [syncToSupabase ?gs ?w3] =>
           pose proof (syncToSupabase_same_local gs w3) as Hsync;
           destruct (syncToSupabase gs w3) as [[] w4]
       end.
  all: cbn [fst snd] in *; split; [done |];
       destruct Hsync as (-> & _ & _ & _ & _ & _ & -> & ->);
       cbn [written with_store ls_prompt_groups ls_throws ls_writes].
  all: rewrite ?Hthrows, ?Hwrites; (split; [| done]); try done.
  all: rewrite map_app; unfold normalize; by rewrite map_map.
Qed.

(** The group is created by Supabase and put in front of the stored groups. *)
Lemma createPromptGroup_remote name text description db w group :
  supabase_configured w = true ->
  supabase_createGroup name text db = Some group ->
  (createPromptGroup name text description db w).1 = group ∧
  ls_prompt_groups (createPromptGroup name text description db w).2
  = (if ls_throws w (ls_writes w) then ls_prompt_groups w
     else Some (map serializable (group :: stored w))) ∧
  ls_throws (createPromptGroup name text description db w).2 = ls_throws w ∧
  ls_writes (createPromptGroup name text description db w).2 = S (ls_writes w).
Proof.
  intros Hconf Hremote. unfold createPromptGroup, bind, isSupabaseConfigured.
  rewrite Hconf. unfold issue, ret, localStorage_set. simpl. rewrite Hremote. simpl.
  by destruct (ls_throws w (ls_writes w)).
Qed.

Lemma or_else_empty s : or_else (Some s) "" = s.
Proof.
  unfold or_else. destruct (String.eqb s "") eqn:E; [| done].
  by apply String.eqb_eq in E.
Qed.

(** The group that [supabasePromptService.createGroup] returns has one version,
    current and numbered 1, and points to it. *)
Lemma supabase_createGroup_shape name text db group :
  supabase_createGroup name text db = Some group ->
  exists v,
    versions group = [v] ∧ status v = current ∧ version v = Some 1 ∧
    currentVersionId group = v_id v.
Proof.
  unfold supabase_createGroup.
  destruct (group_inserted db) as [[[gid c] u]|]; [| done].
  destruct (version_inserted db) as [[vid vc]|]; [| done].
  intros [= <-]. eexists. repeat split. simpl. apply or_else_empty.
Qed.

Lemma getGroupById_result groupId w :
  (getGroupById groupId w).1
  = find (fun g => g_id g = groupId) (map rehydrate (stored w)).
Proof.
  unfold getGroupById, bind. by read_groups w Hl.
Qed.

(** C2, as stated, fails when the medium refuses the write: the group that
    [createPromptGroup] returns is not in the store, and [getGroupById] on its
    identifier right afterwards gives [null]. *)
Lemma createPromptGroup_refused :
  let r := createPromptGroup "Support Bot" "You are helpful." None (mkDbAnswers None None)
             full_world in
  g_id r.1 = "1700000000001_r0" ∧
  status <$> versions r.1 = [current] ∧
  (getGroupById (g_id r.1) r.2).1 = None.
Proof. by vm_compute. Qed.

(** C2, amended. [createPromptGroup] returns a group whose only version is
    current, numbered 1 and pointed to by [currentVersionId]. The group goes
    to the store with that version in one write. When the medium accepts the
    write, the group is stored and [getGroupById] on its identifier right
    afterwards gives it back (every field equal, the set of synced versions
    empty as before); when the medium refuses it, the store is left as it was,
    with neither the group nor its version, and [getGroupById] finds nothing
    under an identifier that no stored group had. When the group is created
    locally its identifier comes from [generateId] and is taken to differ
    from those of the stored groups. *)
Theorem createPromptGroup_atomic name text description db w :
  (supabase_configured w
   && bool_decide (is_Some (supabase_createGroup name text db)) = false ->
   Forall (fun g =>
             g_id g ≠ decimal (clock w (clock_reads w)) +:+ "_" +:+ random w (random_draws w))
          (stored w)) ->
  let group := (createPromptGroup name text description db w).1 in
  let w' := (createPromptGroup name text description db w).2 in
  exists v,
    versions group = [v] ∧ status v = current ∧ version v = Some 1 ∧
    currentVersionId group = v_id v ∧
    (accepts 0 w ->
     (exists i g', stored w' !! i = Some g' ∧ same_group group g') ∧
     (exists g',
        (getGroupById (g_id group) w').1 = Some g' ∧ same_group group g' ∧
        versions g' = [v] ∧ currentVersionId g' = v_id v)) ∧
    (¬ accepts 0 w ->
     ls_prompt_groups w' = ls_prompt_groups w ∧
     (Forall (fun g => g_id g ≠ g_id group) (stored w) ->
      (getGroupById (g_id group) w').1 = None)).
Proof.
  intros Hfresh group w'.
  assert (Hrefused : ls_prompt_groups w' = ls_prompt_groups w ->
            ls_prompt_groups w' = ls_prompt_groups w ∧
            (Forall (fun g => g_id g ≠ g_id group) (stored w) ->
             (getGroupById (g_id group) w').1 = None)).
  { intros Hls. split; [done |]. intros Hnew.
    apply getGroupById_not_found. by rewrite (ls_stored _ _ Hls). }
  unfold accepts. cbn [Nat.add].
  destruct (supabase_configured w
            && bool_decide (is_Some (supabase_createGroup name text db))) eqn:Hpath.
  - apply andb_true_iff in Hpath as [Hconf Hsome].
    apply bool_decide_eq_true in Hsome as [remote Hremote].
    destruct (createPromptGroup_remote name text description db w remote Hconf Hremote)
      as (Hres & Hls & _).
    destruct (supabase_createGroup_shape _ _ _ _ Hremote) as (v & Hv & Hst & Hn & Hcur).
    subst group w'. rewrite Hres in *. exists v. repeat (split; [done |]).
    split; [| intros Hno; apply Hrefused; by destruct (ls_throws w (ls_writes w))].
    intros Hacc. rewrite Hacc in Hls.
    assert (Hstored : stored (createPromptGroup name text description db w).2
                      = serializable remote :: map serializable (stored w)).
    { unfold stored at 1. by rewrite Hls. }
    split.
    + exists 0%nat, (serializable remote). rewrite Hstored.
      split; [done | apply same_group_serializable].
    + exists (rehydrate (serializable remote)).
      rewrite getGroupById_result, Hstored. simpl.
      unfold find. simpl. rewrite decide_True by by rewrite rehydrate_id, serializable_id.
      assert (Hsame : same_group remote (rehydrate (serializable remote))).
      { eapply same_group_trans; [apply same_group_serializable | apply same_group_rehydrate]. }
      split; [reflexivity |]. split; [exact Hsame |].
      rewrite (same_group_versions _ _ Hsame). split; [done |].
      destruct Hsame as [-> _]. done.
  - destruct (createPromptGroup_local name text description db w Hpath) as (Hres & Hls & _).
    specialize (Hfresh eq_refl).
    subst group w'. rewrite Hres in *. eexists. repeat (split; [done |]).
    split; [| intros Hno; apply Hrefused; by destruct (ls_throws w (ls_writes w))].
    intros Hacc. rewrite Hacc in Hls. clear Hrefused.
    match type of Hres with _ = ?g => set (group := g) in * end.
    assert (Hstored : stored (createPromptGroup name text description db w).2
                      = map normalize (stored w) ++ [group]).
    { unfold stored at 1. by rewrite Hls. }
    split.
    + exists (length (map normalize (stored w))), group. rewrite Hstored.
      split; [| apply same_group_refl].
      by rewrite lookup_app_r, Nat.sub_diag.
    + exists (rehydrate group). rewrite getGroupById_result, Hstored.
      rewrite map_app. unfold find.
      rewrite list_find_app_r.
      * simpl. rewrite decide_True by done. simpl.
        split; [done |]. split; [apply same_group_rehydrate | done].
      * apply list_find_None. rewrite !Forall_fmap.
        eapply Forall_impl; [exact Hfresh |]. intros g Hg. simpl.
        by rewrite rehydrate_id, normalize_id.
Qed.

Lemma createPromptGroup_atomic_witness :
  exists v,
    versions (createPromptGroup "Support Bot" "You are helpful." None
                (mkDbAnswers None None) world0).1 = [v] ∧
    status v = current ∧ version v = Some 1 ∧
    (exists g',
       (getGroupById "1700000000001_r0"
          (createPromptGroup "Support Bot" "You are helpful." None
             (mkDbAnswers None None) world0).2).1 = Some g' ∧
       versions g' = [v] ∧ currentVersionId g' = v_id v).
Proof.
  destruct (createPromptGroup_atomic "Support Bot" "You are helpful." None
              (mkDbAnswers None None) world0)
    as (v & Hv & Hst & Hn & _ & Hacc & _).
  - intros _. repeat constructor; vm_compute; discriminate.
  - destruct Hacc as (_ & g' & Hget & _ & Hv' & Hcur'); [reflexivity |].
    exists v. repeat (split; [assumption |]). exists g'. by split.
Defined.





(** ** Promotion on delete *)

(** The first element of the sorted array is an element of the array with the
    greatest version number. *)
Lemma sort_desc_head l :
  match sort_desc l with
  | [] => l = []
  | y :: _ => y ∈ l ∧ forall z, z ∈ l -> num z.2 <= num y.2
  end.
Proof.
  induction l as [|x l IH]; [done |]. simpl.
  destruct (sort_desc l) as [|y s]; simpl.
  - subst l. split; [by left |]. intros z Hz. apply list_elem_of_singleton in Hz. by subst z.
  - destruct IH as [Hy Hmax]. case_bool_decide as Hle.
    + split; [by left |]. intros z [-> | Hz]%elem_of_cons; [done |].
      specialize (Hmax z Hz). lia.
    + split; [by right |]. intros z [-> | Hz]%elem_of_cons; [lia | by apply Hmax].
Qed.

Lemma elem_of_remaining (vs : list PromptVersion) k j u :
  (j, u) ∈ filter (fun iv : nat * PromptVersion => iv.1 ≠ k) (imap pair vs)
  ↔ vs !! j = Some u ∧ j ≠ k.
Proof.
  rewrite list_elem_of_filter, elem_of_lookup_imap. simpl. split.
  - intros [Hj (j' & u' & [= -> ->] & Hu)]. done.
  - intros [Hu Hj]. split; [done |]. by exists j, u.
Qed.

(** Deleting the current version: the remaining version with the greatest
    number is promoted (the first one in the array if several have it). *)
Lemma deleteVersion_mutate_current k v g :
  status v = current ->
  versions g !! k = Some v ->
  length (versions g) ≠ 1%nat ->
  exists j u,
    versions g !! j = Some u ∧ j ≠ k ∧
    (forall j' u', versions g !! j' = Some u' -> j' ≠ k -> num u' <= num u) ∧
    deleteVersion_mutate k v g
    = set_versions (delete k (<[j := set_status current u]> (versions g)))
        (set_currentVersionId (v_id u) g).
Proof.
  intros Hst Hk Hlen. unfold deleteVersion_mutate.
  destruct (decide (status v = production)) as [E|_]; [congruence |].
  destruct (decide (status v = current)) as [_|E]; [| done].
  pose proof (sort_desc_head
    (filter (fun iv : nat * PromptVersion => iv.1 ≠ k) (imap pair (versions g)))) as Hhead.
  destruct (sort_desc _) as [|[j u] s].
  - exfalso. destruct (versions g) as [|a [|b vs]] eqn:E; [done | done |].
    destruct k as [|k].
    + assert (H : (1%nat, b) ∈ filter (fun iv : nat * PromptVersion => iv.1 ≠ 0%nat)
                    (imap pair (a :: b :: vs))) by by apply elem_of_remaining.
      rewrite Hhead in H. by apply elem_of_nil in H.
    + assert (H : (0%nat, a) ∈ filter (fun iv : nat * PromptVersion => iv.1 ≠ S k)
                    (imap pair (a :: b :: vs))) by by apply elem_of_remaining.
      rewrite Hhead in H. by apply elem_of_nil in H.
  - destruct Hhead as [Hin Hmax]. apply elem_of_remaining in Hin as [Hj Hjk].
    exists j, u. repeat (split; [done |]). split.
    + intros j' u' Hj' Hjk'. apply (Hmax (j', u')). by apply elem_of_remaining.
    + simpl. by rewrite (alter_insert _ _ j u Hj).
Qed.

Lemma deleteVersion_mutate_production k v g :
  status v = production ->
  deleteVersion_mutate k v g
  = set_versions (delete k (versions g)) (set_productionVersionId None g).
Proof.
  intros Hst. unfold deleteVersion_mutate.
  destruct (decide (status v = current)) as [E|_]; [congruence |].
  by destruct (decide (status v = production)).
Qed.

Lemma elem_of_delete_insert {A} (l : list A) k j x :
  j ≠ k -> (j < length l)%nat -> x ∈ delete k (<[j := x]> l).
Proof.
  intros Hjk Hj. apply list_elem_of_lookup.
  destruct (decide (j < k)%nat).
  - exists j. rewrite list_lookup_delete_lt by done. by apply list_lookup_insert_eq.
  - exists (j - 1)%nat. rewrite list_lookup_delete_ge by lia.
    replace (S (j - 1)) with j by lia. by apply list_lookup_insert_eq.
Qed.

Lemma deleteVersion_deleted versionId w i g k v :
  owner versionId (stored w) = Some i ->
  stored w !! i = Some g ->
  list_find (fun u => v_id u = versionId) (versions g) = Some (k, v) ->
  length (versions g) ≠ 1%nat ->
  (deleteVersion versionId w).1 = true ∧
  exists g',
    same_group
      (set_lastModified (clock w (clock_reads w)) (deleteVersion_mutate k v g)) g' ∧
    ls_prompt_groups (deleteVersion versionId w).2
    = (if ls_throws w (ls_writes w) then ls_prompt_groups w
       else Some (<[i := g']> (map normalize (stored w)))).
Proof.
  intros Hown Hi Hfind Hlen.
  destruct (deleteVersion_owner versionId w i g Hown Hi) as (k' & v' & Hfind' & H).
  rewrite Hfind in Hfind'. injection Hfind' as <- <-.
  by rewrite decide_False in H.
Qed.

Lemma getGroupById_found groupId w i g :
  list_find (fun g => g_id g = groupId) (stored w) = Some (i, g) ->
  (getGroupById groupId w).1 = Some (rehydrate g).
Proof.
  intros Hfind. rewrite getGroupById_result. unfold find.
  by rewrite list_find_group_rehydrate, Hfind.
Qed.

(** C3, as stated, fails when the medium refuses the write:
    [deleteVersion("a2")] on the current version of [G] answers [true], and
    [getGroupById] still shows both versions, [a1] a draft and [a2] current. *)
Lemma deleteVersion_refused :
  (deleteVersion "a2" full_world).1 = true ∧
  (fun g => (currentVersionId g, v_id <$> versions g, status <$> versions g))
    <$> (getGroupById "G" (deleteVersion "a2" full_world).2).1
  = Some ("a2", ["a1"; "a2"], [draft; current]).
Proof. by vm_compute. Qed.

(** C3, amended. Promotion on delete, on the group [g] that owns the version
    and has more than one version; [deleteVersion] returns [true], and what
    follows is what the store holds when the medium accepts the write (the
    store is left as it was when the write is refused).
    - The deleted version [v] was current: among the remaining versions, one
      with the greatest version number (the first such in the array) is set
      to current and [currentVersionId] is its identifier.
    - The deleted version was production: [productionVersionId] is cleared,
      the remaining versions are exactly as they were, so none is promoted.
    - The group holds [v1] (draft, number 1) and [v2] (current, number 2):
      after [deleteVersion(v2.id)], [getGroupById] shows [v1] alone, current,
      and [currentVersionId] is [v1.id]. *)
Theorem deleteVersion_promotes_latest :
  (forall versionId w i g k v,
     owner versionId (stored w) = Some i ->
     stored w !! i = Some g ->
     list_find (fun u => v_id u = versionId) (versions g) = Some (k, v) ->
     length (versions g) ≠ 1%nat ->
     status v = current ->
     (deleteVersion versionId w).1 = true ∧
     (¬ accepts 0 w ->
      ls_prompt_groups (deleteVersion versionId w).2 = ls_prompt_groups w) ∧
     (accepts 0 w ->
      exists g' j u,
        stored (deleteVersion versionId w).2 !! i = Some g' ∧
        versions g !! j = Some u ∧ j ≠ k ∧
        (forall j' u', versions g !! j' = Some u' -> j' ≠ k -> num u' <= num u) ∧
        versions g' = delete k (<[j := set_status current u]> (versions g)) ∧
        set_status current u ∈ versions g' ∧
        currentVersionId g' = v_id u)) ∧
  (forall versionId w i g k v,
     owner versionId (stored w) = Some i ->
     stored w !! i = Some g ->
     list_find (fun u => v_id u = versionId) (versions g) = Some (k, v) ->
     length (versions g) ≠ 1%nat ->
     status v = production ->
     (deleteVersion versionId w).1 = true ∧
     (¬ accepts 0 w ->
      ls_prompt_groups (deleteVersion versionId w).2 = ls_prompt_groups w) ∧
     (accepts 0 w ->
      exists g',
        stored (deleteVersion versionId w).2 !! i = Some g' ∧
        versions g' = delete k (versions g) ∧
        productionVersionId g' = None ∧
        currentVersionId g' = currentVersionId g)) ∧
  (forall w i g v1 v2,
     list_find (fun h => g_id h = g_id g) (stored w) = Some (i, g) ->
     owner (v_id v2) (stored w) = Some i ->
     versions g = [v1; v2] ->
     v_id v1 ≠ v_id v2 ->
     status v1 = draft -> version v1 = Some 1 ->
     status v2 = current -> version v2 = Some 2 ->
     accepts 0 w ->
     (deleteVersion (v_id v2) w).1 = true ∧
     exists g',
       (getGroupById (g_id g) (deleteVersion (v_id v2) w).2).1 = Some g' ∧
       versions g' = [set_status current v1] ∧
       currentVersionId g' = v_id v1).
Proof.
  unfold accepts. cbn [Nat.add]. repeat apply conj.
  - intros versionId w i g k v Hown Hi Hfind Hlen Hst.
    destruct (deleteVersion_deleted versionId w i g k v Hown Hi Hfind Hlen)
      as (Hres & g' & [Hg' _] & Hls).
    split; [done |].
    split; [intros Hno; by destruct (ls_throws w (ls_writes w)) |].
    intros Hacc. rewrite Hacc in Hls.
    apply list_find_Some in Hfind as (Hk & _).
    destruct (deleteVersion_mutate_current k v g Hst Hk Hlen) as (j & u & Hj & Hjk & Hmax & Hmut).
    apply stored_after_write in Hls as (_ & Hat & _).
    exists g', j, u. split; [by apply (Hat g) |]. repeat (split; [done |]).
    rewrite Hg', Hmut. simpl. split; [done |]. split; [| done].
    apply elem_of_delete_insert; [done | by apply lookup_lt_Some in Hj].
  - intros versionId w i g k v Hown Hi Hfind Hlen Hst.
    destruct (deleteVersion_deleted versionId w i g k v Hown Hi Hfind Hlen)
      as (Hres & g' & [Hg' _] & Hls).
    split; [done |].
    split; [intros Hno; by destruct (ls_throws w (ls_writes w)) |].
    intros Hacc. rewrite Hacc in Hls.
    apply stored_after_write in Hls as (_ & Hat & _).
    exists g'. split; [by apply (Hat g) |].
    by rewrite Hg', (deleteVersion_mutate_production k v g Hst).
  - intros w i g v1 v2 Hgroup Hown Hvs Hne Hst1 Hn1 Hst2 Hn2 Hacc.
    assert (Hi : stored w !! i = Some g) by by apply list_find_Some in Hgroup as (? & _).
    assert (Hfind : list_find (fun u => v_id u = v_id v2) (versions g) = Some (1%nat, v2)).
    { rewrite Hvs. simpl. rewrite decide_False by done. simpl. by rewrite decide_True. }
    assert (Hlen : length (versions g) ≠ 1%nat) by by rewrite Hvs.
    destruct (deleteVersion_deleted (v_id v2) w i g 1%nat v2 Hown Hi Hfind Hlen)
      as (Hres & g' & Hsame & Hls).
    rewrite Hacc in Hls.
    split; [done |].
    assert (Hk : versions g !! 1%nat = Some v2) by by rewrite Hvs.
    destruct (deleteVersion_mutate_current 1%nat v2 g Hst2 Hk Hlen)
      as (j & u & Hj & Hjk & _ & Hmut).
    assert (j = 0%nat ∧ u = v1) as [-> ->].
    { rewrite Hvs in Hj. destruct j as [|[|j]]; simpl in Hj; [| done | done].
      by injection Hj as <-. }
    rewrite Hmut, Hvs in Hsame. simpl in Hsame.
    exists (rehydrate g'). split.
    + apply (getGroupById_found _ _ i).
      apply (list_find_group_after_write (g_id g) w _ i g g' Hgroup); [| done].
      by rewrite (same_group_id _ _ Hsame).
    + rewrite rehydrate_versions. destruct (same_group_rehydrate g') as [-> _].
      destruct Hsame as [-> _]. done.
Qed.

Lemma deleteVersion_promotes_latest_witness :
  (deleteVersion "a2" world0).1 = true ∧
  exists g',
    (getGroupById "G" (deleteVersion "a2" world0).2).1 = Some g' ∧
    versions g' = [sample_version "a1" 1 current] ∧
    currentVersionId g' = "a1".
Proof.
  apply (proj2 (proj2 deleteVersion_promotes_latest) world0 0%nat group_G
           (sample_version "a1" 1 draft) (sample_version "a2" 2 current));
    (reflexivity || discriminate).
Defined.

(** ** The set of synced versions, saved and loaded *)





(** ** Reconciliation run twice *)

(** The branch for groups that have a [supabase_id], in general. *)

Lemma creates_for_issue v c ks w :
  creates_for v (issue c ks w).2
  = (creates_for v w + (if is_create_for v c then 1 else 0))%nat.
Proof.
  unfold creates_for, issue. simpl. rewrite filter_app, length_app. f_equal.
  rewrite filter_cons. by destruct (is_create_for v c).
Qed.

Lemma creates_for_issue_other v c ks w :
  cause c ≠ Some v -> creates_for v (issue c ks w).2 = creates_for v w.
Proof.
  intros Hc. rewrite creates_for_issue. unfold is_create_for.
  rewrite bool_decide_eq_false_2 by done. simpl. lia.
Qed.

Lemma forEach_creates {A} v (Q : A -> Prop) (f : nat -> A -> M unit) :
  (forall i x w, Q x -> creates_for v (f i x w).2 = creates_for v w) ->
  forall items i w, Forall Q items ->
    creates_for v (forEach f i items w).2 = creates_for v w.
Proof.
  intros Hf items. induction items as [|x items IH]; intros i w Hall; [done |].
  apply Forall_cons in Hall as [Hx Hall]. simpl. unfold bind.
  pose proof (Hf i x w Hx) as H1. destruct (f i x w) as [[] w1]. simpl in H1.
  by rewrite IH.
Qed.

(** A pass makes no create call for a version that is in the set of synced
    versions of the groups that hold it, once these have a [supabase_id]. *)
Lemma syncToSupabase_skips_synced v groups w :
  Forall (fun g => contains v g ->
            truthy (supabase_id g) = true ∧
            already_synced (_syncedVersionIds g) v = true) groups ->
  creates_for v (syncToSupabase groups w).2 = creates_for v w.
Proof.
  intros Hall. unfold syncToSupabase, bind, isSupabaseConfigured.
  destruct (supabase_configured w); [| done].
  unfold retain. cbn [fst snd].
  set (arr := length (arrays w)).
  match goal with
  | |- creates_for v (forEach ?f 0%nat groups ?w0).2 = _ =>
      transitivity (creates_for v w0); [| done];
      apply (forEach_creates v
               (fun g => contains v g ->
                  truthy (supabase_id g) = true ∧
                  already_synced (_syncedVersionIds g) v = true) f);
        [| exact Hall]
  end.
  clearbody arr. clear. intros gi g w Hg.
  destruct (truthy (supabase_id g)) eqn:Hid; simpl.
  - unfold bind.
    set (m := if _syncedVersionIds g is None
              then modify_group arr gi (set_syncedVersionIds (Some (IdSet ∅)))
              else ret tt).
    assert (H1 : creates_for v (m w).2 = creates_for v w).
    { subst m. by destruct (_syncedVersionIds g). }
    destruct (m w) as [[] w1]. simpl in H1. rewrite <- H1.
    apply (forEach_creates v
             (fun u => v_id u = v -> already_synced (_syncedVersionIds g) v = true)).
    + intros vi u w2 Hu.
      destruct (already_synced (_syncedVersionIds g) (v_id u)) eqn:Hs; [done |].
      apply creates_for_issue_other. simpl. intros [= E].
      rewrite E in Hs. by rewrite Hu in Hs.
    + apply Forall_forall. intros u Hu Hv. apply Hg.
      apply Exists_exists. by exists u.
  - destruct (bool_decide (0 < length (versions g))%nat); simpl; [| done].
    destruct (versions g) as [|firstVersion rest] eqn:Hvs; [done |].
    apply creates_for_issue_other. simpl. intros [= E].
    destruct Hg as [Ht _]; [| congruence].
    unfold contains. rewrite Hvs. by left.
Qed.

Lemma push_status_same_local remoteId version w :
  same_local w (push_status remoteId version w).2.
Proof.
  unfold push_status. destruct (status version);
    [apply same_local_refl | apply issue_same_local ..].
Qed.

(** When the remote [addVersion] of that branch succeeds, the version is put
    in the set of its group and the set is stored at once, if the medium
    accepts the write. *)
Lemma settle_marks_synced n arr gi vi result_id w groups g version :
  pending w !! n = Some (AfterAddVersion arr gi vi) ->
  arrays w !! arr = Some groups ->
  groups !! gi = Some g ->
  versions g !! vi = Some version ->
  accepts 0 w ->
  exists g',
    stored (settle n (Ident (Some result_id)) w).2 !! gi = Some g' ∧
    synced_set (_syncedVersionIds g')
    = {[ v_id version ]} ∪ synced_set (_syncedVersionIds g).
Proof.
  intros Hn Harr Hgi Hvi Hacc. unfold settle. rewrite Hn.
  unfold accepts in Hacc. cbn [Nat.add] in Hacc.
  unfold run_continuation, bind, read_array. cbn [fst snd arrays].
  rewrite Harr. change (default [] (Some groups)) with groups.
  rewrite Hgi. cbn [mbind option_bind]. rewrite Hvi.
  unfold modify_group. cbn [fst snd arrays].
  rewrite list_lookup_alter_eq, Harr.
  change (default [] (alter _ gi <$> Some groups)) with
    (alter (fun group => set_syncedVersionIds
                           (mark_synced (v_id version) (_syncedVersionIds group)) group)
           gi groups).
  unfold localStorage_set. cbn [fst snd ls_throws ls_writes]. rewrite Hacc.
  match goal with
  | |- context [push_status ?r ?v ?w0] =>
      pose proof (push_status_same_local r v w0) as Hp;
      destruct (push_status r v w0) as [[] w1]
  end.
  cbn [fst snd] in *. apply same_local_stored in Hp. rewrite Hp.
  unfold stored, with_store, written. cbn [ls_prompt_groups].
  eexists. split.
  - change (default [] (Some ?l)) with l.
    rewrite list_lookup_fmap, list_lookup_alter_eq, Hgi. reflexivity.
  - by rewrite serializable_synced_set.
Qed.

(** On a group that already has a [supabase_id] the tracking works: the
    versions created by the first pass are in the stored set and the second
    pass creates nothing. *)
Example tracked_versions_are_skipped :
  creates_for "a1" pushed_after_first_pass = 1%nat ∧
  creates_for "a2" pushed_after_first_pass = 1%nat ∧
  (synced_set ∘ _syncedVersionIds) <$> stored pushed_after_first_pass
  = [ {[ "a1"; "a2" ]} ] ∧
  creates_for "a1" pushed_after_second_pass = 1%nat ∧
  creates_for "a2" pushed_after_second_pass = 1%nat.
Proof. vm_compute. repeat split. Qed.

(** C6, on the code. A group that has no [supabase_id] yet, with versions
    [a1] and [a2]: the first pass creates the group remotely (with the text
    of [a1]) and then [a2]; both calls succeed, and neither version is put in
    [_syncedVersionIds]: the stored set is empty. The second pass therefore
    creates [a1] and [a2] again: two remote create calls for each, where
    the specification wants exactly one. The same from an empty store: the
    first version of a group made by [createPromptGroup] and pushed in the
    background is created remotely a second time by the pass that follows
    the next [addVersion]. *)
Theorem untracked_versions_are_created_twice :
  creates_for "a2" unsynced_world = 0%nat ∧
  creates_for "a2" after_first_pass = 1%nat ∧
  supabase_id <$> stored after_first_pass = [Some "remote-G"] ∧
  (synced_set ∘ _syncedVersionIds) <$> stored after_first_pass = [∅] ∧
  creates_for "a2" after_second_pass = 2%nat ∧
  creates_for "a1" after_second_pass = 2%nat ∧
  v_id <$> versions created.1 = ["1700000000002_r1"] ∧
  creates_for "1700000000002_r1" created_and_pushed = 1%nat ∧
  supabase_id <$> stored created_and_pushed = [Some "remote-G"] ∧
  (synced_set ∘ _syncedVersionIds) <$> stored created_and_pushed = [∅] ∧
  creates_for "1700000000002_r1" then_added = 2%nat.
Proof. vm_compute. repeat split. Qed.

(** ** Sorting, and the listings that sort *)

Lemma insert_by_perm {A} (key : A -> Z) x l : insert_by key x l ≡ₚ x :: l.
Proof.
  induction l as [|y l IH]; simpl; [done|].
  case_bool_decide; [done|].
  rewrite IH. apply Permutation_swap.
Qed.

Lemma sort_by_perm {A} (key : A -> Z) l : sort_by key l ≡ₚ l.
Proof.
  induction l as [|x l IH]; simpl; [done|].
  unfold sort_by in *. simpl. rewrite insert_by_perm. by rewrite IH.
Qed.

Lemma insert_by_sorted {A} (key : A -> Z) x l :
  StronglySorted (fun a b => key b <= key a) l ->
  StronglySorted (fun a b => key b <= key a) (insert_by key x l).
Proof.
  induction 1 as [|y l Hs IH Hy]; simpl.
  - repeat constructor.
  - case_bool_decide as Hle.
    + constructor; [by constructor|].
      constructor; [done|].
      eapply Forall_impl; [exact Hy|]. simpl. intros z Hz. lia.
    + constructor; [done|].
      rewrite insert_by_perm. constructor; [lia|done].
Qed.

Lemma sort_by_sorted {A} (key : A -> Z) l :
  StronglySorted (fun a b => key b <= key a) (sort_by key l).
Proof.
  induction l as [|x l IH]; [constructor|].
  apply insert_by_sorted, IH.
Qed.

Lemma filter_insert_by {A} (key : A -> Z) (k : Z) x l :
  filter (fun y => key y = k) (insert_by key x l)
  = filter (fun y => key y = k) (x :: l).
Proof.
  induction l as [|y l IH]; simpl; [done|].
  case_bool_decide as Hle; [done|].
  rewrite filter_cons, IH, !filter_cons.
  repeat case_decide; try done; lia.
Qed.

Lemma sort_by_stable {A} (key : A -> Z) (k : Z) l :
  filter (fun y => key y = k) (sort_by key l) = filter (fun y => key y = k) l.
Proof.
  induction l as [|x l IH]; [done|].
  change (sort_by key (x :: l)) with (insert_by key x (sort_by key l)).
  by rewrite filter_insert_by, !filter_cons, IH.
Qed.

Lemma getGroupById_same_local groupId w : same_local w (getGroupById groupId w).2.
Proof.
  unfold getGroupById, bind, ret.
  read_groups w Hl. exact Hl.
Qed.

(** X4. [getVersionsForGroup] never writes the store. For an unknown group
    it gives the empty list; otherwise it gives the versions of the first group
    with that identifier, rearranged so that the version numbers descend,
    versions with equal numbers keeping their stored order. *)
Theorem getVersionsForGroup_sorted groupId w :
  ls_prompt_groups (getVersionsForGroup groupId w).2 = ls_prompt_groups w ∧
  match list_find (fun g => g_id g = groupId) (stored w) with
  | None => (getVersionsForGroup groupId w).1 = []
  | Some (_, g) =>
      let r := (getVersionsForGroup groupId w).1 in
      r ≡ₚ versions g ∧
      StronglySorted (fun a b => num b <= num a) r ∧
      forall n, filter (fun v => num v = n) r = filter (fun v => num v = n) (versions g)
  end.
Proof.
  unfold getVersionsForGroup, bind, ret.
  pose proof (getGroupById_result groupId w) as Hr.
  pose proof (getGroupById_same_local groupId w) as Hl.
  destruct (getGroupById groupId w) as [r w1]. cbn [fst snd] in *.
  split; [apply Hl|].
  subst r. unfold find. rewrite list_find_group_rehydrate.
  destruct (list_find _ (stored w)) as [[i g]|]; cbn; [|done].
  rewrite rehydrate_versions.
  split; [apply sort_by_perm|].
  split; [apply sort_by_sorted|].
  intros n. apply sort_by_stable.
Qed.

(** ** Edits that keep the version history *)

Lemma updateVersion_owner versionId updates w i g :
  owner versionId (stored w) = Some i ->
  stored w !! i = Some g ->
  exists k v g',
    list_find (fun v => v_id v = versionId) (versions g) = Some (k, v) ∧
    (updateVersion versionId updates w).1 = true ∧
    same_group
      (set_lastModified (clock w (clock_reads w))
         (set_versions (<[k := patch_version updates v]> (versions g)) g))
      g' ∧
    ls_prompt_groups (updateVersion versionId updates w).2
    = (if ls_throws w (ls_writes w) then ls_prompt_groups w
       else Some (<[i := g']> (map normalize (stored w)))).
Proof.
  intros Hown Hi. rewrite updateVersion_loop_op.
  destruct (loop_op_owner versionId _ (updateVersion_after versionId updates)
              (updateVersion_act_None versionId updates)
              (updateVersion_act_synced versionId updates)
              (updateVersion_after_same_local versionId updates) w i g Hown Hi)
    as (r & Hr & H).
  unfold updateVersion_act, findIndex in Hr.
  destruct (list_find _ (versions g)) as [[k v]|] eqn:Hfind; [| done].
  simpl in Hr. injection Hr as <-. destruct H as (Hres & g' & Hsame & Hls).
  exists k, v, g'. repeat split; try done.
  - apply list_find_Some in Hfind as (Hk & _).
    rewrite (alter_insert _ _ k v Hk) in Hsame. apply Hsame.
  - apply Hsame.
Qed.

(** X1. [updateVersion] on a version that some group holds returns [true].
    When the medium accepts the write it changes, in the first such group,
    only the name and the description of the first version with that
    identifier (each only if given) and the group's [lastModified]:
    identifier, number, content, status, parent, timestamp and origin of the
    version stay, as do all other versions, so the statuses, numbers,
    identifiers and contents of the group read as before; every other group
    is unchanged. When the medium refuses the write the store is left as it
    was. *)
Theorem updateVersion_only_renames versionId updates w i g k v :
  owner versionId (stored w) = Some i ->
  stored w !! i = Some g ->
  list_find (fun u => v_id u = versionId) (versions g) = Some (k, v) ->
  (updateVersion versionId updates w).1 = true ∧
  (¬ accepts 0 w ->
   ls_prompt_groups (updateVersion versionId updates w).2 = ls_prompt_groups w) ∧
  (accepts 0 w ->
   exists g' v',
     stored (updateVersion versionId updates w).2 !! i = Some g' ∧
     same_group
       (set_lastModified (clock w (clock_reads w)) (set_versions (<[k := v']> (versions g)) g))
       g' ∧
     v_name v' = default (v_name v) (vu_name updates) ∧
     v_description v' = from_option Some (v_description v) (vu_description updates) ∧
     (v_id v', promptId v', version v', content v', status v', parentVersionId v',
      v_timestamp v', createdFrom v')
     = (v_id v, promptId v, version v, content v, status v, parentVersionId v,
        v_timestamp v, createdFrom v) ∧
     status <$> versions g' = status <$> versions g ∧
     version <$> versions g' = version <$> versions g ∧
     v_id <$> versions g' = v_id <$> versions g ∧
     content <$> versions g' = content <$> versions g ∧
     (forall j u, j ≠ k -> versions g !! j = Some u -> versions g' !! j = Some u) ∧
     (forall j gj, j ≠ i -> stored w !! j = Some gj ->
        exists gj', stored (updateVersion versionId updates w).2 !! j = Some gj' ∧
          same_group gj gj')).
Proof.
  intros Hown Hi Hfind.
  destruct (updateVersion_owner versionId updates w i g Hown Hi)
    as (k' & v0 & g' & Hfind' & Hres & Hsame & Hls).
  rewrite Hfind in Hfind'. injection Hfind' as <- <-.
  apply list_find_Some in Hfind as (Hk & Hid & _).
  split; [done |]. unfold accepts. cbn [Nat.add].
  split; [intros Hno; by destruct (ls_throws w (ls_writes w)) |].
  intros Hacc. rewrite Hacc in Hls.
  exists g', (patch_version updates v).
  apply stored_after_write in Hls as (_ & Hat & Hother).
  split; [by apply (Hat g) |]. split; [done |].
  split; [done |]. split; [done |]. split; [done |].
  assert (Hv : versions g' = <[k := patch_version updates v]> (versions g)).
  { destruct Hsame as [-> _]. done. }
  assert (Hmap : forall {B} (f : PromptVersion -> B),
            f (patch_version updates v) = f v ->
            f <$> versions g' = f <$> versions g).
  { intros B f Hf. rewrite Hv, list_fmap_insert, Hf.
    apply list_insert_id. by rewrite list_lookup_fmap, Hk. }
  repeat split; try by apply Hmap.
  - intros j u Hj Hu. by rewrite Hv, list_lookup_insert_ne.
  - intros j gj Hj Hgj. exists (normalize gj). split; [by apply Hother |].
    apply same_group_normalize.
Qed.

Lemma updateGroup_found groupId updates w i g :
  list_find (fun g => g_id g = groupId) (stored w) = Some (i, g) ->
  (updateGroup groupId updates w).1 = true ∧
  exists g',
    same_group
      (mkGroup (g_id g) (default (g_name g) (gu_name updates))
         (from_option Some (g_description g) (gu_description updates))
         (currentVersionId g) (productionVersionId g) (versions g)
         (from_option Some (tags g) (gu_tags updates))
         (g_timestamp g) (clock w (clock_reads w)) (supabase_id g) (_syncedVersionIds g))
      g' ∧
    ls_prompt_groups (updateGroup groupId updates w).2
    = (if ls_throws w (ls_writes w) then ls_prompt_groups w
       else Some (<[i := g']> (map normalize (stored w)))).
Proof.
  intros Hfind. unfold updateGroup, bind.
  read_groups w Hl.
  rewrite list_find_group_rehydrate, Hfind. cbn [fmap option_fmap option_map prod_map fst snd id].
  destruct Hl as (Hls & Hconf & Hclock & Hreads & Hrandom & Hdraws & Hthrows & Hwrites).
  unfold Date_now, isSupabaseConfigured, localStorage_set, ret.
  cbn [fst snd tick ls_throws ls_writes].
  rewrite Hclock, Hreads, Hthrows, Hwrites.
  set (F := fun h : PromptGroup =>
         mkGroup (g_id h) (default (g_name h) (gu_name updates))
           (from_option Some (g_description h) (gu_description updates))
           (currentVersionId h) (productionVersionId h) (versions h)
           (from_option Some (tags h) (gu_tags updates))
           (g_timestamp h) (clock w (clock_reads w)) (supabase_id h) (_syncedVersionIds h)).
  change (mkGroup (g_id (rehydrate g)) _ _ _ _ _ _ _ _ _ _) with (F (rehydrate g)).
  change (mkGroup (g_id g) _ _ _ _ _ _ _ _ _ _) with (F g).
  assert (Hsame : same_group (F g) (serializable (F (rehydrate g)))).
  { eapply same_group_trans; [| apply same_group_serializable].
    apply (same_group_map F); [done | apply same_group_rehydrate]. }
  assert (Hw : forall gs : list PromptGroup,
            gs = map rehydrate (stored w) ->
            map serializable (<[i := F (rehydrate g)]> gs)
            = <[i := serializable (F (rehydrate g))]> (map normalize (stored w))).
  { intros gs ->. rewrite list_fmap_insert. unfold normalize.
    by rewrite <- list_fmap_compose. }
  destruct (ls_throws w (ls_writes w));
    match goal with
    | |- context [if ?c then issue ?a ?b else _] => destruct c
    end; cbn; (split; [done|]); eexists; (split; [exact Hsame|]);
    by rewrite ?Hw.
Qed.

(** X2. [updateGroup] on the identifier of a stored group returns [true], and
    no group is added or removed. When the medium accepts the write it
    changes, in the first such group, only the name, the description and the
    tags (each only if given) and [lastModified]: the versions, both
    pointers, the identifiers and the synced set stay; every other group is
    unchanged. When the medium refuses the write the store is left as it
    was. *)
Theorem updateGroup_only_edits_metadata groupId updates w i g :
  list_find (fun g => g_id g = groupId) (stored w) = Some (i, g) ->
  (updateGroup groupId updates w).1 = true ∧
  length (stored (updateGroup groupId updates w).2) = length (stored w) ∧
  (¬ accepts 0 w ->
   ls_prompt_groups (updateGroup groupId updates w).2 = ls_prompt_groups w) ∧
  (accepts 0 w ->
   exists g',
     stored (updateGroup groupId updates w).2 !! i = Some g' ∧
     g_name g' = default (g_name g) (gu_name updates) ∧
     g_description g' = from_option Some (g_description g) (gu_description updates) ∧
     tags g' = from_option Some (tags g) (gu_tags updates) ∧
     lastModified g' = clock w (clock_reads w) ∧
     (g_id g', versions g', currentVersionId g', productionVersionId g', g_timestamp g',
      supabase_id g', synced_set (_syncedVersionIds g'))
     = (g_id g, versions g, currentVersionId g, productionVersionId g, g_timestamp g,
        supabase_id g, synced_set (_syncedVersionIds g)) ∧
     (forall j gj, j ≠ i -> stored w !! j = Some gj ->
        exists gj', stored (updateGroup groupId updates w).2 !! j = Some gj' ∧
          same_group gj gj')).
Proof.
  intros Hfind.
  destruct (updateGroup_found groupId updates w i g Hfind) as (Hres & g' & Hsame & Hls).
  apply list_find_Some in Hfind as (Hi & _).
  split; [done|]. unfold accepts. cbn [Nat.add].
  destruct (ls_throws w (ls_writes w)).
  { split; [by rewrite (ls_stored _ _ Hls) |]. by split. }
  apply stored_after_write in Hls as (Hlen & Hat & Hother).
  split; [done|]. split; [done |]. intros _. exists g'.
  split; [by apply (Hat g)|].
  destruct Hsame as [Hg' Hset]. rewrite Hg'. cbn. rewrite Hset. cbn.
  repeat split; try done.
  intros j gj Hj Hgj. exists (normalize gj). split; [by apply Hother|].
  apply same_group_normalize.
Qed.

Lemma first_version_owner versionId groups : forall i g,
  groups !! i = Some g ->
  contains versionId g ->
  (forall j gj, groups !! j = Some gj -> (j < i)%nat -> ¬ contains versionId gj) ->
  first_version versionId (map rehydrate groups)
  = find (fun v => v_id v = versionId) (versions g).
Proof.
  induction groups as [|h gs IH]; intros [|i] g Hi Hc Hbefore; simplify_eq/=.
  - rewrite rehydrate_versions.
    destruct (find _ (versions g)) eqn:Hf; [done|].
    unfold find in Hf. apply fmap_None in Hf. by apply list_find_contains in Hf.
  - rewrite rehydrate_versions.
    assert (Hh : ¬ contains versionId h) by (apply (Hbefore 0%nat); [done | lia]).
    apply list_find_contains in Hh. unfold find at 1. rewrite Hh. cbn.
    apply (IH i g Hi Hc). intros j gj Hj Hlt. apply (Hbefore (S j)); [done | lia].
Qed.

(** X3. [getVersionById] never writes the store. It answers with the first
    version carrying the identifier in the first group that holds one, the
    version on which [setVersionStatus], [deleteVersion] and [updateVersion]
    act, and with nothing exactly when no group holds one. *)
Theorem getVersionById_owner versionId w :
  ls_prompt_groups (getVersionById versionId w).2 = ls_prompt_groups w ∧
  match owner versionId (stored w) with
  | None => (getVersionById versionId w).1 = None
  | Some i =>
      exists g k v,
        stored w !! i = Some g ∧
        list_find (fun u => v_id u = versionId) (versions g) = Some (k, v) ∧
        v_id v = versionId ∧
        (getVersionById versionId w).1 = Some v
  end.
Proof.
  destruct (owner versionId (stored w)) as [i|] eqn:Hown.
  - apply owner_Some in Hown as (g & Hi & Hc & Hbefore).
    unfold getVersionById, bind, ret. read_groups w Hl.
    split; [apply Hl|].
    rewrite (first_version_owner versionId (stored w) i g Hi Hc Hbefore).
    unfold find.
    destruct (list_find _ (versions g)) as [[k v]|] eqn:Hf.
    + exists g, k, v. repeat split; try done.
      by apply list_find_Some in Hf as (_ & Hid & _).
    + by apply list_find_contains in Hf.
  - destruct (getVersionById_not_found versionId w Hown) as [Hr Hls]. by split.
Qed.


Lemma updateVersion_only_renames_witness :
  (updateVersion "a2" (mkVersionUpdates (Some "final") None) world0).1 = true ∧
  exists g',
    stored (updateVersion "a2" (mkVersionUpdates (Some "final") None) world0).2 !! 0%nat
    = Some g' ∧
    status <$> versions g' = [draft; current].
Proof.
  destruct (updateVersion_only_renames "a2" (mkVersionUpdates (Some "final") None)
              world0 0%nat group_G 1%nat (sample_version "a2" 2 current))
    as (Hres & _ & Hacc); [reflexivity .. |].
  destruct Hacc as (g' & v' & Hg' & _ & _ & _ & _ & Hst & _); [reflexivity |].
  split; [exact Hres |]. exists g'. split; [exact Hg' | exact Hst].
Defined.

Lemma updateGroup_only_edits_metadata_witness :
  (updateGroup "H" (mkGroupUpdates (Some "Help desk") None None) world0).1 = true ∧
  exists g',
    stored (updateGroup "H" (mkGroupUpdates (Some "Help desk") None None) world0).2
      !! 1%nat = Some g' ∧
    g_name g' = "Help desk".
Proof.
  destruct (updateGroup_only_edits_metadata "H" (mkGroupUpdates (Some "Help desk") None None)
              world0 1%nat group_H)
    as (Hres & _ & _ & Hacc); [reflexivity |].
  destruct Hacc as (g' & Hg' & Hname & _); [reflexivity |].
  split; [exact Hres |]. exists g'. split; [exact Hg' | exact Hname].
Defined.


(** ** The recent versions *)

Lemma allVersions_bind groups :
  allVersions groups = groups ≫= (fun g => pair g <$> versions g).
Proof.
  unfold allVersions.
  assert (Hin : forall (g : PromptGroup) (vs : list PromptVersion) acc,
            foldl (fun acc version => acc ++ [(g, version)]) acc vs
            = acc ++ (pair g <$> vs)).
  { intros g vs. induction vs as [|v vs IH]; intros acc; simpl.
    - by rewrite app_nil_r.
    - rewrite IH. by rewrite <- app_assoc. }
  assert (Hout : forall (gs : list PromptGroup) acc,
            foldl (fun acc group =>
                     foldl (fun acc version => acc ++ [(group, version)]) acc
                       (versions group)) acc gs
            = acc ++ (gs ≫= (fun g => pair g <$> versions g))).
  { induction gs as [|g gs IH]; intros acc; simpl.
    - by rewrite app_nil_r.
    - rewrite IH, Hin. by rewrite <- app_assoc. }
  by rewrite Hout.
Qed.

Lemma elem_of_allVersions g v groups :
  (g, v) ∈ allVersions groups ↔ g ∈ groups ∧ v ∈ versions g.
Proof.
  rewrite allVersions_bind, list_elem_of_bind. split.
  - intros (g' & Hin & Hg'). apply list_elem_of_fmap in Hin as (v' & Heq & Hv').
    by simplify_eq.
  - intros [Hg Hv]. exists g. split; [|done].
    apply list_elem_of_fmap. by exists v.
Qed.

Lemma length_slice0 {A} limit (l : list A) :
  length (slice0 limit l)
  = if bool_decide (limit < 0) then (length l - Z.to_nat (- limit))%nat
    else Nat.min (Z.to_nat limit) (length l).
Proof.
  unfold slice0. case_bool_decide; rewrite length_take; lia.
Qed.

Lemma slice0_prefix {A} limit (l : list A) : exists rest, slice0 limit l ++ rest = l.
Proof.
  unfold slice0. case_bool_decide; eexists; apply take_drop.
Qed.

(** X5. [getRecentVersions] never writes the store. Its result is ordered by
    descending timestamp, pairs each version with the group that holds it, and
    is a leading part of all (group, version) pairs so ordered: what is left
    out is not newer than what is returned. Its length is the smaller of
    [limit] (10 when not given) and the number of versions; a negative
    [limit] drops that many pairs from the end instead. *)
Theorem getRecentVersions_newest limit w :
  let r := (getRecentVersions limit w).1 in
  let every := allVersions (map rehydrate (stored w)) in
  let n := default 10 limit in
  ls_prompt_groups (getRecentVersions limit w).2 = ls_prompt_groups w ∧
  StronglySorted (fun a b => v_timestamp b.2 <= v_timestamp a.2) r ∧
  length r
  = (if bool_decide (n < 0) then (length every - Z.to_nat (- n))%nat
     else Nat.min (Z.to_nat n) (length every)) ∧
  (forall g v, (g, v) ∈ r ->
     exists g0, g0 ∈ stored w ∧ g = rehydrate g0 ∧ v ∈ versions g0) ∧
  exists rest,
    r ++ rest ≡ₚ every ∧
    forall x y, x ∈ r -> y ∈ rest -> v_timestamp y.2 <= v_timestamp x.2.
Proof.
  unfold getRecentVersions, bind, ret.
  read_groups w Hl.
  set (key := fun gv : PromptGroup * PromptVersion => v_timestamp gv.2).
  set (every := allVersions (map rehydrate (stored w))).
  destruct (slice0_prefix (default 10 limit) (sort_by key every)) as [rest Hrest].
  pose proof (sort_by_sorted key every) as Hs. rewrite <- Hrest in Hs.
  split; [apply Hl|].
  split; [by apply StronglySorted_app_1_l in Hs|].
  split; [by rewrite length_slice0, (Permutation_length (sort_by_perm key every))|].
  split.
  - intros g v Hin.
    assert (Hall : (g, v) ∈ every).
    { rewrite <- (sort_by_perm key every), <- Hrest. apply elem_of_app. by left. }
    apply elem_of_allVersions in Hall as [Hg Hv].
    apply list_elem_of_fmap in Hg as (g0 & -> & Hg0).
    exists g0. by rewrite rehydrate_versions in Hv.
  - exists rest. split.
    + by rewrite Hrest, sort_by_perm.
    + intros x y Hx Hy.
      exact (StronglySorted_app_1_elem_of _ _ _ _ _ Hs Hx Hy).
Qed.

Lemma getRecentVersions_newest_witness :
  exists g0, g0 ∈ stored world0 ∧ rehydrate group_G = rehydrate g0 ∧
    sample_version "a2" 2 current ∈ versions g0.
Proof.
  destruct (getRecentVersions_newest (Some 2) world0) as (_ & _ & _ & Hin & _).
  apply Hin. apply list_elem_of_lookup. exists 1%nat. vm_compute. reflexivity.
Defined.

(** ** Deleting a group *)

Lemma filter_map_commute {A B} (f : A -> B) (P : B -> Prop) (Q : A -> Prop)
    `{!forall x, Decision (P x), !forall x, Decision (Q x)} (l : list A) :
  (forall x, P (f x) ↔ Q x) -> filter P (map f l) = map f (filter Q l).
Proof.
  intros HPQ. induction l as [|x l IH]; [done|].
  cbn [map]. rewrite !filter_cons, IH.
  destruct (decide (P (f x))) as [HP|HP], (decide (Q x)) as [HQ|HQ]; try done.
  - by apply HPQ in HP.
  - by apply HPQ in HQ.
Qed.

Lemma length_filter_all {A} (P : A -> Prop) `{!forall x, Decision (P x)} (l : list A) :
  length (filter P l) = length l ↔ Forall P l.
Proof.
  split.
  - intros Hlen. apply Forall_forall. intros x Hx.
    destruct (decide (P x)) as [|Hn]; [done|].
    pose proof (length_filter_lt P l x Hx Hn). lia.
  - induction 1 as [|x l Hx Hl IH]; [done|].
    rewrite filter_cons_True by done. simpl. by rewrite IH.
Qed.

Lemma deleteGroup_stored groupId success w :
  ls_prompt_groups (deleteGroup groupId success w).2
  = (if ls_throws w (ls_writes w) then ls_prompt_groups w
     else Some (map normalize (filter (fun g => g_id g ≠ groupId) (stored w)))) ∧
  (deleteGroup groupId success w).1
  = (supabase_configured w && success)
    || bool_decide (Exists (fun g => g_id g = groupId) (stored w)).
Proof.
  assert (Hf : filter (fun g => g_id g ≠ groupId) (map rehydrate (stored w))
               = map rehydrate (filter (fun g => g_id g ≠ groupId) (stored w))).
  { apply filter_map_commute. intros g. by rewrite rehydrate_id. }
  unfold deleteGroup, bind, ret, isSupabaseConfigured, localStorage_set.
  destruct (supabase_configured w && success) eqn:Hc; cbn [orb].
  - read_groups w Hl. destruct Hl as (Hls & _ & _ & _ & _ & _ & -> & ->).
    rewrite Hf. destruct (ls_throws w (ls_writes w)); cbn; [done |].
    by rewrite map_map.
  - read_groups w Hl. destruct Hl as (Hls & _ & _ & _ & _ & _ & -> & ->).
    rewrite Hf.
    assert (Hres : bool_decide
                     (length (map rehydrate (stored w))
                      ≠ length (map rehydrate
                                  (filter (fun g => g_id g ≠ groupId) (stored w))))
                   = bool_decide (Exists (fun g => g_id g = groupId) (stored w))).
    { rewrite !length_map. apply bool_decide_ext.
      split.
      + intros Hne.
        destruct (decide (Exists (fun g => g_id g = groupId) (stored w))) as [|Hn]; [done|].
        exfalso. apply Hne. symmetry. apply length_filter_all. by apply Forall_Exists_neg.
      + intros Hex Heq. symmetry in Heq. apply length_filter_all in Heq.
        by apply Forall_Exists_neg in Heq. }
    destruct (ls_throws w (ls_writes w)); cbn; rewrite ?map_map; by split.
Qed.

(** X6. [deleteGroup] answers [true] when the remote deletion succeeded,
    whether or not a local group was removed, and otherwise exactly when some
    local group had the identifier. When the medium accepts the write, every
    group with the given identifier is removed and the others are kept in
    their order, so that afterwards [getGroupById] finds nothing under that
    identifier. When the medium refuses the write the store is left as it
    was, whatever the answer: a group with the identifier is still found. *)
Theorem deleteGroup_removes groupId success w :
  let w' := (deleteGroup groupId success w).2 in
  (deleteGroup groupId success w).1
  = (supabase_configured w && success)
    || bool_decide (Exists (fun g => g_id g = groupId) (stored w)) ∧
  (accepts 0 w ->
   stored w' = map normalize (filter (fun g => g_id g ≠ groupId) (stored w)) ∧
   (getGroupById groupId w').1 = None) ∧
  (¬ accepts 0 w ->
   ls_prompt_groups w' = ls_prompt_groups w ∧
   forall i g, list_find (fun g => g_id g = groupId) (stored w) = Some (i, g) ->
     (getGroupById groupId w').1 = Some (rehydrate g)).
Proof.
  destruct (deleteGroup_stored groupId success w) as [Hls Hr].
  cbn zeta. split; [done |]. unfold accepts. cbn [Nat.add].
  destruct (ls_throws w (ls_writes w)).
  { split; [done |]. intros _. split; [done |]. intros i g Hfind.
    apply (getGroupById_found _ _ i). by rewrite (ls_stored _ _ Hls). }
  split; [| done]. intros _.
  assert (Hs : stored (deleteGroup groupId success w).2
               = map normalize (filter (fun g => g_id g ≠ groupId) (stored w))).
  { unfold stored at 1. by rewrite Hls. }
  split; [done|].
  apply getGroupById_not_found. rewrite Hs.
  apply Forall_forall. intros g Hg.
  apply list_elem_of_fmap in Hg as (g0 & -> & Hg0).
  apply list_elem_of_filter in Hg0 as [Hne _]. by rewrite normalize_id.
Qed.

Lemma deleteGroup_removes_witness :
  g_id <$> stored (deleteGroup "G" false world0).2 = ["H"] ∧
  (getGroupById "G" (deleteGroup "G" false world0).2).1 = None.
Proof.
  destruct (deleteGroup_removes "G" false world0) as (_ & Hacc & _).
  destruct Hacc as [Hs Hget]; [reflexivity |].
  split; [rewrite Hs; reflexivity | exact Hget].
Defined.

(** ** A program logic over the world *)

Lemma preserves_ret {A} I (a : A) (Q : A -> Prop) : Q a -> preserves I (ret a) Q.
Proof. intros HQ w HI. by split. Qed.

Lemma preserves_bind {A B} I (m : M A) (k : A -> M B) (Q : A -> Prop) (R : B -> Prop) :
  preserves I m Q ->
  (forall a, Q a -> preserves I (k a) R) ->
  preserves I (bind m k) R.
Proof.
  intros Hm Hk w HI. unfold bind.
  destruct (Hm w HI) as [HQ HI']. destruct (m w) as [a w']. by apply Hk.
Qed.

Lemma preserves_weaken {A} I (m : M A) (Q Q' : A -> Prop) :
  preserves I m Q -> (forall a, Q a -> Q' a) -> preserves I m Q'.
Proof. intros Hm HQ w HI. destruct (Hm w HI). split; [by apply HQ | done]. Qed.

Lemma preserves_forEach {A} I (T : A -> Prop) (f : nat -> A -> M unit) :
  (forall i x, T x -> preserves I (f i x) (fun _ => True)) ->
  forall items i, Forall T items -> preserves I (forEach f i items) (fun _ => True).
Proof.
  intros Hf items. induction items as [|x items IH]; intros i HT; cbn [forEach].
  - by apply preserves_ret.
  - apply Forall_cons in HT as [Hx HT].
    eapply preserves_bind; [by apply Hf|]. intros _ _. by apply IH.
Qed.

Lemma preserves_for_groups I (T : PromptGroup -> Prop) (body : PromptGroup -> M LoopStep) :
  (forall g, T g ->
     preserves I (body g)
       (fun step => match step with Break g' => T g' | _ => True end)) ->
  forall groups, Forall T groups ->
    preserves I (for_groups body groups)
      (fun r => match r with Some (_, gs) => Forall T gs | None => True end).
Proof.
  intros Hbody groups. induction groups as [|g groups IH]; intros HT; cbn [for_groups].
  - by apply preserves_ret.
  - apply Forall_cons in HT as [Hg HT].
    eapply preserves_bind; [by apply Hbody|]. intros [|g'|] Hstep.
    + eapply preserves_bind; [by apply IH|]. intros [[b gs]|] Hr; apply preserves_ret; cbn; [|done].
      by constructor.
    + apply preserves_ret. by constructor.
    + by apply preserves_ret.
Qed.

Lemma Forall_filter_keep {A} (P Q : A -> Prop) `{!forall x, Decision (Q x)} (l : list A) :
  Forall P l -> Forall P (filter Q l).
Proof.
  rewrite !Forall_forall. intros Hall x [_ Hx]%list_elem_of_filter. by apply Hall.
Qed.

(** ** A property of groups that every operation keeps

    [P] is a property of groups that looks at the versions and the two
    pointers only and that each mutation of a group keeps. *)

Section Kept.

Variable P : PromptGroup -> Prop.

Hypothesis P_core : forall g g',
  versions g' = versions g ->
  currentVersionId g' = currentVersionId g ->
  productionVersionId g' = productionVersionId g ->
  P g -> P g'.

Hypothesis P_setVersionStatus : forall versionId st k g,
  findIndex (fun v => v_id v = versionId) (versions g) = Some k ->
  P g -> P (setVersionStatus_mutate versionId st k g).

Hypothesis P_deleteVersion : forall versionId k v g,
  list_find (fun v => v_id v = versionId) (versions g) = Some (k, v) ->
  length (versions g) ≠ 1%nat ->
  P g -> P (deleteVersion_mutate k v g).

Hypothesis P_updateVersion : forall updates k g,
  P g -> P (set_versions (alter (patch_version updates) k (versions g)) g).

Hypothesis P_addVersion : forall nv g,
  status nv ≠ production -> P g -> P (addVersion_mutate nv g).

Hypothesis P_new : forall g v,
  versions g = [v] -> status v = current -> currentVersionId g = v_id v ->
  productionVersionId g = None -> P g.

Lemma kept_rehydrate g : P g -> P (rehydrate g).
Proof. apply P_core; by destruct g as [? ? ? ? ? ? ? ? ? ? [[]|]]. Qed.

Lemma kept_serializable g : P g -> P (serializable g).
Proof. apply P_core; by destruct g as [? ? ? ? ? ? ? ? ? ? [[]|]]. Qed.

Lemma kept_Date_now : preserves (kept P) Date_now (fun _ => True).
Proof. intros w HI. split; [done | exact HI]. Qed.

Lemma kept_generateId : preserves (kept P) generateId (fun _ => True).
Proof. intros w HI. split; [done | exact HI]. Qed.

Lemma kept_isSupabaseConfigured : preserves (kept P) isSupabaseConfigured (fun _ => True).
Proof. intros w HI. split; [done | exact HI]. Qed.

Lemma kept_issue c ks : preserves (kept P) (issue c ks) (fun _ => True).
Proof. intros w HI. split; [done | exact HI]. Qed.

Lemma kept_setTimeout k : preserves (kept P) (setTimeout k) (fun _ => True).
Proof. intros w HI. split; [done | exact HI]. Qed.

Lemma kept_retain groups :
  Forall P groups -> preserves (kept P) (retain groups) (fun _ => True).
Proof.
  intros Hg w [Hs Ha]. split; [done|]. split; [exact Hs|].
  cbn. apply Forall_app. split; [done | by constructor].
Qed.

Lemma kept_modify_group arr gi f :
  (forall g, P g -> P (f g)) -> preserves (kept P) (modify_group arr gi f) (fun _ => True).
Proof.
  intros Hf w [Hs Ha]. split; [done|]. split; [exact Hs|].
  cbn. apply Forall_alter; [done|]. intros gs _ Hgs.
  apply Forall_alter; [done|]. intros g _. apply Hf.
Qed.

Lemma kept_read_array arr : preserves (kept P) (read_array arr) (Forall P).
Proof.
  intros w [Hs Ha]. split; [|by split]. cbn.
  destruct (arrays w !! arr) as [gs|] eqn:Harr; cbn; [|constructor].
  by apply (Forall_lookup_1 _ _ _ _ Ha Harr).
Qed.

Lemma kept_localStorage_get : preserves (kept P) localStorage_get (Forall P).
Proof. intros w [Hs Ha]. split; [exact Hs | by split]. Qed.

Lemma kept_localStorage_set groups :
  Forall P groups -> preserves (kept P) (localStorage_set groups) (fun _ => True).
Proof.
  intros Hg w [Hs Ha]. split; [done|]. unfold localStorage_set.
  destruct (ls_throws w (ls_writes w)); (split; [|exact Ha]); [exact Hs |].
  unfold stored. cbn. apply Forall_fmap. eapply Forall_impl; [exact Hg|].
  apply kept_serializable.
Qed.

Lemma kept_syncFromSupabase : preserves (kept P) syncFromSupabase (fun _ => True).
Proof.
  unfold syncFromSupabase.
  eapply preserves_bind; [apply kept_isSupabaseConfigured|].
  intros [] _; [apply kept_issue | by apply preserves_ret].
Qed.

Lemma kept_getAllGroups : preserves (kept P) getAllGroups (Forall P).
Proof.
  unfold getAllGroups.
  eapply preserves_bind; [apply kept_syncFromSupabase|]. intros _ _.
  eapply preserves_bind; [apply kept_localStorage_get|]. intros groups Hg.
  apply preserves_ret. apply Forall_fmap. eapply Forall_impl; [exact Hg|].
  apply kept_rehydrate.
Qed.

Lemma kept_push_status remoteId version :
  preserves (kept P) (push_status remoteId version) (fun _ => True).
Proof.
  unfold push_status. destruct (status version);
    [by apply preserves_ret | apply kept_issue ..].
Qed.

Lemma kept_syncToSupabase groups :
  Forall P groups -> preserves (kept P) (syncToSupabase groups) (fun _ => True).
Proof.
  intros Hg. unfold syncToSupabase.
  eapply preserves_bind; [apply kept_isSupabaseConfigured|].
  intros [] _; [|by apply preserves_ret].
  eapply preserves_bind; [by apply kept_retain|]. intros arr _.
  apply (preserves_forEach _ (fun _ => True)); [|by apply Forall_true].
  intros gi group _.
  destruct (negb (truthy (supabase_id group)) && _).
  { destruct (versions group); [by apply preserves_ret | apply kept_issue]. }
  destruct (truthy (supabase_id group)); [|by apply preserves_ret].
  eapply (preserves_bind _ _ _ (fun _ => True)).
  { destruct (_syncedVersionIds group); [by apply preserves_ret|].
    apply kept_modify_group. intros g. by apply P_core. }
  intros _ _.
  apply (preserves_forEach _ (fun _ => True)); [|by apply Forall_true].
  intros vi version _.
  destruct (already_synced _ _); [by apply preserves_ret | apply kept_issue].
Qed.

Lemma kept_supabase_createGroup name content db :
  from_option P True (supabase_createGroup name content db).
Proof.
  unfold supabase_createGroup.
  destruct (group_inserted db) as [[[gid created_at] updated_at]|]; [|done].
  destruct (version_inserted db) as [[vid v_created_at]|]; [|done].
  cbn [from_option]. eapply P_new; cbn; try reflexivity.
  apply or_else_empty.
Qed.

Lemma kept_createPromptGroup name content description db :
  preserves (kept P) (createPromptGroup name content description db) (fun _ => True).
Proof.
  unfold createPromptGroup.
  eapply preserves_bind; [apply kept_isSupabaseConfigured|]. intros configured _.
  eapply (preserves_bind _ _ _ (from_option P True)).
  { destruct configured; [|by apply preserves_ret].
    eapply preserves_bind; [apply kept_issue|]. intros _ _.
    apply preserves_ret, kept_supabase_createGroup. }
  intros [group|] Hremote; cbn [from_option] in Hremote.
  - eapply preserves_bind; [apply kept_localStorage_get|]. intros groups Hg.
    eapply preserves_bind; [apply kept_localStorage_set; by constructor|]. intros _ _.
    eapply preserves_bind; [apply kept_setTimeout|]. intros _ _. by apply preserves_ret.
  - eapply preserves_bind; [apply kept_generateId|]. intros groupId _.
    eapply preserves_bind; [apply kept_generateId|]. intros versionId _.
    eapply preserves_bind; [apply kept_Date_now|]. intros now1 _. cbv zeta.
    eapply preserves_bind; [apply kept_Date_now|]. intros now2 _.
    eapply preserves_bind; [apply kept_Date_now|]. intros now3 _.
    eapply preserves_bind; [apply kept_getAllGroups|]. intros groups Hg.
    match goal with
    | |- context [localStorage_set ?gs] => assert (Hgs : Forall P gs)
    end.
    { apply Forall_app. split; [done|]. constructor; [|done]. by eapply P_new. }
    eapply preserves_bind; [by apply kept_localStorage_set|]. intros _ _.
    eapply preserves_bind; [by apply kept_syncToSupabase|]. intros _ _.
    by apply preserves_ret.
Qed.

Lemma kept_addVersion groupId content options :
  opt_status options ≠ Some production ->
  preserves (kept P) (addVersion groupId content options) (fun _ => True).
Proof.
  intros Hst. unfold addVersion.
  eapply preserves_bind; [apply kept_getAllGroups|]. intros groups Hg.
  destruct (list_find _ groups) as [[groupIndex group]|] eqn:Hfind;
    [|by apply preserves_ret].
  cbv zeta.
  eapply preserves_bind; [apply kept_generateId|]. intros versionId _.
  eapply preserves_bind; [apply kept_Date_now|]. intros now _.
  eapply preserves_bind; [apply kept_Date_now|]. intros now' _.
  match goal with
  | |- context [localStorage_set ?gs] => assert (Hgs : Forall P gs)
  end.
  { apply Forall_insert; [done|].
    apply list_find_Some in Hfind as (Hi & _).
    eapply P_core; [..|apply P_addVersion]; try reflexivity.
    - cbn. by destruct (opt_status options) as [[]|].
    - exact (Forall_lookup_1 _ _ _ _ Hg Hi). }
  eapply preserves_bind; [by apply kept_localStorage_set|]. intros _ _.
  eapply preserves_bind; [by apply kept_syncToSupabase|]. intros _ _.
  by apply preserves_ret.
Qed.

Lemma kept_setVersionStatus versionId st :
  preserves (kept P) (setVersionStatus versionId st) (fun _ => True).
Proof.
  unfold setVersionStatus.
  eapply preserves_bind; [apply kept_getAllGroups|]. intros groups Hg.
  eapply preserves_bind; [apply (preserves_for_groups _ P); [|exact Hg]|].
  { intros g HPg. unfold setVersionStatus_body.
    destruct (findIndex _ (versions g)) as [k|] eqn:Hk; [|by apply preserves_ret].
    cbv zeta. eapply preserves_bind; [apply kept_Date_now|]. intros now _.
    apply preserves_ret.
    eapply P_core; [..|by apply (P_setVersionStatus versionId st k g)]; reflexivity. }
  intros [[[] gs]|] Hr; try by apply preserves_ret.
  eapply preserves_bind; [by apply kept_localStorage_set|]. intros _ _.
  eapply preserves_bind; [by apply kept_syncToSupabase|]. intros _ _.
  by apply preserves_ret.
Qed.

Lemma kept_deleteVersion versionId :
  preserves (kept P) (deleteVersion versionId) (fun _ => True).
Proof.
  unfold deleteVersion.
  eapply preserves_bind; [apply kept_getAllGroups|]. intros groups Hg.
  eapply preserves_bind; [apply (preserves_for_groups _ P); [|exact Hg]|].
  { intros g HPg. unfold deleteVersion_body.
    destruct (list_find _ (versions g)) as [[k v]|] eqn:Hk; [|by apply preserves_ret].
    case_bool_decide as Hlen; [by apply preserves_ret|].
    cbv zeta. eapply preserves_bind; [apply kept_Date_now|]. intros now _.
    apply preserves_ret.
    eapply P_core; [..|by apply (P_deleteVersion versionId k v g)]; reflexivity. }
  intros [[[] gs]|] Hr; try by apply preserves_ret.
  eapply preserves_bind; [by apply kept_localStorage_set|]. intros _ _.
  by apply preserves_ret.
Qed.

Lemma kept_updateVersion versionId updates :
  preserves (kept P) (updateVersion versionId updates) (fun _ => True).
Proof.
  unfold updateVersion.
  eapply preserves_bind; [apply kept_getAllGroups|]. intros groups Hg.
  eapply preserves_bind; [apply (preserves_for_groups _ P); [|exact Hg]|].
  { intros g HPg. unfold updateVersion_body.
    destruct (findIndex _ (versions g)) as [k|] eqn:Hk; [|by apply preserves_ret].
    cbv zeta. eapply preserves_bind; [apply kept_Date_now|]. intros now _.
    apply preserves_ret.
    eapply P_core; [..|by apply (P_updateVersion updates k g)]; reflexivity. }
  intros [[[] gs]|] Hr; try by apply preserves_ret.
  eapply preserves_bind; [by apply kept_localStorage_set|]. intros _ _.
  eapply preserves_bind; [apply kept_isSupabaseConfigured|]. intros configured _.
  eapply (preserves_bind _ _ _ (fun _ => True)).
  { destruct (configured && _); [apply kept_issue | by apply preserves_ret]. }
  intros _ _. by apply preserves_ret.
Qed.

Lemma kept_updateGroup groupId updates :
  preserves (kept P) (updateGroup groupId updates) (fun _ => True).
Proof.
  unfold updateGroup.
  eapply preserves_bind; [apply kept_getAllGroups|]. intros groups Hg.
  destruct (list_find _ groups) as [[groupIndex group]|] eqn:Hfind;
    [|by apply preserves_ret].
  eapply preserves_bind; [apply kept_Date_now|]. intros now _. cbv zeta.
  match goal with
  | |- context [localStorage_set ?gs] => assert (Hgs : Forall P gs)
  end.
  { apply Forall_insert; [done|].
    apply list_find_Some in Hfind as (Hi & _).
    eapply P_core; [..|exact (Forall_lookup_1 _ _ _ _ Hg Hi)]; reflexivity. }
  eapply preserves_bind; [by apply kept_localStorage_set|]. intros _ _.
  eapply preserves_bind; [apply kept_isSupabaseConfigured|]. intros configured _.
  eapply (preserves_bind _ _ _ (fun _ => True)).
  { destruct (configured && _); [apply kept_issue | by apply preserves_ret]. }
  intros _ _. by apply preserves_ret.
Qed.

Lemma kept_deleteGroup groupId success :
  preserves (kept P) (deleteGroup groupId success) (fun _ => True).
Proof.
  unfold deleteGroup.
  eapply preserves_bind; [apply kept_isSupabaseConfigured|]. intros configured _.
  destruct (configured && success).
  - eapply preserves_bind; [apply kept_getAllGroups|]. intros groups Hg. cbv zeta.
    eapply preserves_bind; [by apply kept_localStorage_set, Forall_filter_keep|]. intros _ _.
    eapply preserves_bind; [apply kept_setTimeout|]. intros _ _. by apply preserves_ret.
  - eapply preserves_bind; [apply kept_getAllGroups|]. intros groups Hg. cbv zeta.
    eapply preserves_bind; [by apply kept_localStorage_set, Forall_filter_keep|]. intros _ _.
    by apply preserves_ret.
Qed.

Lemma kept_getGroupById groupId :
  preserves (kept P) (getGroupById groupId) (fun _ => True).
Proof.
  unfold getGroupById.
  eapply preserves_bind; [apply kept_getAllGroups|]. intros groups Hg.
  by apply preserves_ret.
Qed.

Lemma kept_run_continuation k r :
  match r with Groups gs => Forall P gs | _ => True end ->
  preserves (kept P) (run_continuation k r) (fun _ => True).
Proof.
  intros Hr.
  destruct k as [| |arr gi|arr gi vi|arr gi vi], r as [| |gs|[i|]];
    cbn [run_continuation]; try by apply preserves_ret.
  - apply kept_syncFromSupabase.
  - eapply preserves_bind; [by apply kept_localStorage_set|]. intros _ _.
    by apply preserves_ret.
  - eapply preserves_bind.
    { apply kept_modify_group. intros g. by apply P_core. }
    intros _ _.
    eapply preserves_bind; [apply kept_read_array|]. intros groups Hg.
    eapply preserves_bind; [by apply kept_localStorage_set|]. intros _ _.
    destruct (groups !! gi) as [group|]; [|by apply preserves_ret].
    case_bool_decide; [|by apply preserves_ret].
    apply (preserves_forEach _ (fun _ => True)); [|by apply Forall_true].
    intros vi version _. apply kept_issue.
  - eapply preserves_bind; [apply kept_read_array|]. intros groups Hg.
    destruct (groups !! gi ≫= _) as [version|]; [|by apply preserves_ret].
    apply kept_push_status.
  - eapply preserves_bind; [apply kept_read_array|]. intros groups Hg.
    destruct (groups !! gi ≫= _) as [version|]; [|by apply preserves_ret].
    eapply preserves_bind.
    { apply kept_modify_group. intros g. by apply P_core. }
    intros _ _.
    eapply preserves_bind; [apply kept_read_array|]. intros groups' Hg'.
    eapply preserves_bind; [by apply kept_localStorage_set|]. intros _ _.
    apply kept_push_status.
Qed.

Lemma kept_perform a w : admissible P a -> kept P w -> kept P (perform a w).
Proof.
  intros Ha HI. destruct a; cbn [perform].
  - by apply kept_createPromptGroup.
  - by apply kept_addVersion.
  - by apply kept_setVersionStatus.
  - by apply kept_deleteVersion.
  - by apply kept_deleteGroup.
  - by apply kept_updateGroup.
  - by apply kept_updateVersion.
  - by apply kept_getAllGroups.
  - by apply kept_getGroupById.
  - apply (preserves_bind _ _ _ _ (fun _ => True) kept_getAllGroups); [|exact HI].
    intros groups _. by apply preserves_ret.
  - apply (preserves_bind _ _ _ _ (fun _ => True) (kept_getGroupById groupId));
      [|exact HI].
    intros group _. by apply preserves_ret.
  - apply (preserves_bind _ _ _ _ (fun _ => True) kept_getAllGroups); [|exact HI].
    intros groups _. by apply preserves_ret.
  - unfold settle. destruct (pending w !! n) as [k|]; [|done].
    apply kept_run_continuation; [by destruct r | exact HI].
Qed.

Lemma kept_run actions : forall w,
  Forall (admissible P) actions -> kept P w -> kept P (run actions w).
Proof.
  induction actions as [|a actions IH]; intros w Ha HI; [done|].
  apply Forall_cons in Ha as [Ha Has]. cbn.
  apply IH; [done|]. by apply kept_perform.
Qed.

End Kept.

(** ** Statuses and pointers agree, and no group becomes empty *)

Lemma count_zero_Forall st l :
  count_versions st l = 0%nat ↔ Forall (fun u => status u ≠ st) l.
Proof.
  induction l as [|x l IH]; [by split|].
  rewrite count_versions_cons, Forall_cons, <- IH.
  destruct (decide (status x = st)).
  - split; [lia | by intros [? _]].
  - split; [intros ?; split; [done | lia] | intros [_ ?]; lia].
Qed.

Lemma count_le_one st l :
  (count_versions st l <= 1)%nat ↔
  forall i j u u', l !! i = Some u -> l !! j = Some u' ->
    status u = st -> status u' = st -> i = j.
Proof.
  split.
  - intros Hc i j u u' Hi Hj Hu Hu'.
    rewrite (count_versions_middle st l i u Hi), decide_True in Hc by done.
    assert (Ht : count_versions st (take i l) = 0%nat) by lia.
    assert (Hd : count_versions st (drop (S i) l) = 0%nat) by lia.
    rewrite count_zero_Forall in Ht, Hd.
    destruct (decide (i = j)) as [|Hne]; [done|]. exfalso.
    destruct (decide (j < i)%nat).
    + refine (Forall_lookup_1 _ _ j u' Ht _ Hu'). by rewrite lookup_take_lt.
    + refine (Forall_lookup_1 _ _ (j - S i)%nat u' Hd _ Hu').
      rewrite lookup_drop. rewrite <- Hj. f_equal. lia.
  - induction l as [|x l IH]; intros Huniq; [cbn; lia|].
    rewrite count_versions_cons.
    assert (Hl : forall i j u u', l !! i = Some u -> l !! j = Some u' ->
              status u = st -> status u' = st -> i = j).
    { intros i j u u' Hi Hj Hu Hu'.
      by injection (Huniq (S i) (S j) u u' Hi Hj Hu Hu'). }
    destruct (decide (status x = st)) as [Hx|]; [|by apply IH].
    assert (Hz : count_versions st l = 0%nat); [|lia].
    apply count_zero_Forall, Forall_lookup_2. intros i u Hi Hu.
    by specialize (Huniq 0%nat (S i) x u eq_refl Hi Hx Hu).
Qed.

Lemma v_id_demote st u : v_id (demote st u) = v_id u.
Proof. unfold demote. by case_decide. Qed.

Lemma pointers_ok_core g g' :
  versions g' = versions g ->
  currentVersionId g' = currentVersionId g ->
  productionVersionId g' = productionVersionId g ->
  pointers_ok g -> pointers_ok g'.
Proof.
  unfold pointers_ok, count_status. by intros -> -> ->.
Qed.

Lemma pointers_ok_setVersionStatus versionId st k g :
  findIndex (fun v => v_id v = versionId) (versions g) = Some k ->
  pointers_ok g -> pointers_ok (setVersionStatus_mutate versionId st k g).
Proof.
  unfold findIndex. intros Hk (Hc & Hp & Hcur & Hprod).
  destruct (list_find _ (versions g)) as [[k' v]|] eqn:Hfind; [|done].
  injection Hk as ->. apply list_find_Some in Hfind as (Hv & Hid & _).
  assert (Hvs : versions (setVersionStatus_mutate versionId st k g)
                = map (demote st) (take k (versions g)) ++ set_status st v
                    :: map (demote st) (drop (S k) (versions g))).
  { rewrite setVersionStatus_mutate_versions. by apply status_versions_split. }
  assert (Hptr : forall (s : Status) (ptr ptr' : option string),
            s ≠ draft ->
            (st = s -> ptr' = Some versionId) ->
            (st ≠ s -> ptr' = ptr) ->
            Forall (fun u => status u = s -> ptr = Some (v_id u)) (versions g) ->
            Forall (fun u => status u = s -> ptr' = Some (v_id u))
              (versions (setVersionStatus_mutate versionId st k g))).
  { intros s ptr ptr' Hs Heq Hne Hold. rewrite Hvs.
    assert (Hd : forall l, Forall (fun u => status u = s -> ptr = Some (v_id u)) l ->
               Forall (fun u => status u = s -> ptr' = Some (v_id u)) (map (demote st) l)).
    { intros l Hl. apply Forall_fmap. eapply Forall_impl; [exact Hl|].
      cbn. intros u Hu Hsu. rewrite v_id_demote.
      destruct (decide (st = s)) as [->|Hst].
      - by apply demote_status_ne in Hsu.
      - rewrite Hne by done. apply Hu. by apply (demote_status_other st s u). }
    apply Forall_app. split; [by apply Hd, Forall_take|].
    constructor; [|by apply Hd, Forall_drop].
    cbn. intros ->. rewrite Hid. by apply Heq. }
  assert (Hcount : forall s, s ≠ draft ->
            (count_status s g <= 1)%nat ->
            (count_status s (setVersionStatus_mutate versionId st k g) <= 1)%nat).
  { intros s Hs Hold. unfold count_status. rewrite setVersionStatus_mutate_versions.
    destruct (decide (s = st)) as [->|Hst].
    - by rewrite (count_status_versions_self st k (versions g) v).
    - etrans; [|exact Hold]. by apply (count_status_versions_other st s k (versions g) v). }
  split; [by apply Hcount|]. split; [by apply Hcount|]. split.
  - assert (H := Hptr current (Some (currentVersionId g))
                   (Some (currentVersionId (setVersionStatus_mutate versionId st k g)))).
    eapply Forall_impl; [apply H|]; try done.
    + intros ->. done.
    + intros Hne. by destruct st.
    + eapply Forall_impl; [exact Hcur|]. cbn. intros u Hu Hs. by rewrite Hu.
    + cbn. intros u Hu Hs. specialize (Hu Hs). by injection Hu.
  - apply (Hptr production (productionVersionId g)); try done.
    + by intros ->.
    + intros Hne. by destruct st.
Qed.

Lemma pointers_ok_deleteVersion versionId k v g :
  list_find (fun v => v_id v = versionId) (versions g) = Some (k, v) ->
  length (versions g) ≠ 1%nat ->
  pointers_ok g -> pointers_ok (deleteVersion_mutate k v g).
Proof.
  intros Hfind Hlen (Hc & Hp & Hcur & Hprod).
  apply list_find_Some in Hfind as (Hv & Hid & _).
  unfold count_status in Hc, Hp. rewrite count_le_one in Hc, Hp.
  rewrite Forall_lookup in Hcur, Hprod.
  assert (Hshift : forall a b : nat,
            (if decide (a < k)%nat then a else S a)
            = (if decide (b < k)%nat then b else S b) -> a = b).
  { intros a b. repeat case_decide; lia. }
  assert (Hnk : forall a : nat, (if decide (a < k)%nat then a else S a) ≠ k).
  { intros a. case_decide; lia. }
  destruct (status v) eqn:Hst.
  - (* a draft is deleted *)
    assert (Hm : deleteVersion_mutate k v g = set_versions (delete k (versions g)) g).
    { unfold deleteVersion_mutate. rewrite Hst.
      rewrite !decide_False by done. done. }
    rewrite Hm. unfold pointers_ok, count_status.
    cbn [versions set_versions set_currentVersionId set_productionVersionId
           currentVersionId productionVersionId].
    rewrite !count_le_one, !Forall_lookup.
    setoid_rewrite list_lookup_delete.
    repeat split.
    + intros a b u u' Ha Hb Hu Hu'. apply Hshift. by eapply Hc.
    + intros a b u u' Ha Hb Hu Hu'. apply Hshift. by eapply Hp.
    + intros a u Ha. by eapply Hcur.
    + intros a u Ha. by eapply Hprod.
  - (* the current version is deleted *)
    destruct (deleteVersion_mutate_current k v g Hst Hv Hlen)
      as (j & u & Hu & Hjk & _ & ->).
    assert (Hlook : forall a x,
              delete k (<[j := set_status current u]> (versions g)) !! a = Some x ->
              (x = set_status current u ∧ (if decide (a < k)%nat then a else S a) = j) ∨
              (versions g !! (if decide (a < k)%nat then a else S a) = Some x ∧
               status x ≠ current)).
    { intros a x. rewrite list_lookup_delete, list_lookup_insert_Some.
      intros [(<- & <- & _)|[Hne Hx]]; [by left|]. right. split; [done|].
      intros Hx'. apply (Hnk a). by eapply Hc. }
    unfold pointers_ok, count_status.
    cbn [versions set_versions set_currentVersionId set_productionVersionId
           currentVersionId productionVersionId].
    rewrite !count_le_one, !Forall_lookup.
    repeat split.
    + intros a b x y Ha Hb Hx Hy. apply Hshift.
      apply Hlook in Ha as [[_ Ha]|[_ Ha]]; [|done].
      apply Hlook in Hb as [[_ Hb]|[_ Hb]]; [|done]. congruence.
    + intros a b x y Ha Hb Hx Hy. apply Hshift.
      apply Hlook in Ha as [[-> _]|[Ha _]]; [done|].
      apply Hlook in Hb as [[-> _]|[Hb _]]; [done|]. by eapply Hp.
    + intros a x Ha Hx. by apply Hlook in Ha as [[-> _]|[_ Ha]].
    + intros a x Ha Hx. apply Hlook in Ha as [[-> _]|[Ha _]]; [done|]. by eapply Hprod.
  - (* the production version is deleted *)
    rewrite (deleteVersion_mutate_production k v g Hst).
    unfold pointers_ok, count_status.
    cbn [versions set_versions set_currentVersionId set_productionVersionId
           currentVersionId productionVersionId].
    rewrite !count_le_one, !Forall_lookup.
    setoid_rewrite list_lookup_delete.
    repeat split.
    + intros a b u u' Ha Hb Hu Hu'. apply Hshift. by eapply Hc.
    + intros a b u u' Ha Hb Hu Hu'. apply Hshift. by eapply Hp.
    + intros a u Ha. by eapply Hcur.
    + intros a u Ha Hu. destruct (Hnk a). by eapply Hp.
Qed.

Lemma pointers_ok_updateVersion updates k g :
  pointers_ok g ->
  pointers_ok (set_versions (alter (patch_version updates) k (versions g)) g).
Proof.
  intros (Hc & Hp & Hcur & Hprod).
  assert (Hcount : forall st l i,
            count_versions st (alter (patch_version updates) i l) = count_versions st l).
  { intros st l. induction l as [|x l IH]; intros [|i]; try done.
    - cbn [alter list_alter]. by rewrite !count_versions_cons.
    - cbn [alter list_alter]. by rewrite !count_versions_cons, <- (IH i). }
  unfold pointers_ok, count_status.
  cbn [versions set_versions currentVersionId productionVersionId].
  rewrite !Hcount. repeat split; try done.
  - apply Forall_alter; [done|]. by intros v _.
  - apply Forall_alter; [done|]. by intros v _.
Qed.

Lemma pointers_ok_addVersion nv g :
  status nv ≠ production -> pointers_ok g -> pointers_ok (addVersion_mutate nv g).
Proof.
  intros Hnv (Hc & Hp & Hcur & Hprod).
  unfold addVersion_mutate, pointers_ok, count_status in *.
  destruct (decide (status nv = current)) as [Hst|Hst];
    cbn [versions set_versions set_currentVersionId currentVersionId productionVersionId];
    rewrite !count_versions_app, !count_versions_cons, !Forall_app, !Forall_singleton.
  - rewrite count_versions_demote_self, count_versions_demote_other by done.
    rewrite decide_True, decide_False by done. cbn.
    repeat split; try done; try lia.
    + apply Forall_fmap, Forall_true. intros u Hu. by apply demote_status_ne in Hu.
    + apply Forall_fmap. eapply Forall_impl; [exact Hprod|]. cbn. intros u Hu Hs.
      rewrite v_id_demote. apply Hu. by apply (demote_status_other current production u).
  - rewrite !decide_False by done. cbn. repeat split; try done; lia.
Qed.

Lemma pointers_ok_new g v :
  versions g = [v] -> status v = current -> currentVersionId g = v_id v ->
  productionVersionId g = None -> pointers_ok g.
Proof.
  intros Hv Hs Hc Hp. unfold pointers_ok, count_status. rewrite Hv.
  rewrite !count_versions_cons, Hs, decide_True, decide_False by done.
  rewrite !Forall_singleton, Hs. cbn. repeat split; try done; lia.
Qed.

Lemma has_versions_core (g g' : PromptGroup) :
  versions g' = versions g ->
  currentVersionId g' = currentVersionId g ->
  productionVersionId g' = productionVersionId g ->
  has_versions g -> has_versions g'.
Proof. unfold has_versions. by intros ->. Qed.

Lemma has_versions_length g : has_versions g ↔ (0 < length (versions g))%nat.
Proof. unfold has_versions. destruct (versions g); cbn; split; try done; lia. Qed.

Lemma has_versions_setVersionStatus versionId st k g :
  findIndex (fun v => v_id v = versionId) (versions g) = Some k ->
  has_versions g -> has_versions (setVersionStatus_mutate versionId st k g).
Proof.
  intros _. rewrite !has_versions_length, setVersionStatus_mutate_versions.
  unfold status_versions. rewrite length_alter. destruct st; by rewrite ?length_imap.
Qed.

Lemma has_versions_deleteVersion versionId k v g :
  list_find (fun v => v_id v = versionId) (versions g) = Some (k, v) ->
  length (versions g) ≠ 1%nat ->
  has_versions g -> has_versions (deleteVersion_mutate k v g).
Proof.
  intros (Hk & _)%list_find_Some Hlen. rewrite !has_versions_length.
  rewrite deleteVersion_mutate_length, length_delete by done. lia.
Qed.

Lemma has_versions_updateVersion updates k g :
  has_versions g ->
  has_versions (set_versions (alter (patch_version updates) k (versions g)) g).
Proof. rewrite !has_versions_length. cbn. by rewrite length_alter. Qed.

Lemma has_versions_addVersion nv g :
  status nv ≠ production -> has_versions g -> has_versions (addVersion_mutate nv g).
Proof.
  intros _ _. apply has_versions_length.
  rewrite <- (length_map num), addVersion_mutate_nums, length_app. cbn. lia.
Qed.

Lemma has_versions_new g v :
  versions g = [v] -> status v = current -> currentVersionId g = v_id v ->
  productionVersionId g = None -> has_versions g.
Proof. unfold has_versions. by intros ->. Qed.

(** X8. Statuses and pointers agree in every group, whatever happens: if in
    every stored group (and in every group that a pending continuation still
    refers to) at most one version is current, at most one is in production,
    and a version with one of these statuses is the one that
    [currentVersionId], respectively [productionVersionId], names, then this
    is still so after any run of [versionStorage] calls and of settling
    promises, provided [addVersion] is not asked for a production version and
    the groups that a pull answers with have the property themselves. *)
Theorem pointers_ok_always actions w :
  Forall (admissible pointers_ok) actions ->
  kept pointers_ok w ->
  kept pointers_ok (run actions w).
Proof.
  apply kept_run.
  - apply pointers_ok_core.
  - apply pointers_ok_setVersionStatus.
  - apply pointers_ok_deleteVersion.
  - apply pointers_ok_updateVersion.
  - apply pointers_ok_addVersion.
  - apply pointers_ok_new.
Qed.

(** X9. No group ever loses its last version: if every stored group (and
    every group that a pending continuation still refers to) has a version,
    this is still so after any run of [versionStorage] calls and of settling
    promises, provided the groups that a pull answers with have a version. *)
Theorem has_versions_always actions w :
  Forall (admissible has_versions) actions ->
  kept has_versions w ->
  kept has_versions (run actions w).
Proof.
  apply kept_run.
  - apply has_versions_core.
  - apply has_versions_setVersionStatus.
  - apply has_versions_deleteVersion.
  - apply has_versions_updateVersion.
  - apply has_versions_addVersion.
  - apply has_versions_new.
Qed.

Lemma pointers_ok_always_witness :
  kept pointers_ok
    (run [SetVersionStatus "a1" production;
          AddVersion "G" "Be brief." (mkOptions None None (Some current) None None);
          DeleteVersion "a2";
          Settle 0 (Groups [group_H])] pushed_world).
Proof.
  apply pointers_ok_always.
  - repeat constructor; try discriminate.
    all: apply (bool_decide_unpack _); vm_compute; exact I.
  - apply (bool_decide_unpack _). vm_compute. exact I.
Defined.

Lemma has_versions_always_witness :
  kept has_versions
    (run [DeleteVersion "b1"; DeleteVersion "a1"; DeleteVersion "a2";
          UpdateVersion "a2" (mkVersionUpdates (Some "final") None)] world0).
Proof.
  apply has_versions_always.
  - repeat constructor.
  - split; repeat constructor; discriminate.
Defined.

(** ** Without Supabase nothing goes out *)

Section Offline.

Variable calls : list Issued.

Lemma offline_unconfigured :
  preserves (offline calls) isSupabaseConfigured (fun b => b = false).
Proof. intros w HI. split; [apply HI | exact HI]. Qed.

Lemma offline_Date_now : preserves (offline calls) Date_now (fun _ => True).
Proof. intros w HI. split; [done | exact HI]. Qed.

Lemma offline_generateId : preserves (offline calls) generateId (fun _ => True).
Proof. intros w HI. split; [done | exact HI]. Qed.

Lemma offline_localStorage_get : preserves (offline calls) localStorage_get (fun _ => True).
Proof. intros w HI. split; [done | exact HI]. Qed.

Lemma offline_localStorage_set groups :
  preserves (offline calls) (localStorage_set groups) (fun _ => True).
Proof.
  intros w HI. split; [done |]. unfold localStorage_set.
  by destruct (ls_throws w (ls_writes w)).
Qed.

Lemma offline_syncFromSupabase : preserves (offline calls) syncFromSupabase (fun _ => True).
Proof.
  unfold syncFromSupabase.
  eapply preserves_bind; [apply offline_unconfigured|]. intros b ->.
  by apply preserves_ret.
Qed.

Lemma offline_syncToSupabase groups :
  preserves (offline calls) (syncToSupabase groups) (fun _ => True).
Proof.
  unfold syncToSupabase.
  eapply preserves_bind; [apply offline_unconfigured|]. intros b ->.
  by apply preserves_ret.
Qed.

Lemma offline_getAllGroups : preserves (offline calls) getAllGroups (fun _ => True).
Proof.
  unfold getAllGroups.
  eapply preserves_bind; [apply offline_syncFromSupabase|]. intros _ _.
  eapply preserves_bind; [apply offline_localStorage_get|]. intros groups _.
  by apply preserves_ret.
Qed.

Lemma offline_for_groups body groups :
  (forall g, preserves (offline calls) (body g) (fun _ => True)) ->
  preserves (offline calls) (for_groups body groups) (fun _ => True).
Proof.
  intros Hbody. eapply preserves_weaken.
  - apply (preserves_for_groups _ (fun _ => True)); [|by apply Forall_true].
    intros g _. eapply preserves_weaken; [apply Hbody|]. by intros [].
  - done.
Qed.

Lemma offline_loop_body act g :
  preserves (offline calls) (loop_body act g) (fun _ => True).
Proof.
  unfold loop_body. destruct (act g) as [[g'|]|]; try by apply preserves_ret.
  eapply preserves_bind; [apply offline_Date_now|]. intros now _. by apply preserves_ret.
Qed.

Lemma offline_loop_op act after :
  (forall gs, preserves (offline calls) (after gs) (fun _ => True)) ->
  preserves (offline calls) (loop_op act after) (fun _ => True).
Proof.
  intros Hafter. unfold loop_op.
  eapply preserves_bind; [apply offline_getAllGroups|]. intros groups _.
  eapply preserves_bind; [apply offline_for_groups, offline_loop_body|].
  intros [[[] gs]|] _; try by apply preserves_ret.
  eapply preserves_bind; [apply offline_localStorage_set|]. intros _ _.
  eapply preserves_bind; [apply Hafter|]. intros _ _. by apply preserves_ret.
Qed.

Lemma offline_createPromptGroup name content description db :
  preserves (offline calls) (createPromptGroup name content description db) (fun _ => True).
Proof.
  unfold createPromptGroup.
  eapply preserves_bind; [apply offline_unconfigured|]. intros b ->.
  eapply (preserves_bind _ _ _ (fun remote => remote = None)); [by apply preserves_ret|].
  intros remote ->.
  eapply preserves_bind; [apply offline_generateId|]. intros groupId _.
  eapply preserves_bind; [apply offline_generateId|]. intros versionId _.
  eapply preserves_bind; [apply offline_Date_now|]. intros now1 _. cbv zeta.
  eapply preserves_bind; [apply offline_Date_now|]. intros now2 _.
  eapply preserves_bind; [apply offline_Date_now|]. intros now3 _.
  eapply preserves_bind; [apply offline_getAllGroups|]. intros groups _.
  eapply preserves_bind; [apply offline_localStorage_set|]. intros _ _.
  eapply preserves_bind; [apply offline_syncToSupabase|]. intros _ _.
  by apply preserves_ret.
Qed.

Lemma offline_addVersion groupId content options :
  preserves (offline calls) (addVersion groupId content options) (fun _ => True).
Proof.
  unfold addVersion.
  eapply preserves_bind; [apply offline_getAllGroups|]. intros groups _.
  destruct (list_find _ groups) as [[groupIndex group]|]; [|by apply preserves_ret].
  cbv zeta.
  eapply preserves_bind; [apply offline_generateId|]. intros versionId _.
  eapply preserves_bind; [apply offline_Date_now|]. intros now _.
  eapply preserves_bind; [apply offline_Date_now|]. intros now' _.
  eapply preserves_bind; [apply offline_localStorage_set|]. intros _ _.
  eapply preserves_bind; [apply offline_syncToSupabase|]. intros _ _.
  by apply preserves_ret.
Qed.

Lemma offline_updateGroup groupId updates :
  preserves (offline calls) (updateGroup groupId updates) (fun _ => True).
Proof.
  unfold updateGroup.
  eapply preserves_bind; [apply offline_getAllGroups|]. intros groups _.
  destruct (list_find _ groups) as [[groupIndex group]|]; [|by apply preserves_ret].
  eapply preserves_bind; [apply offline_Date_now|]. intros now _. cbv zeta.
  eapply preserves_bind; [apply offline_localStorage_set|]. intros _ _.
  eapply preserves_bind; [apply offline_unconfigured|]. intros b ->.
  eapply (preserves_bind _ _ _ (fun _ => True)); [by apply preserves_ret|].
  intros _ _. by apply preserves_ret.
Qed.

Lemma offline_updateVersion_after versionId updates gs :
  preserves (offline calls) (updateVersion_after versionId updates gs) (fun _ => True).
Proof.
  unfold updateVersion_after.
  eapply preserves_bind; [apply offline_unconfigured|]. intros b ->.
  by apply preserves_ret.
Qed.

Lemma offline_deleteGroup groupId success :
  preserves (offline calls) (deleteGroup groupId success) (fun _ => True).
Proof.
  unfold deleteGroup.
  eapply preserves_bind; [apply offline_unconfigured|]. intros b ->. cbn [andb].
  eapply preserves_bind; [apply offline_getAllGroups|]. intros groups _. cbv zeta.
  eapply preserves_bind; [apply offline_localStorage_set|]. intros _ _.
  by apply preserves_ret.
Qed.

Lemma offline_getGroupById groupId :
  preserves (offline calls) (getGroupById groupId) (fun _ => True).
Proof.
  unfold getGroupById.
  eapply preserves_bind; [apply offline_getAllGroups|]. intros groups _.
  by apply preserves_ret.
Qed.

Lemma offline_perform a :
  preserves (offline calls) (fun w => (tt, perform a w)) (fun _ => True).
Proof.
  assert (Hsnd : forall {A} (m : M A),
            preserves (offline calls) m (fun _ => True) ->
            preserves (offline calls) (fun w => (tt, (m w).2)) (fun _ => True)).
  { intros A m Hm w HI. split; [done|]. apply (Hm w HI). }
  destruct a; cbn [perform]; apply Hsnd.
  - apply offline_createPromptGroup.
  - apply offline_addVersion.
  - intros w HI. rewrite setVersionStatus_loop_op.
    by apply (offline_loop_op _ _ offline_syncToSupabase).
  - intros w HI. rewrite deleteVersion_loop_op.
    apply (offline_loop_op _ (fun _ => ret tt)); [|done].
    intros gs. by apply preserves_ret.
  - apply offline_deleteGroup.
  - apply offline_updateGroup.
  - intros w HI. rewrite updateVersion_loop_op.
    by apply (offline_loop_op _ _ (offline_updateVersion_after versionId updates)).
  - apply offline_getAllGroups.
  - apply offline_getGroupById.
  - unfold getVersionById.
    eapply preserves_bind; [apply offline_getAllGroups|]. intros groups _.
    by apply preserves_ret.
  - unfold getVersionsForGroup.
    eapply preserves_bind; [apply offline_getGroupById|]. intros group _.
    by apply preserves_ret.
  - unfold getRecentVersions.
    eapply preserves_bind; [apply offline_getAllGroups|]. intros groups _.
    by apply preserves_ret.
  - intros w HI. split; [done|]. unfold settle.
    destruct HI as (Hc & Hp & Hr). by rewrite Hp.
Qed.

End Offline.

(** X10. Without Supabase nothing goes out: from a world where Supabase is
    not configured and no promise is pending, no run of [versionStorage]
    calls makes a remote call or leaves a promise pending. *)
Theorem offline_always calls actions w :
  offline calls w -> offline calls (run actions w).
Proof.
  revert w. induction actions as [|a actions IH]; intros w HI; [done|].
  cbn. apply IH. by apply (offline_perform calls a w).
Qed.

Lemma offline_always_witness :
  remote_calls
    (run [CreatePromptGroup "Support Bot" "You are helpful." None (mkDbAnswers None None);
          SetVersionStatus "a1" production; DeleteGroup "H" true; GetAllGroups] world0)
  = [].
Proof.
  refine (proj2 (proj2 (offline_always [] _ world0 _))). by repeat split.
Defined.

(** ** What the reconciliation sends, and what a pull does *)

Lemma forEach_mono {A} (I : World -> Prop) (f : nat -> A -> M unit) :
  (forall i x w, I w -> I (f i x w).2) ->
  forall items i w, I w -> I (forEach f i items w).2.
Proof.
  intros Hf items. induction items as [|x items IH]; intros i w HI; [done|].
  cbn [forEach]. unfold bind.
  specialize (Hf i x w HI). destruct (f i x w) as [[] w']. by apply IH.
Qed.

Lemma forEach_reaches {A} (I : World -> Prop) (f : nat -> A -> M unit) x0 :
  (forall i x w, I w -> I (f i x w).2) ->
  (forall i w, I (f i x0 w).2) ->
  forall items i w, x0 ∈ items -> I (forEach f i items w).2.
Proof.
  intros Hmono Hx0 items. induction items as [|x items IH]; intros i w Hin.
  - by apply elem_of_nil in Hin.
  - cbn [forEach]. unfold bind. apply elem_of_cons in Hin as [<-|Hin].
    + specialize (Hx0 i w). destruct (f i x0 w) as [[] w'].
      by apply forEach_mono.
    + destruct (f i x w) as [[] w']. by apply IH.
Qed.

Lemma issue_logged c ks w : c ∈ remote_calls (issue c ks w).2.
Proof. cbn. apply elem_of_app. right. by apply list_elem_of_singleton. Qed.

Lemma issue_keeps_logged c c' ks w :
  c ∈ remote_calls w -> c ∈ remote_calls (issue c' ks w).2.
Proof. intros H. cbn. apply elem_of_app. by left. Qed.

Lemma syncToSupabase_step_keeps_logged c arr gi group w :
  c ∈ remote_calls w ->
  c ∈ remote_calls
    ((if negb (truthy (supabase_id group)) && bool_decide (0 < length (versions group))%nat then
        match versions group with
        | firstVersion :: _ =>
            issue (mkIssued (Some (v_id firstVersion))
                     (RCreateGroup (g_name group) (content firstVersion) (g_description group)))
                  [AfterCreateGroup arr gi]
        | [] => ret tt
        end
      else if truthy (supabase_id group) then
        bind (if _syncedVersionIds group is None
              then modify_group arr gi (set_syncedVersionIds (Some (IdSet ∅)))
              else ret tt)
          (fun _ =>
             forEach (fun vi version =>
               if already_synced (_syncedVersionIds group) (v_id version) then ret tt
               else
                 issue (mkIssued (Some (v_id version))
                          (RAddVersion (default "" (supabase_id group)) (v_name version)
                             (content version)))
                       [AfterAddVersion arr gi vi])
               0%nat (versions group))
      else ret tt) w).2.
Proof.
  intros Hc.
  destruct (negb (truthy (supabase_id group)) && _).
  { destruct (versions group); [done | by apply issue_keeps_logged]. }
  destruct (truthy (supabase_id group)); [|done].
  unfold bind.
  assert (H1 : c ∈ remote_calls
            ((if _syncedVersionIds group is None
              then modify_group arr gi (set_syncedVersionIds (Some (IdSet ∅)))
              else ret tt) w).2).
  { by destruct (_syncedVersionIds group). }
  destruct ((if _syncedVersionIds group is None
             then modify_group arr gi (set_syncedVersionIds (Some (IdSet ∅)))
             else ret tt) w) as [[] w1].
  apply (forEach_mono (fun w => c ∈ remote_calls w)); [|done].
  intros vi version w2 H2.
  destruct (already_synced _ _); [done | by apply issue_keeps_logged].
Qed.

Lemma syncToSupabase_pushes groups w g v :
  supabase_configured w = true ->
  g ∈ groups ->
  v ∈ versions g ->
  truthy (supabase_id g) = true ->
  already_synced (_syncedVersionIds g) (v_id v) = false ->
  mkIssued (Some (v_id v))
    (RAddVersion (default "" (supabase_id g)) (v_name v) (content v))
  ∈ remote_calls (syncToSupabase groups w).2.
Proof.
  intros Hconf Hg Hv Hsid Hsync.
  unfold syncToSupabase, bind, isSupabaseConfigured. rewrite Hconf.
  destruct (retain groups w) as [arr w0].
  set (c := mkIssued _ _).
  apply (forEach_reaches (fun w => c ∈ remote_calls w) _ g); [| |done].
  - intros gi group w1. apply syncToSupabase_step_keeps_logged.
  - intros gi w1. rewrite Hsid. cbn [negb andb]. unfold bind.
    destruct ((if _syncedVersionIds g is None
               then modify_group arr gi (set_syncedVersionIds (Some (IdSet ∅)))
               else ret tt) w1) as [[] w2].
    apply (forEach_reaches (fun w => c ∈ remote_calls w) _ v); [| |done].
    + intros vi version w3 H3.
      destruct (already_synced (_syncedVersionIds g) (v_id version));
        [done | by apply issue_keeps_logged].
    + intros vi w3. rewrite Hsync. apply issue_logged.
Qed.

Lemma syncToSupabase_creates groups w g firstVersion rest :
  supabase_configured w = true ->
  g ∈ groups ->
  versions g = firstVersion :: rest ->
  truthy (supabase_id g) = false ->
  mkIssued (Some (v_id firstVersion))
    (RCreateGroup (g_name g) (content firstVersion) (g_description g))
  ∈ remote_calls (syncToSupabase groups w).2.
Proof.
  intros Hconf Hg Hv Hsid.
  unfold syncToSupabase, bind, isSupabaseConfigured. rewrite Hconf.
  destruct (retain groups w) as [arr w0].
  set (c := mkIssued _ _).
  apply (forEach_reaches (fun w => c ∈ remote_calls w) _ g); [| |done].
  - intros gi group w1. apply syncToSupabase_step_keeps_logged.
  - intros gi w1. rewrite Hsid, Hv. cbn. apply elem_of_app. right.
    by apply list_elem_of_singleton.
Qed.

(** X11. What a push pass sends. With Supabase configured, [syncToSupabase]
    calls the remote [addVersion] for every version of a group that has a
    [supabase_id] unless the version is marked in [_syncedVersionIds], and the
    remote [createGroup], with the text of the first version, for every group
    that has versions but no [supabase_id]; a version whose groups all have a
    [supabase_id] and mark it is the cause of no new remote creation. Without
    Supabase the pass makes no call. *)
Theorem syncToSupabase_sends_what_is_unmarked :
  (forall groups w g v,
     supabase_configured w = true ->
     g ∈ groups -> v ∈ versions g ->
     truthy (supabase_id g) = true ->
     already_synced (_syncedVersionIds g) (v_id v) = false ->
     mkIssued (Some (v_id v))
       (RAddVersion (default "" (supabase_id g)) (v_name v) (content v))
     ∈ remote_calls (syncToSupabase groups w).2) ∧
  (forall groups w g firstVersion rest,
     supabase_configured w = true ->
     g ∈ groups -> versions g = firstVersion :: rest ->
     truthy (supabase_id g) = false ->
     mkIssued (Some (v_id firstVersion))
       (RCreateGroup (g_name g) (content firstVersion) (g_description g))
     ∈ remote_calls (syncToSupabase groups w).2) ∧
  (forall v groups w,
     Forall (fun g => contains v g ->
               truthy (supabase_id g) = true ∧
               already_synced (_syncedVersionIds g) v = true) groups ->
     creates_for v (syncToSupabase groups w).2 = creates_for v w) ∧
  (forall groups w,
     supabase_configured w = false ->
     remote_calls (syncToSupabase groups w).2 = remote_calls w).
Proof.
  split; [exact syncToSupabase_pushes|].
  split; [exact syncToSupabase_creates|].
  split; [exact syncToSupabase_skips_synced|].
  intros groups w Hconf. unfold syncToSupabase, bind, isSupabaseConfigured.
  by rewrite Hconf.
Qed.

Lemma syncToSupabase_sends_what_is_unmarked_witness :
  mkIssued (Some "a2") (RAddVersion "remote-G" "v2.0" "You are helpful.")
  ∈ remote_calls
      (syncToSupabase [set_supabase_id (Some "remote-G") group_G] pushed_world).2.
Proof.
  apply (proj1 syncToSupabase_sends_what_is_unmarked
           [set_supabase_id (Some "remote-G") group_G] pushed_world
           (set_supabase_id (Some "remote-G") group_G) (sample_version "a2" 2 current));
    try reflexivity.
  - apply list_elem_of_singleton. reflexivity.
  - apply list_elem_of_lookup. exists 1%nat. reflexivity.
Defined.

(** X12. A remote failure changes nothing locally: when a pending promise is
    rejected, or resolves to [null], its continuation writes nothing to the
    store, changes no array and makes no remote call. *)
Theorem settle_failure_is_silent n r w :
  r = Rejected ∨ r = Ident None ->
  ls_prompt_groups (settle n r w).2 = ls_prompt_groups w ∧
  arrays (settle n r w).2 = arrays w ∧
  remote_calls (settle n r w).2 = remote_calls w ∧
  pending (settle n r w).2 = delete n (pending w).
Proof.
  intros [-> | ->]; unfold settle.
  all: destruct (pending w !! n) as [[]|] eqn:Hn; cbn; repeat split; try done.
  all: apply lookup_ge_None in Hn.
  all: by rewrite delete_take_drop, take_ge, drop_ge, app_nil_r by lia.
Qed.

Lemma settle_failure_is_silent_witness :
  ls_prompt_groups (settle 1 Rejected (setVersionStatus "a1" draft unsynced_world).2).2
  = ls_prompt_groups (setVersionStatus "a1" draft unsynced_world).2.
Proof.
  apply (settle_failure_is_silent 1 Rejected). by left.
Defined.

(** X13. A pull replaces the store. With Supabase configured every read of
    the groups asks the remote service for all groups; when that promise
    resolves and the medium accepts the write, the store holds exactly the
    groups of the answer, so a group that the answer lacks is no longer
    found, whatever the store held. When the medium refuses the write the
    store keeps the groups it held. *)
Theorem pull_replaces_store gs w :
  supabase_configured w = true ->
  let w1 := (getAllGroups w).2 in
  let w2 := (settle (length (pending w)) (Groups gs) w1).2 in
  pending w1 = pending w ++ [AfterPull] ∧
  remote_calls w1 = remote_calls w ++ [mkIssued None RGetAllGroups] ∧
  (accepts 0 w ->
   stored w2 = map serializable gs ∧
   forall groupId,
     Forall (fun g => g_id g ≠ groupId) gs -> (getGroupById groupId w2).1 = None) ∧
  (¬ accepts 0 w -> ls_prompt_groups w2 = ls_prompt_groups w).
Proof.
  intros Hconf w1 w2.
  assert (Hw1 : w1 = (issue (mkIssued None RGetAllGroups) [AfterPull] w).2).
  { unfold w1, getAllGroups, syncFromSupabase, bind, isSupabaseConfigured.
    by rewrite Hconf. }
  assert (Hls : ls_prompt_groups w2
                = if ls_throws w (ls_writes w) then ls_prompt_groups w
                  else Some (map serializable gs)).
  { unfold w2, settle. rewrite Hw1. cbn [issue snd pending].
    rewrite lookup_app_r, Nat.sub_diag by done.
    cbn [lookup list_lookup run_continuation]. unfold bind, localStorage_set.
    cbn [ls_throws ls_writes]. by destruct (ls_throws w (ls_writes w)). }
  split; [by rewrite Hw1|]. split; [by rewrite Hw1|].
  unfold accepts. cbn [Nat.add].
  destruct (ls_throws w (ls_writes w)); [by split |].
  split; [| done]. intros _.
  assert (Hs : stored w2 = map serializable gs).
  { unfold stored. by rewrite Hls. }
  split; [done |].
  intros groupId Hg. apply getGroupById_not_found. rewrite Hs.
  apply Forall_fmap. eapply Forall_impl; [exact Hg|].
  intros g Hne. cbn. by rewrite serializable_id.
Qed.

Lemma pull_replaces_store_witness :
  (getGroupById "G"
     (settle (length (pending unsynced_world)) (Groups [])
        (getAllGroups unsynced_world).2).2).1 = None.
Proof.
  destruct (pull_replaces_store [] unsynced_world eq_refl) as (_ & _ & Hacc & _).
  destruct Hacc as [_ Hget]; [reflexivity |].
  apply Hget. constructor.
Defined.

Lemma setVersionStatus_runs_pass versionId st w i g k v :
  owner versionId (stored w) = Some i ->
  stored w !! i = Some g ->
  list_find (fun u => v_id u = versionId) (versions g) = Some (k, v) ->
  exists w',
    supabase_configured w' = supabase_configured w ∧
    (setVersionStatus versionId st w).2
    = (syncToSupabase
         (<[i := set_lastModified (clock w (clock_reads w))
                   (setVersionStatus_mutate versionId st k (rehydrate g))]>
            (map rehydrate (stored w))) w').2.
Proof.
  intros Hown Hi Hfind.
  apply owner_Some in Hown as (g0 & Hi0 & Hc & Hbefore).
  rewrite setVersionStatus_loop_op. unfold loop_op, bind.
  read_groups w Hl.
  rewrite for_groups_scan.
  destruct Hl as (Hls & Hconf & Hclock & Hreads & _). rewrite Hclock, Hreads.
  rewrite (scan_hit _ _ _ i (rehydrate g)
             (Some (setVersionStatus_mutate versionId st k (rehydrate g)))).
  - cbn [fmap option_fmap option_map]. unfold localStorage_set.
    match goal with
    | |- context [if ?c then _ else _] => destruct c
    end; cbn [fst snd];
    match goal with
    | |- context [syncToSupabase ?gs ?w1] =>
        exists w1; split; [exact Hconf|]; by destruct (syncToSupabase gs w1)
    end.
  - by rewrite list_lookup_fmap, Hi.
  - intros j gj Hj Hlt. rewrite list_lookup_fmap in Hj.
    destruct (stored w !! j) as [gj0|] eqn:Hj0; [|done]. injection Hj as <-.
    apply setVersionStatus_act_None. rewrite contains_rehydrate. by apply (Hbefore j).
  - unfold setVersionStatus_act, findIndex. by rewrite rehydrate_versions, Hfind.
Qed.

Lemma already_synced_rehydrate g i :
  already_synced (_syncedVersionIds (rehydrate g)) i
  = bool_decide (i ∈ synced_set (_syncedVersionIds g)).
Proof. by destruct g as [? ? ? ? ? ? ? ? ? ? [[]|]]. Qed.

Lemma status_versions_lookup st k vs p v :
  vs !! p = Some v ->
  exists v', status_versions st k vs !! p = Some v' ∧
    v_id v' = v_id v ∧ v_name v' = v_name v ∧ content v' = content v.
Proof.
  intros Hp. unfold status_versions. rewrite list_lookup_alter.
  assert (Hin : exists v', (match st with
                            | draft => vs
                            | _ => imap (fun idx u =>
                                     if decide (idx ≠ k ∧ status u = st)
                                     then set_status draft u else u) vs
                            end) !! p = Some v' ∧
                  v_id v' = v_id v ∧ v_name v' = v_name v ∧ content v' = content v).
  { destruct st; rewrite ?list_lookup_imap, Hp; cbn; [by exists v|..];
      case_decide; eexists; split; try reflexivity; done. }
  destruct Hin as (v' & Hv' & Hid & Hname & Hcontent).
  case_decide as Hk.
  - subst p. rewrite Hv'. cbn. eexists; split; [reflexivity|]. done.
  - by exists v'.
Qed.

Lemma setVersionStatus_mutate_fields versionId st k g :
  supabase_id (setVersionStatus_mutate versionId st k g) = supabase_id g ∧
  _syncedVersionIds (setVersionStatus_mutate versionId st k g) = _syncedVersionIds g.
Proof. by destruct st. Qed.

(** X14. Every status change sends what is unmarked. With Supabase
    configured, a [setVersionStatus] that finds its version makes a remote
    [addVersion] call for every version, in every stored group with a
    [supabase_id], that is not marked in [_syncedVersionIds]. A group as
    [convertGroupToLocal] builds it, which is what a pull stores, has a
    [supabase_id] and no mark: each of its rows is sent back as a new remote
    version. *)
Theorem setVersionStatus_sends_unmarked :
  (forall versionId st w i j g v,
     supabase_configured w = true ->
     owner versionId (stored w) = Some i ->
     stored w !! j = Some g ->
     truthy (supabase_id g) = true ->
     v ∈ versions g ->
     v_id v ∉ synced_set (_syncedVersionIds g) ->
     mkIssued (Some (v_id v))
       (RAddVersion (default "" (supabase_id g)) (v_name v) (content v))
     ∈ remote_calls (setVersionStatus versionId st w).2) ∧
  (forall versionId st w i j sg rows row,
     supabase_configured w = true ->
     owner versionId (stored w) = Some i ->
     stored w !! j = Some (convertGroupToLocal sg rows) ->
     sg_id sg ≠ "" ->
     row ∈ rows ->
     mkIssued (Some (sv_id row)) (RAddVersion (sg_id sg) (sv_name row) (sv_content row))
     ∈ remote_calls (setVersionStatus versionId st w).2).
Proof.
  assert (Hgen : forall versionId st w i j g v,
     supabase_configured w = true ->
     owner versionId (stored w) = Some i ->
     stored w !! j = Some g ->
     truthy (supabase_id g) = true ->
     v ∈ versions g ->
     v_id v ∉ synced_set (_syncedVersionIds g) ->
     mkIssued (Some (v_id v))
       (RAddVersion (default "" (supabase_id g)) (v_name v) (content v))
     ∈ remote_calls (setVersionStatus versionId st w).2).
  { intros versionId st w i j g v Hconf Hown Hj Hsid Hv Hun.
    pose proof Hown as Hown'.
    apply owner_Some in Hown' as (gi & Hi & Hc & _).
    destruct (list_find (fun u => v_id u = versionId) (versions gi)) as [[k vk]|] eqn:Hfind;
      [|by apply list_find_contains in Hfind].
    destruct (setVersionStatus_runs_pass versionId st w i gi k vk Hown Hi Hfind)
      as (w' & Hconf' & ->).
    rewrite <- Hconf' in Hconf.
    destruct (decide (j = i)) as [->|Hne].
    - assert (g = gi) as -> by congruence.
      apply list_elem_of_lookup in Hv as [p Hp].
      destruct (status_versions_lookup st k (versions gi) p v Hp)
        as (v' & Hv' & Hid & Hname & Hcontent).
      destruct (setVersionStatus_mutate_fields versionId st k (rehydrate gi)) as [Hs1 Hs2].
      rewrite <- Hid, <- Hname, <- Hcontent.
      set (g' := set_lastModified (clock w (clock_reads w))
                   (setVersionStatus_mutate versionId st k (rehydrate gi))).
      assert (Hsid' : supabase_id g' = supabase_id gi).
      { unfold g'. cbn [set_lastModified supabase_id]. rewrite Hs1.
        by destruct gi as [? ? ? ? ? ? ? ? ? ? [[]|]]. }
      rewrite <- Hsid'.
      apply (syncToSupabase_pushes _ w' g' v'); try done.
      + apply list_elem_of_lookup. exists i.
        apply list_lookup_insert_eq. rewrite length_map. by apply lookup_lt_Some in Hi.
      + apply list_elem_of_lookup. exists p.
        unfold g'. cbn [set_lastModified versions].
        by rewrite setVersionStatus_mutate_versions, rehydrate_versions.
      + by rewrite Hsid'.
      + unfold g'. cbn [set_lastModified _syncedVersionIds].
        rewrite Hs2, already_synced_rehydrate, Hid. by apply bool_decide_eq_false.
    - assert (Hsid' : supabase_id (rehydrate g) = supabase_id g).
      { by destruct g as [? ? ? ? ? ? ? ? ? ? [[]|]]. }
      rewrite <- Hsid'.
      apply (syncToSupabase_pushes _ w' (rehydrate g) v); try done.
      + apply list_elem_of_lookup. exists j.
        rewrite list_lookup_insert_ne by done. by rewrite list_lookup_fmap, Hj.
      + by rewrite rehydrate_versions.
      + by rewrite Hsid'.
      + rewrite already_synced_rehydrate. by apply bool_decide_eq_false. }
  split; [exact Hgen|].
  intros versionId st w i j sg rows row Hconf Hown Hj Hid Hrow.
  apply list_elem_of_lookup in Hrow as [p Hp].
  set (v := mkVersion (sv_id row) (sv_group_id row) (Some (Z.of_nat p + 1)) (sv_name row)
              (sv_content row) None (sv_status row) None (sv_created_at row) None).
  apply (Hgen versionId st w i j (convertGroupToLocal sg rows) v); try done.
  - cbn. destruct (String.eqb_spec (sg_id sg) ""); done.
  - apply list_elem_of_lookup. exists p. cbn [convertGroupToLocal versions].
    by rewrite list_lookup_imap, Hp.
Qed.

Lemma setVersionStatus_sends_unmarked_witness :
  mkIssued (Some "a2") (RAddVersion "remote-G" "v2.0" "You are helpful.")
  ∈ remote_calls (setVersionStatus "a1" current pushed_world).2.
Proof.
  apply (proj1 setVersionStatus_sends_unmarked "a1" current pushed_world 0%nat 0%nat
           (set_supabase_id (Some "remote-G") group_G) (sample_version "a2" 2 current));
    try reflexivity.
  - apply list_elem_of_lookup. exists 1%nat. reflexivity.
  - cbn. apply not_elem_of_empty.
Defined.

(** ** Groups as the remote service gives them *)

Lemma count_versions_imap st (F : nat -> SupabasePromptVersion -> PromptVersion) rows :
  (forall i r, status (F i r) = sv_status r) ->
  count_versions st (imap F rows) = length (filter (fun r => sv_status r = st) rows).
Proof.
  revert F. induction rows as [|r rows IH]; intros F HF; [done|].
  cbn [imap]. rewrite count_versions_cons, filter_cons, HF.
  rewrite (IH (F ∘ S)) by (intros i r'; apply HF).
  by destruct (decide (sv_status r = st)).
Qed.

Lemma find_Some_lookup {A} (P : A -> Prop) `{!forall x, Decision (P x)} (l : list A) x :
  find P l = Some x -> exists i, l !! i = Some x ∧ P x.
Proof.
  unfold find. destruct (list_find P l) as [[i y]|] eqn:Hf; [|done].
  intros [= <-]. apply list_find_Some in Hf as (Hi & HP & _). by exists i.
Qed.

Lemma find_None_Forall {A} (P : A -> Prop) `{!forall x, Decision (P x)} (l : list A) :
  find P l = None -> Forall (fun x => ¬ P x) l.
Proof.
  unfold find. destruct (list_find P l) as [[i y]|] eqn:Hf; [done|].
  intros _. by apply list_find_None in Hf.
Qed.

(** X15. What [convertGroupToLocal] makes of a remote group and its rows:
    the versions are the rows in their order, numbered 1, 2, ... by position;
    the group carries the remote identifier as [id] and as [supabase_id] and
    no [_syncedVersionIds]. If at most one row is current and at most one is
    in production, statuses and pointers agree in the result. If no row is
    current or in production, [currentVersionId] names the first row (it is
    empty when there is no row) and there is no [productionVersionId]. *)
Theorem convertGroupToLocal_shape sg rows :
  let g := convertGroupToLocal sg rows in
  length (versions g) = length rows ∧
  (forall i row, rows !! i = Some row ->
     exists v, versions g !! i = Some v ∧
       version v = Some (Z.of_nat i + 1) ∧
       (v_id v, promptId v, v_name v, content v, status v, v_timestamp v)
       = (sv_id row, sv_group_id row, sv_name row, sv_content row, sv_status row,
          sv_created_at row)) ∧
  g_id g = sg_id sg ∧ supabase_id g = Some (sg_id sg) ∧ _syncedVersionIds g = None ∧
  ((length (filter (fun r => sv_status r = current) rows) <= 1)%nat ->
   (length (filter (fun r => sv_status r = production) rows) <= 1)%nat ->
   pointers_ok g) ∧
  (Forall (fun r => sv_status r = draft) rows ->
   currentVersionId g = default "" (sv_id <$> head rows) ∧
   productionVersionId g = None).
Proof.
  cbn zeta.
  set (F := fun (index : nat) (v : SupabasePromptVersion) =>
         mkVersion (sv_id v) (sv_group_id v) (Some (Z.of_nat index + 1)) (sv_name v)
           (sv_content v) None (sv_status v) None (sv_created_at v) None).
  assert (Hv : versions (convertGroupToLocal sg rows) = imap F rows) by done.
  assert (Hcount : forall st,
            count_status st (convertGroupToLocal sg rows)
            = length (filter (fun r => sv_status r = st) rows)).
  { intros st. unfold count_status. rewrite Hv. by apply count_versions_imap. }
  split; [by rewrite Hv, length_imap|].
  split.
  { intros i row Hi. exists (F i row). by rewrite Hv, list_lookup_imap, Hi. }
  split; [done|]. split; [done|]. split; [done|]. split.
  - intros Hc Hp. rewrite <- Hcount in Hc, Hp.
    split; [done|]. split; [done|].
    unfold count_status in Hc, Hp. rewrite count_le_one in Hc, Hp.
    rewrite !Forall_lookup. rewrite Hv in *. split.
    + intros i u Hi Hu. cbn [convertGroupToLocal currentVersionId]. fold F.
      destruct (find (fun v => status v = current) (imap F rows)) as [u'|] eqn:Hf.
      * apply find_Some_lookup in Hf as (i' & Hi' & Hu').
        assert (i = i') as <- by by eapply Hc. rewrite Hi in Hi'. injection Hi' as <-.
        cbn. apply or_else_empty.
      * apply find_None_Forall in Hf.
        by destruct (Forall_lookup_1 _ _ _ _ Hf Hi).
    + intros i u Hi Hu. cbn [convertGroupToLocal productionVersionId]. fold F.
      destruct (find (fun v => status v = production) (imap F rows)) as [u'|] eqn:Hf.
      * apply find_Some_lookup in Hf as (i' & Hi' & Hu').
        assert (i = i') as <- by by eapply Hp. rewrite Hi in Hi'. by injection Hi' as <-.
      * apply find_None_Forall in Hf.
        by destruct (Forall_lookup_1 _ _ _ _ Hf Hi).
  - intros Hd.
    assert (Hnone : forall st, st ≠ draft ->
              find (fun v => status v = st) (imap F rows) = None).
    { intros st Hst. unfold find. apply fmap_None, list_find_None.
      apply Forall_lookup_2. intros i u. rewrite list_lookup_imap.
      destruct (rows !! i) as [r|] eqn:Hi; [|done]. intros [= <-]. cbn.
      rewrite (Forall_lookup_1 _ _ _ _ Hd Hi). congruence. }
    cbn [convertGroupToLocal currentVersionId productionVersionId]. fold F.
    rewrite !Hnone by done. split; [|done].
    destruct rows as [|r rows']; [done|]. cbn. apply or_else_empty.
Qed.

Lemma convertGroupToLocal_shape_witness :
  pointers_ok
    (convertGroupToLocal (mkSupabaseGroup "remote-G" "Support Bot" None 1700000000000 1700000000000)
       [mkSupabaseVersion "r2" "remote-G" "v2" "Be brief." draft 1700000000002;
        mkSupabaseVersion "r1" "remote-G" "v1" "You are helpful." current 1700000000001]).
Proof.
  apply convertGroupToLocal_shape; vm_compute; lia.
Defined.

(** ** The favourites *)

Lemma localStorage_set_item_spec {T} (set_item : option T -> Shelf -> Shelf) (value : T) ws :
  localStorage_set_item set_item value ws
  = (negb (ls_throws ws.1 (ls_writes ws.1)), put set_item (Some value) ws).
Proof. unfold localStorage_set_item, put. by destruct (ls_throws ws.1 (ls_writes ws.1)). Qed.

Lemma localStorage_remove_item_spec {T} (set_item : option T -> Shelf -> Shelf) ws :
  localStorage_remove_item set_item ws
  = (negb (ls_throws ws.1 (ls_writes ws.1)), put set_item None ws).
Proof. unfold localStorage_remove_item, put. by destruct (ls_throws ws.1 (ls_writes ws.1)). Qed.



Lemma favoritesStorage_isFavorite_spec promptId ws :
  favoritesStorage_isFavorite promptId ws
  = (bool_decide (promptId ∈ favorites_of (shelf ws)), ws).
Proof. done. Qed.





(** ** The prompts and the recent list *)

Lemma promptStorage_save_spec prompt ws :
  let id := decimal (clock ws.1 (clock_reads ws.1)) +:+ "_"
            +:+ random ws.1 (random_draws ws.1) in
  let promptData :=
    mkPrompt id (in_originalPrompt prompt) (in_improvedPrompt prompt) (in_context prompt)
      (in_files prompt) (clock ws.1 (S (clock_reads ws.1))) (in_type prompt) in
  let ws' := (promptStorage_save prompt ws).2 in
  (promptStorage_save prompt ws).1 = id ∧
  prompts_of (shelf ws')
  = (if ls_throws ws.1 (ls_writes ws.1) then prompts_of (shelf ws)
     else prompts_of (shelf ws) ++ [promptData]) ∧
  recent_of (shelf ws')
  = (if ls_throws ws.1 (S (ls_writes ws.1)) then recent_of (shelf ws)
     else slice0 10
            (promptData
             :: filter (fun p => p_id p ≠ id) (slice0 20 (recent_of (shelf ws))))) ∧
  favorites_of (shelf ws') = favorites_of (shelf ws) ∧
  ls_throws ws'.1 = ls_throws ws.1.
Proof.
  destruct ws as [w s].
  unfold promptStorage_save, promptStorage_updateRecent, promptStorage_getRecent,
    promptStorage_getAll, bindS, retS, lift, localStorage_get_item, localStorage_set_item.
  cbn.
  destruct (ls_throws w (ls_writes w)); cbn; by destruct (ls_throws w (S (ls_writes w))).
Qed.

Lemma promptStorage_delete_spec id ws :
  let ws' := (promptStorage_delete id ws).2 in
  (promptStorage_delete id ws).1 = true ∧
  prompts_of (shelf ws')
  = (if ls_throws ws.1 (ls_writes ws.1) then prompts_of (shelf ws)
     else filter (fun p => p_id p ≠ id) (prompts_of (shelf ws))) ∧
  recent_of (shelf ws')
  = (if ls_throws ws.1 (S (ls_writes ws.1)) then recent_of (shelf ws)
     else filter (fun p => p_id p ≠ id) (slice0 20 (recent_of (shelf ws)))) ∧
  favorites_of (shelf ws') = favorites_of (shelf ws) ∧
  ls_throws ws'.1 = ls_throws ws.1.
Proof.
  destruct ws as [w s].
  unfold promptStorage_delete, promptStorage_getRecent, promptStorage_getAll, bindS, retS,
    localStorage_get_item, localStorage_set_item.
  cbn.
  destruct (ls_throws w (ls_writes w)); cbn; by destruct (ls_throws w (S (ls_writes w))).
Qed.

Lemma promptStorage_getById_spec id ws :
  promptStorage_getById id ws = (find (fun p => p_id p = id) (prompts_of (shelf ws)), ws).
Proof. done. Qed.

Lemma slice0_sublist {A} limit (l : list A) : slice0 limit l `sublist_of` l.
Proof. unfold slice0. case_bool_decide; apply sublist_take. Qed.

Lemma find_app_l {A} (P : A -> Prop) `{!forall x, Decision (P x)} (l1 l2 : list A) x :
  find P l1 = Some x -> find P (l1 ++ l2) = Some x.
Proof.
  unfold find. destruct (list_find P l1) as [[i y]|] eqn:Hf; [|done].
  intros [= <-]. by rewrite (list_find_app_l P l1 l2 i y Hf).
Qed.

Lemma find_app_r {A} (P : A -> Prop) `{!forall x, Decision (P x)} (l1 l2 : list A) :
  Forall (fun x => ¬ P x) l1 -> find P (l1 ++ l2) = find P l2.
Proof.
  intros Hl. unfold find. rewrite list_find_app_r by by apply list_find_None.
  by destruct (list_find P l2) as [[i y]|].
Qed.

Lemma find_filter_other {A} (P Q : A -> Prop)
    `{!forall x, Decision (P x), !forall x, Decision (Q x)} (l : list A) :
  (forall x, P x -> Q x) -> find P (filter Q l) = find P l.
Proof.
  intros HPQ. unfold find. induction l as [|x l IH]; [done|].
  rewrite filter_cons. destruct (decide (Q x)) as [HQ|HQ].
  - cbn. destruct (decide (P x)); [done|].
    destruct (list_find P (filter Q l)) as [[]|], (list_find P l) as [[]|];
      cbn in *; congruence.
  - cbn. rewrite decide_False by (intros HP; by apply HQ, HPQ).
    rewrite IH. by destruct (list_find P l) as [[]|].
Qed.

Lemma find_filter_None {A} (P : A -> Prop) `{!forall x, Decision (P x)} (l : list A) :
  find P (filter (fun x => ¬ P x) l) = None.
Proof.
  unfold find. apply fmap_None, list_find_None, Forall_forall.
  by intros x [Hx _]%list_elem_of_filter.
Qed.

(** X17. [promptStorage.save] returns the identifier under which it builds
    the prompt, with the time of the call, and makes two writes. When the
    medium accepts the first, the prompt is appended to the stored prompts,
    and [getById] finds it under its identifier if no stored prompt had that
    identifier; when it refuses the first, the stored prompts are as they
    were. When the medium accepts the second, the prompt is at the head of
    the recent list, which then holds at most 10 prompts; when it refuses the
    second, the recent list is as it was. In every case a stored prompt that
    had the new identifier is still the one found under it, and prompts under
    other identifiers are found as before. *)
Theorem promptStorage_save_stores prompt ws :
  let id := (promptStorage_save prompt ws).1 in
  let ws' := (promptStorage_save prompt ws).2 in
  exists promptData,
    (p_id promptData, originalPrompt promptData, improvedPrompt promptData,
     p_context promptData, files promptData, p_type promptData)
    = (id, in_originalPrompt prompt, in_improvedPrompt prompt, in_context prompt,
       in_files prompt, in_type prompt) ∧
    p_timestamp promptData = clock ws.1 (S (clock_reads ws.1)) ∧
    (accepts 0 ws.1 ->
     prompts_of (shelf ws') = prompts_of (shelf ws) ++ [promptData] ∧
     (Forall (fun p => p_id p ≠ id) (prompts_of (shelf ws)) ->
      (promptStorage_getById id ws').1 = Some promptData)) ∧
    (¬ accepts 0 ws.1 -> prompts_of (shelf ws') = prompts_of (shelf ws)) ∧
    (accepts 1 ws.1 ->
     head (recent_of (shelf ws')) = Some promptData ∧
     (length (recent_of (shelf ws')) <= 10)%nat) ∧
    (¬ accepts 1 ws.1 -> recent_of (shelf ws') = recent_of (shelf ws)) ∧
    (forall p, (promptStorage_getById id ws).1 = Some p ->
       (promptStorage_getById id ws').1 = Some p) ∧
    (forall other, other ≠ id ->
       (promptStorage_getById other ws').1 = (promptStorage_getById other ws).1).
Proof.
  destruct (promptStorage_save_spec prompt ws) as (Hid & Hp & Hr & _). cbn zeta in *.
  rewrite Hid. rewrite !promptStorage_getById_spec. cbn [fst].
  set (id := decimal (clock ws.1 (clock_reads ws.1)) +:+ "_"
             +:+ random ws.1 (random_draws ws.1)) in *.
  set (promptData :=
         mkPrompt id (in_originalPrompt prompt) (in_improvedPrompt prompt)
           (in_context prompt) (in_files prompt) (clock ws.1 (S (clock_reads ws.1)))
           (in_type prompt)) in *.
  rewrite Hp, Hr. unfold accepts. cbn [Nat.add].
  exists promptData. split; [done|]. split; [done|].
  split.
  { intros ->. split; [done |]. intros Hfresh. rewrite find_app_r by done.
    unfold find. cbn. by rewrite decide_True. }
  split; [intros Hno; by destruct (ls_throws ws.1 (ls_writes ws.1)) |].
  split.
  { intros ->. split; [done |]. rewrite length_slice0. case_bool_decide; lia. }
  split; [intros Hno; by destruct (ls_throws ws.1 (S (ls_writes ws.1))) |].
  split.
  - intros p Hf. destruct (ls_throws ws.1 (ls_writes ws.1)); [done |]. by apply find_app_l.
  - intros other Hne. rewrite !promptStorage_getById_spec. cbn [fst]. rewrite Hp.
    destruct (ls_throws ws.1 (ls_writes ws.1)); [done |].
    destruct (find (fun p => p_id p = other) (prompts_of (shelf ws))) as [p|] eqn:Hf.
    + by apply find_app_l.
    + apply find_None_Forall in Hf. rewrite find_app_r by done. unfold find. cbn.
      by rewrite decide_False.
Qed.

Lemma promptStorage_save_stores_witness :
  exists promptData,
    (promptStorage_getById "1700000000001_r0"
       (promptStorage_save
          (mkPromptInput (Some "Summarise this.") None None None PromptType.generated)
          (world0, empty_shelf)).2).1 = Some promptData ∧
    originalPrompt promptData = Some "Summarise this.".
Proof.
  destruct (promptStorage_save_stores
              (mkPromptInput (Some "Summarise this.") None None None PromptType.generated)
              (world0, empty_shelf))
    as (promptData & Hfields & _ & Hacc & _).
  destruct Hacc as [_ Hfind]; [reflexivity |].
  exists promptData. split.
  - apply Hfind. constructor.
  - by injection Hfields.
Defined.

Lemma favoritesStorage_getFavoritePrompts_spec ws :
  favoritesStorage_getFavoritePrompts ws
  = (filter (fun p => p_id p ∈ favorites_of (shelf ws)) (prompts_of (shelf ws)), ws).
Proof. done. Qed.

(** X18. [promptStorage.delete] answers [true] whether or not a prompt had
    the identifier, and whether or not its two writes are accepted. When the
    medium accepts the first, no stored prompt has the identifier afterwards,
    so [getById] finds nothing under it and [getFavoritePrompts] lists no
    prompt for it any more; when it refuses the first, the stored prompts are
    as they were. When the medium accepts the second, no recent prompt has
    the identifier; when it refuses the second, the recent list is as it
    was. In every case the other prompts are found as before and the
    favourites are not touched: the identifier stays a favourite if it was
    one. *)
Theorem promptStorage_delete_removes id ws :
  let ws' := (promptStorage_delete id ws).2 in
  (promptStorage_delete id ws).1 = true ∧
  (accepts 0 ws.1 ->
   prompts_of (shelf ws') = filter (fun p => p_id p ≠ id) (prompts_of (shelf ws)) ∧
   (promptStorage_getById id ws').1 = None ∧
   (favoritesStorage_getFavoritePrompts ws').1
   = filter (fun p => p_id p ≠ id) (favoritesStorage_getFavoritePrompts ws).1) ∧
  (¬ accepts 0 ws.1 -> prompts_of (shelf ws') = prompts_of (shelf ws)) ∧
  (accepts 1 ws.1 -> Forall (fun p => p_id p ≠ id) (recent_of (shelf ws'))) ∧
  (¬ accepts 1 ws.1 -> recent_of (shelf ws') = recent_of (shelf ws)) ∧
  (forall other, other ≠ id ->
     (promptStorage_getById other ws').1 = (promptStorage_getById other ws).1) ∧
  (favoritesStorage_isFavorite id ws').1 = (favoritesStorage_isFavorite id ws).1.
Proof.
  destruct (promptStorage_delete_spec id ws) as (Hres & Hp & Hr & Hfav & _). cbn zeta in *.
  rewrite !promptStorage_getById_spec, !favoritesStorage_isFavorite_spec,
    !favoritesStorage_getFavoritePrompts_spec.
  cbn [fst]. rewrite Hp, Hr, Hfav. unfold accepts. cbn [Nat.add].
  split; [done|]. split.
  { intros ->. split; [done |]. split.
    - apply (find_filter_None (fun p => p_id p = id)).
    - rewrite !list_filter_filter. apply list_filter_iff. tauto. }
  split; [intros Hno; by destruct (ls_throws ws.1 (ls_writes ws.1)) |].
  split.
  { intros ->. apply Forall_forall. by intros p [Hne _]%list_elem_of_filter. }
  split; [intros Hno; by destruct (ls_throws ws.1 (S (ls_writes ws.1))) |].
  split; [| done].
  intros other Hne. rewrite !promptStorage_getById_spec. cbn [fst]. rewrite Hp.
  destruct (ls_throws ws.1 (ls_writes ws.1)); [done |].
  apply find_filter_other. intros p <-. done.
Qed.

Lemma promptStorage_delete_removes_witness :
  (promptStorage_getById "p1"
     (promptStorage_delete "p1"
        (world0, set_ls_prompts
                   (Some [mkPrompt "p1" None None None None 5 PromptType.improved;
                          mkPrompt "p2" None None None None 6 PromptType.improved])
                   empty_shelf)).2).1
  = None.
Proof.
  destruct (promptStorage_delete_removes "p1"
              (world0, set_ls_prompts
                         (Some [mkPrompt "p1" None None None None 5 PromptType.improved;
                                mkPrompt "p2" None None None None 6 PromptType.improved])
                         empty_shelf))
    as (_ & Hacc & _).
  destruct Hacc as (_ & Hget & _); [reflexivity |]. exact Hget.
Defined.

(** The length and the identifiers of the recent list, which every call
    keeps; [recent_ok] adds that the recent prompts are stored. *)
Lemma recent_short_save prompt ws :
  (length (recent_of (shelf ws)) <= 10)%nat ∧ NoDup (p_id <$> recent_of (shelf ws)) ->
  (length (recent_of (shelf (promptStorage_save prompt ws).2)) <= 10)%nat ∧
  NoDup (p_id <$> recent_of (shelf (promptStorage_save prompt ws).2)).
Proof.
  intros [Hlen Hnd].
  destruct (promptStorage_save_spec prompt ws) as (_ & _ & Hr & _). cbn zeta in Hr.
  rewrite Hr. destruct (ls_throws ws.1 (S (ls_writes ws.1))); [done |]. split.
  - rewrite length_slice0. case_bool_decide; lia.
  - eapply sublist_NoDup; [|apply fmap_sublist, slice0_sublist].
    cbn. apply NoDup_cons. split.
    + intros (p & Hid & Hin)%list_elem_of_fmap.
      by apply list_elem_of_filter in Hin as [Hne _].
    + eapply sublist_NoDup; [exact Hnd|]. apply fmap_sublist.
      etrans; [apply sublist_filter | apply slice0_sublist].
Qed.

Lemma recent_short_delete id ws :
  (length (recent_of (shelf ws)) <= 10)%nat ∧ NoDup (p_id <$> recent_of (shelf ws)) ->
  (length (recent_of (shelf (promptStorage_delete id ws).2)) <= 10)%nat ∧
  NoDup (p_id <$> recent_of (shelf (promptStorage_delete id ws).2)).
Proof.
  intros [Hlen Hnd].
  destruct (promptStorage_delete_spec id ws) as (_ & _ & Hr & _). cbn zeta in Hr.
  rewrite Hr. destruct (ls_throws ws.1 (S (ls_writes ws.1))); [done |].
  assert (HF : filter (fun p => p_id p ≠ id) (slice0 20 (recent_of (shelf ws)))
               `sublist_of` recent_of (shelf ws)).
  { etrans; [apply sublist_filter | apply slice0_sublist]. }
  split.
  - apply sublist_length in HF. lia.
  - eapply sublist_NoDup; [exact Hnd|]. by apply fmap_sublist.
Qed.

Lemma recent_ok_save prompt ws :
  accepting ws.1 ->
  recent_ok (shelf ws) -> recent_ok (shelf (promptStorage_save prompt ws).2).
Proof.
  intros Hacc (Hlen & Hnd & Hsub).
  destruct (recent_short_save prompt ws (conj Hlen Hnd)) as [Hlen' Hnd'].
  split; [done |]. split; [done |].
  destruct (promptStorage_save_spec prompt ws) as (_ & Hp & Hr & _). cbn zeta in Hp, Hr.
  rewrite Hp, Hr, !Hacc.
  intros p Hin. apply (sublist_subseteq _ _ (slice0_sublist _ _)) in Hin.
  apply elem_of_cons in Hin as [->|Hin].
  - apply elem_of_app. right. by apply list_elem_of_singleton.
  - apply elem_of_app. left. apply Hsub.
    apply list_elem_of_filter in Hin as [_ Hin].
    by apply (sublist_subseteq _ _ (slice0_sublist _ _)) in Hin.
Qed.

Lemma recent_ok_delete id ws :
  accepting ws.1 ->
  recent_ok (shelf ws) -> recent_ok (shelf (promptStorage_delete id ws).2).
Proof.
  intros Hacc (Hlen & Hnd & Hsub).
  destruct (recent_short_delete id ws (conj Hlen Hnd)) as [Hlen' Hnd'].
  split; [done |]. split; [done |].
  destruct (promptStorage_delete_spec id ws) as (_ & Hp & Hr & _). cbn zeta in Hp, Hr.
  rewrite Hp, Hr, !Hacc.
  intros p Hin. apply list_elem_of_filter in Hin as [Hne Hin].
  apply list_elem_of_filter. split; [done |]. apply Hsub.
  by apply (sublist_subseteq _ _ (slice0_sublist _ _)) in Hin.
Qed.

Lemma perform_prompt_throws a ws : ls_throws (perform_prompt a ws).1 = ls_throws ws.1.
Proof.
  destruct a as [prompt | id]; cbn [perform_prompt].
  - by destruct (promptStorage_save_spec prompt ws) as (_ & _ & _ & _ & H).
  - by destruct (promptStorage_delete_spec id ws) as (_ & _ & _ & _ & H).
Qed.

(** X19. The recent list stays in order. Along any run of
    [promptStorage.save] and [promptStorage.delete] calls, whatever writes the
    medium refuses, a recent list that holds at most 10 prompts and names no
    identifier twice still does so afterwards. When the medium accepts every
    write, a recent list that moreover holds stored prompts only still does
    so afterwards. *)
Theorem recent_ok_always actions ws :
  ((length (recent_of (shelf ws)) <= 10)%nat ∧ NoDup (p_id <$> recent_of (shelf ws)) ->
   (length (recent_of (shelf (run_prompts actions ws))) <= 10)%nat ∧
   NoDup (p_id <$> recent_of (shelf (run_prompts actions ws)))) ∧
  (accepting ws.1 -> recent_ok (shelf ws) -> recent_ok (shelf (run_prompts actions ws))).
Proof.
  revert ws. induction actions as [|a actions IH]; intros ws; [done|].
  cbn [run_prompts foldl]. fold (run_prompts actions (perform_prompt a ws)).
  destruct (IH (perform_prompt a ws)) as [IH1 IH2]. split.
  - intros Hshort. apply IH1.
    destruct a; [by apply recent_short_save | by apply recent_short_delete].
  - intros Hacc Hok. apply IH2.
    + intros n. rewrite perform_prompt_throws. apply Hacc.
    + destruct a; [by apply recent_ok_save | by apply recent_ok_delete].
Qed.

Lemma recent_ok_always_witness :
  recent_ok
    (shelf (run_prompts
              [Save (mkPromptInput (Some "Summarise this.") None None None PromptType.generated);
               Delete "1700000000001_r0";
               Save (mkPromptInput None (Some "Be brief.") None None PromptType.improved)]
              (world0, empty_shelf))).
Proof.
  apply recent_ok_always.
  - intros n. reflexivity.
  - split; [cbn; lia|]. split; [constructor|]. intros p Hp. exact Hp.
Defined.

(** ** Preferences, clean-up and analyses *)

Lemma preferencesStorage_update_spec updates ws :
  let current := default default_preferences (ls_preferences (shelf ws)) in
  preferencesStorage_update updates ws
  = (negb (ls_throws ws.1 (ls_writes ws.1)),
     put set_ls_preferences
       (Some (mkPreferences (default (theme current) (pu_theme updates))
                (default (autoAnalyze current) (pu_autoAnalyze updates))
                (default (maxFileSize current) (pu_maxFileSize updates))
                (default (maxHistoryItems current) (pu_maxHistoryItems updates)))) ws).
Proof.
  cbn zeta.
  unfold preferencesStorage_update, bindS, preferencesStorage_get, localStorage_get_item.
  cbn [fst snd]. apply localStorage_set_item_spec.
Qed.

Lemma bool_decide_accepts k w :
  bool_decide (accepts k w) = negb (ls_throws w (k + ls_writes w)).
Proof.
  destruct (ls_throws w (k + ls_writes w)) eqn:Hthrows; cbn [negb];
    [apply bool_decide_eq_false_2 | apply bool_decide_eq_true_2];
    unfold accepts; congruence.
Qed.

(** X20. The preferences round trip. With nothing stored [get] gives the
    defaults (theme [system], [autoAnalyze] on, 10 MB, 100 items). [update]
    answers [true] exactly when its write is accepted; then [get] gives
    afterwards, field by field, the value given, or else the value [get] gave
    before. When the write is refused [update] answers [false] and the items
    are as they were. [reset] likewise answers [true] exactly when the removal
    is accepted, and then [get] gives the defaults again; a refused [reset]
    answers [false] and leaves the items as they were. *)
Theorem preferences_round_trip updates ws :
  let before := (preferencesStorage_get ws).1 in
  let ws' := (preferencesStorage_update updates ws).2 in
  (ls_preferences (shelf ws) = None ->
   before = mkPreferences system true 10485760 100) ∧
  (preferencesStorage_update updates ws).1 = bool_decide (accepts 0 ws.1) ∧
  (accepts 0 ws.1 ->
   (preferencesStorage_get ws').1
   = mkPreferences (default (theme before) (pu_theme updates))
       (default (autoAnalyze before) (pu_autoAnalyze updates))
       (default (maxFileSize before) (pu_maxFileSize updates))
       (default (maxHistoryItems before) (pu_maxHistoryItems updates))) ∧
  (¬ accepts 0 ws.1 -> shelf ws' = shelf ws) ∧
  (preferencesStorage_reset ws).1 = bool_decide (accepts 0 ws.1) ∧
  (accepts 0 ws.1 ->
   (preferencesStorage_get (preferencesStorage_reset ws).2).1
   = mkPreferences system true 10485760 100) ∧
  (¬ accepts 0 ws.1 -> shelf (preferencesStorage_reset ws).2 = shelf ws) ∧
  (preferencesStorage_reset ws').1 = bool_decide (accepts 1 ws.1) ∧
  (accepts 1 ws.1 ->
   (preferencesStorage_get (preferencesStorage_reset ws').2).1
   = mkPreferences system true 10485760 100).
Proof.
  cbn zeta. rewrite preferencesStorage_update_spec.
  unfold preferencesStorage_reset. rewrite !localStorage_remove_item_spec.
  rewrite !bool_decide_accepts.
  unfold accepts, put, preferencesStorage_get, localStorage_get_item, shelf.
  destruct ws as [w s]. cbn [fst snd Nat.add written ls_throws ls_writes].
  split; [by intros ->|].
  destruct (ls_throws w (ls_writes w)) eqn:H0.
  all: repeat split; try done.
  all: intros H1; by rewrite H1.
Qed.

Lemma preferences_round_trip_witness :
  (preferencesStorage_get (world0, empty_shelf)).1 = mkPreferences system true 10485760 100 ∧
  (preferencesStorage_get
     (preferencesStorage_update (mkPreferenceUpdates (Some dark) None None None)
        (world0, empty_shelf)).2).1
  = mkPreferences dark true 10485760 100.
Proof.
  destruct (preferences_round_trip (mkPreferenceUpdates (Some dark) None None None)
              (world0, empty_shelf)) as (Hdefault & _ & Hupdated & _).
  split.
  - apply Hdefault. reflexivity.
  - apply Hupdated. reflexivity.
Defined.

Lemma filter_Forall_id {A} (P : A -> Prop) `{!forall x, Decision (P x)} (l : list A) :
  Forall P l -> filter P l = l.
Proof.
  induction 1 as [|x l Hx Hl IH]; [done|]. by rewrite filter_cons_True, IH.
Qed.

Lemma length_filter_complement {A} (P : A -> Prop) `{!forall x, Decision (P x)} (l : list A) :
  Z.of_nat (length l) - Z.of_nat (length (filter P l))
  = Z.of_nat (length (filter (fun x => ¬ P x) l)).
Proof.
  rewrite <- (Permutation_length (filter_app_complement P l)) at 1.
  rewrite length_app. lia.
Qed.

Lemma storageManager_cleanup_spec olderThanDays ws :
  let cutoff := clock ws.1 (clock_reads ws.1)
                - default 30 olderThanDays * 24 * 60 * 60 * 1000 in
  let recentPrompts := filter (fun p => cutoff < p_timestamp p) (prompts_of (shelf ws)) in
  let recentAnalyses := filter (fun a => cutoff < a_timestamp a) (analyses_of (shelf ws)) in
  let old_prompts := bool_decide (length recentPrompts ≠ length (prompts_of (shelf ws))) in
  let old_analyses := bool_decide (length recentAnalyses ≠ length (analyses_of (shelf ws))) in
  (storageManager_cleanup olderThanDays ws).1
  = (if old_prompts
     then 0 + (Z.of_nat (length (prompts_of (shelf ws))) - Z.of_nat (length recentPrompts))
     else 0)
    + (if old_analyses
       then Z.of_nat (length (analyses_of (shelf ws))) - Z.of_nat (length recentAnalyses)
       else 0) ∧
  shelf (storageManager_cleanup olderThanDays ws).2
  = (if old_analyses
        && negb (ls_throws ws.1 (if old_prompts then S (ls_writes ws.1) else ls_writes ws.1))
     then set_ls_analyses (Some recentAnalyses) else fun s => s)
      ((if old_prompts && negb (ls_throws ws.1 (ls_writes ws.1))
        then set_ls_prompts (Some recentPrompts) else fun s => s) (shelf ws)).
Proof.
  destruct ws as [w s]. cbn zeta.
  unfold storageManager_cleanup, bindS, lift, Date_now, promptStorage_getAll,
    analysisStorage_getAll, localStorage_get_item, localStorage_set_item, retS,
    prompts_of, analyses_of, shelf.
  unfold tick. cbn [fst snd ls_throws ls_writes].
  case_bool_decide; cbn [fst snd andb negb written ls_throws ls_writes];
    [destruct (ls_throws w (ls_writes w))|];
    cbn [fst snd andb negb written ls_throws ls_writes ls_analyses set_ls_prompts];
    (case_bool_decide; cbn [fst snd andb negb written ls_throws ls_writes];
     [match goal with |- context [if ls_throws w ?n then _ else _] => destruct (ls_throws w n) end|]);
    cbn [fst snd andb negb]; split; first [done | lia].
Qed.

(** X21. [storageManager.cleanup] answers with the number of prompts and
    analyses whose timestamp is not later than the time of the call minus
    [olderThanDays] days (30 when not given), whether or not its writes are
    accepted. When the write of the prompts is accepted, exactly the later
    prompts are kept, and when it is refused the prompts are as they were;
    when both writes are accepted, exactly the later analyses are kept as
    well. It does not touch the recent list, the favourites or the
    preferences, so a dropped prompt can stay in the recent list; when
    nothing is old it writes nothing. *)
Theorem storageManager_cleanup_drops_old olderThanDays ws :
  let cutoff := clock ws.1 (clock_reads ws.1) - default 30 olderThanDays * 86400000 in
  let ws' := (storageManager_cleanup olderThanDays ws).2 in
  (accepts 0 ws.1 ->
   prompts_of (shelf ws')
   = filter (fun p => cutoff < p_timestamp p) (prompts_of (shelf ws))) ∧
  (¬ accepts 0 ws.1 -> prompts_of (shelf ws') = prompts_of (shelf ws)) ∧
  (accepts 0 ws.1 -> accepts 1 ws.1 ->
   analyses_of (shelf ws')
   = filter (fun a => cutoff < a_timestamp a) (analyses_of (shelf ws))) ∧
  (¬ accepts 0 ws.1 -> ¬ accepts 1 ws.1 -> shelf ws' = shelf ws) ∧
  (storageManager_cleanup olderThanDays ws).1
  = Z.of_nat (length (filter (fun p => ¬ cutoff < p_timestamp p) (prompts_of (shelf ws))))
    + Z.of_nat (length (filter (fun a => ¬ cutoff < a_timestamp a) (analyses_of (shelf ws)))) ∧
  (ls_recent (shelf ws'), ls_favorites (shelf ws'), ls_preferences (shelf ws'))
  = (ls_recent (shelf ws), ls_favorites (shelf ws), ls_preferences (shelf ws)) ∧
  (Forall (fun p => cutoff < p_timestamp p) (prompts_of (shelf ws)) ->
   Forall (fun a => cutoff < a_timestamp a) (analyses_of (shelf ws)) ->
   shelf ws' = shelf ws).
Proof.
  destruct (storageManager_cleanup_spec olderThanDays ws) as [Hres Hs]. cbn zeta in *.
  replace (default 30 olderThanDays * 24 * 60 * 60 * 1000)
    with (default 30 olderThanDays * 86400000) in * by lia.
  set (cutoff := clock ws.1 (clock_reads ws.1) - default 30 olderThanDays * 86400000) in *.
  rewrite Hres, Hs. clear Hres Hs.
  rewrite <- !length_filter_complement.
  unfold accepts. cbn [Nat.add].
  set (P := prompts_of (shelf ws)). set (A := analyses_of (shelf ws)).
  set (rp := filter (fun p => cutoff < p_timestamp p) P).
  set (ra := filter (fun a => cutoff < a_timestamp a) A).
  assert (HP : bool_decide (length rp ≠ length P) = false -> rp = P).
  { intros Hb%bool_decide_eq_false%dec_stable. unfold rp in *.
    apply filter_Forall_id. exact (proj1 (length_filter_all _ _) Hb). }
  assert (HA : bool_decide (length ra ≠ length A) = false -> ra = A).
  { intros Hb%bool_decide_eq_false%dec_stable. unfold ra in *.
    apply filter_Forall_id. exact (proj1 (length_filter_all _ _) Hb). }
  assert (HP' : Forall (fun p => cutoff < p_timestamp p) P ->
                bool_decide (length rp ≠ length P) = false).
  { intros HF. apply bool_decide_eq_false_2. intros Hne. apply Hne.
    unfold rp. by rewrite filter_Forall_id. }
  assert (HA' : Forall (fun a => cutoff < a_timestamp a) A ->
                bool_decide (length ra ≠ length A) = false).
  { intros HF. apply bool_decide_eq_false_2. intros Hne. apply Hne.
    unfold ra. by rewrite filter_Forall_id. }
  split; [|split; [|split; [|split; [|split; [|split]]]]].
  - intros H0. rewrite H0.
    destruct (bool_decide (length rp ≠ length P)) eqn:Hb1; cbn [andb negb].
    + by destruct (_ && _).
    + rewrite HP by done. by destruct (_ && _).
  - intros H0%not_false_is_true. rewrite H0, andb_false_r. by destruct (_ && _).
  - intros H0 H1. rewrite H0.
    destruct (bool_decide (length rp ≠ length P)) eqn:Hb1;
      destruct (bool_decide (length ra ≠ length A)) eqn:Hb2;
      rewrite ?H0, ?H1; cbn [andb negb]; first [done | by rewrite HA].
  - intros H0%not_false_is_true H1%not_false_is_true. rewrite H0, andb_false_r.
    destruct (bool_decide (length rp ≠ length P)) eqn:Hb1;
      rewrite ?H0, ?H1, andb_false_r; done.
  - destruct (bool_decide (length rp ≠ length P)) eqn:Hb1;
      destruct (bool_decide (length ra ≠ length A)) eqn:Hb2;
      rewrite ?HP, ?HA by done; lia.
  - by do 2 destruct (_ && _).
  - intros Hp Ha. by rewrite HP', HA'.
Qed.

Lemma storageManager_cleanup_drops_old_witness :
  prompts_of
    (shelf (storageManager_cleanup None
              (world0, set_ls_prompts
                         (Some [mkPrompt "p1" None None None None 1600000000000
                                  PromptType.improved;
                                mkPrompt "p2" None None None None 1699999999999
                                  PromptType.improved])
                         empty_shelf)).2)
  = [mkPrompt "p2" None None None None 1699999999999 PromptType.improved].
Proof.
  apply (storageManager_cleanup_drops_old None
           (world0, set_ls_prompts
                      (Some [mkPrompt "p1" None None None None 1600000000000
                               PromptType.improved;
                             mkPrompt "p2" None None None None 1699999999999
                               PromptType.improved])
                      empty_shelf)).
  reflexivity.
Defined.

Lemma analysisStorage_save_spec analysis ws :
  let id := decimal (clock ws.1 (clock_reads ws.1)) +:+ "_"
            +:+ random ws.1 (random_draws ws.1) in
  let analysisData :=
    mkAnalysis id (in_promptId analysis) (in_summary analysis) (in_improvements analysis)
      (in_metrics analysis) (in_beforeAfterAnalysis analysis) (in_recommendations analysis)
      (clock ws.1 (S (clock_reads ws.1))) in
  (analysisStorage_save analysis ws).1 = id ∧
  shelf (analysisStorage_save analysis ws).2
  = if ls_throws ws.1 (ls_writes ws.1) then shelf ws
    else set_ls_analyses (Some (analyses_of (shelf ws) ++ [analysisData])) (shelf ws).
Proof.
  destruct ws as [w s]. cbn zeta.
  unfold analysisStorage_save, bindS, lift, generateId, Date_now,
    analysisStorage_getAll, localStorage_get_item, localStorage_set_item, retS, shelf.
  cbn. by destruct (ls_throws w (ls_writes w)).
Qed.

Lemma analysisStorage_getByPromptId_spec promptId ws :
  analysisStorage_getByPromptId promptId ws
  = (find (fun a => a_promptId a = promptId) (analyses_of (shelf ws)), ws).
Proof. done. Qed.

(** X22. The first analysis of a prompt wins. [analysisStorage.save] builds
    the analysis under the identifier it returns and with the time of the
    call, and returns that identifier whether or not the write is accepted.
    When the write is refused the items are as they were. When it is
    accepted the analysis is appended, and [getByPromptId], which gives the
    first stored analysis of a prompt, gives afterwards the analysis it gave
    before if there was one, and the new one only if the prompt had none;
    what it gives for other prompts does not change. *)
Theorem analysisStorage_first_analysis_wins analysis ws :
  let id := (analysisStorage_save analysis ws).1 in
  let ws' := (analysisStorage_save analysis ws).2 in
  exists analysisData,
    (a_id analysisData, a_promptId analysisData, summary analysisData,
     improvements analysisData, metrics analysisData, beforeAfterAnalysis analysisData,
     recommendations analysisData, a_timestamp analysisData)
    = (id, in_promptId analysis, in_summary analysis, in_improvements analysis,
       in_metrics analysis, in_beforeAfterAnalysis analysis, in_recommendations analysis,
       clock ws.1 (S (clock_reads ws.1))) ∧
    (¬ accepts 0 ws.1 -> shelf ws' = shelf ws) ∧
    (accepts 0 ws.1 ->
     analyses_of (shelf ws') = analyses_of (shelf ws) ++ [analysisData] ∧
     (forall a, (analysisStorage_getByPromptId (in_promptId analysis) ws).1 = Some a ->
        (analysisStorage_getByPromptId (in_promptId analysis) ws').1 = Some a) ∧
     ((analysisStorage_getByPromptId (in_promptId analysis) ws).1 = None ->
      (analysisStorage_getByPromptId (in_promptId analysis) ws').1 = Some analysisData) ∧
     (forall other, other ≠ in_promptId analysis ->
        (analysisStorage_getByPromptId other ws').1
        = (analysisStorage_getByPromptId other ws).1)).
Proof.
  destruct (analysisStorage_save_spec analysis ws) as [Hid Hs]. cbn zeta in *.
  rewrite Hid.
  set (analysisData := mkAnalysis _ _ _ _ _ _ _ _) in Hs.
  exists analysisData. split; [done|].
  unfold accepts. cbn [Nat.add].
  split; [intros H0%not_false_is_true; by rewrite Hs, H0|].
  intros H0. rewrite H0 in Hs.
  assert (Ha : analyses_of (shelf (analysisStorage_save analysis ws).2)
               = analyses_of (shelf ws) ++ [analysisData]) by by rewrite Hs.
  split; [done|].
  split; [|split].
  - intros a. rewrite !analysisStorage_getByPromptId_spec. cbn [fst]. rewrite Ha.
    apply find_app_l.
  - rewrite !analysisStorage_getByPromptId_spec. cbn [fst]. rewrite Ha.
    intros Hf%find_None_Forall. rewrite find_app_r by done. unfold find. cbn.
    by rewrite decide_True.
  - intros other Hne. rewrite !analysisStorage_getByPromptId_spec. cbn [fst]. rewrite Ha.
    destruct (find (fun a => a_promptId a = other) (analyses_of (shelf ws)))
      as [a|] eqn:Hf.
    + by apply find_app_l.
    + apply find_None_Forall in Hf. rewrite find_app_r by done. unfold find. cbn.
      rewrite decide_False; [done|]. by intros <-.
Qed.

Lemma analysisStorage_first_analysis_wins_witness :
  exists analysisData,
    (analysisStorage_getByPromptId "p1"
       (analysisStorage_save
          (mkAnalysisInput "p1" "Clearer." [] (mkMetrics 7 6 8 7) (mkBeforeAfter [] [] [] [])
             [])
          (world0, empty_shelf)).2).1 = Some analysisData ∧
    a_id analysisData = "1700000000001_r0".
Proof.
  destruct (analysisStorage_first_analysis_wins
              (mkAnalysisInput "p1" "Clearer." [] (mkMetrics 7 6 8 7)
                 (mkBeforeAfter [] [] [] []) [])
              (world0, empty_shelf))
    as (analysisData & Hfields & _ & Haccepted).
  destruct (Haccepted eq_refl) as (_ & _ & Hnew & _).
  exists analysisData. split.
  - apply Hnew. reflexivity.
  - by injection Hfields.
Defined.

(** X23. [analysisStorage.getRecent] changes nothing in the store. Its
    result is ordered by descending timestamp and is a leading part of the
    stored analyses so ordered: what is left out is not newer than what is
    returned. Its length is the smaller of [limit] (5 when not given) and the
    number of analyses; a negative [limit] drops that many from the end
    instead. *)
Theorem analysisStorage_getRecent_newest limit ws :
  let r := (analysisStorage_getRecent limit ws).1 in
  let n := default 5 limit in
  (analysisStorage_getRecent limit ws).2 = ws ∧
  StronglySorted (fun a b => a_timestamp b <= a_timestamp a) r ∧
  length r
  = (if bool_decide (n < 0) then (length (analyses_of (shelf ws)) - Z.to_nat (- n))%nat
     else Nat.min (Z.to_nat n) (length (analyses_of (shelf ws)))) ∧
  exists rest,
    r ++ rest ≡ₚ analyses_of (shelf ws) ∧
    forall x y, x ∈ r -> y ∈ rest -> a_timestamp y <= a_timestamp x.
Proof.
  cbn zeta.
  assert (Hr : analysisStorage_getRecent limit ws
               = (slice0 (default 5 limit) (sort_by a_timestamp (analyses_of (shelf ws))),
                  ws)) by done.
  rewrite Hr. cbn [fst snd].
  destruct (slice0_prefix (default 5 limit) (sort_by a_timestamp (analyses_of (shelf ws))))
    as [rest Hrest].
  pose proof (sort_by_sorted a_timestamp (analyses_of (shelf ws))) as Hs.
  rewrite <- Hrest in Hs.
  split; [done|]. split; [by apply StronglySorted_app_1_l in Hs|].
  split; [by rewrite length_slice0, (Permutation_length (sort_by_perm a_timestamp _))|].
  exists rest. split.
  - by rewrite Hrest, sort_by_perm.
  - intros x y Hx Hy. exact (StronglySorted_app_1_elem_of _ _ _ _ _ Hs Hx Hy).
Qed.

Lemma analysisStorage_getRecent_newest_witness :
  exists rest,
    (analysisStorage_getRecent (Some 1)
       (world0, set_ls_analyses
                  (Some [mkAnalysis "a1" "p1" "" [] (mkMetrics 1 1 1 1)
                           (mkBeforeAfter [] [] [] []) [] 5;
                         mkAnalysis "a2" "p1" "" [] (mkMetrics 1 1 1 1)
                           (mkBeforeAfter [] [] [] []) [] 9])
                  empty_shelf)).1 ++ rest
    ≡ₚ [mkAnalysis "a1" "p1" "" [] (mkMetrics 1 1 1 1) (mkBeforeAfter [] [] [] []) [] 5;
        mkAnalysis "a2" "p1" "" [] (mkMetrics 1 1 1 1) (mkBeforeAfter [] [] [] []) [] 9].
Proof.
  destruct (analysisStorage_getRecent_newest (Some 1)
       (world0, set_ls_analyses
                  (Some [mkAnalysis "a1" "p1" "" [] (mkMetrics 1 1 1 1)
                           (mkBeforeAfter [] [] [] []) [] 5;
                         mkAnalysis "a2" "p1" "" [] (mkMetrics 1 1 1 1)
                           (mkBeforeAfter [] [] [] []) [] 9])
                  empty_shelf)) as (_ & _ & _ & rest & Hperm & _).
  exists rest. exact Hperm.
Defined.

(** ** The remote read of all groups, and searching *)

Lemma versionsByGroup_step_lookup (acc : gmap string (list SupabasePromptVersion))
    version gid :
  default [] (alter (fun rows => rows ++ [version]) (sv_group_id version)
                (if acc !! sv_group_id version is None
                 then <[sv_group_id version := []]> acc else acc) !! gid)
  = default [] (acc !! gid)
    ++ (if decide (sv_group_id version = gid) then [version] else []).
Proof.
  destruct (decide (sv_group_id version = gid)) as [<-|Hne].
  - rewrite lookup_alter_eq.
    destruct (acc !! sv_group_id version) as [rows|] eqn:Hk.
    + by rewrite Hk.
    + by rewrite lookup_insert_eq.
  - rewrite lookup_alter_ne by done. rewrite app_nil_r.
    destruct (acc !! sv_group_id version); [done|].
    by rewrite lookup_insert_ne.
Qed.

Lemma versionsByGroup_thrown versions : foldl versionsByGroup_step None versions = None.
Proof. by induction versions. Qed.

Lemma versionsByGroup_None versions :
  Exists (fun v => inherited (sv_group_id v)) versions -> versionsByGroup versions = None.
Proof.
  unfold versionsByGroup.
  generalize (∅ : gmap string (list SupabasePromptVersion)).
  induction versions as [|v vs IH]; intros acc Hex; [by apply Exists_nil in Hex|].
  cbn [foldl]. unfold versionsByGroup_step at 2. cbn [mbind option_bind].
  destruct (decide (inherited (sv_group_id v))) as [Hv|Hv].
  - apply versionsByGroup_thrown.
  - apply IH. by apply Exists_cons in Hex as [?|?].
Qed.

Lemma versionsByGroup_lookup versions :
  Forall (fun v => ¬ inherited (sv_group_id v)) versions ->
  exists acc, versionsByGroup versions = Some acc ∧
    forall gid, default [] (acc !! gid) = filter (fun v => sv_group_id v = gid) versions.
Proof.
  unfold versionsByGroup. intros Hall.
  assert (H : forall acc0 : gmap string (list SupabasePromptVersion),
            exists acc, foldl versionsByGroup_step (Some acc0) versions = Some acc ∧
              forall gid, default [] (acc !! gid)
                          = default [] (acc0 !! gid)
                            ++ filter (fun v => sv_group_id v = gid) versions).
  { induction Hall as [|v vs Hv Hvs IH]; intros acc0.
    - exists acc0. split; [done|]. intros gid. by rewrite app_nil_r.
    - cbn [foldl]. unfold versionsByGroup_step at 2. cbn [mbind option_bind].
      rewrite decide_False by done. cbn zeta.
      destruct (IH (alter (fun rows => rows ++ [v]) (sv_group_id v)
                      (if acc0 !! sv_group_id v is None
                       then <[sv_group_id v := []]> acc0 else acc0))) as (acc & Hacc & Hl).
      exists acc. split; [exact Hacc|]. intros gid.
      rewrite Hl, versionsByGroup_step_lookup, filter_cons, <- app_assoc.
      by destruct (decide _). }
  destruct (H ∅) as (acc & Hacc & Hl). exists acc. split; [exact Hacc|].
  intros gid. by rewrite Hl, lookup_empty.
Qed.

(** What [getAllGroups] answers when both [select] succeed. *)
Lemma supabase_getAllGroups_rows groups rows :
  supabase_getAllGroups (DbData (Some groups)) (DbData rows)
  = if decide (Forall (fun v => ¬ inherited (sv_group_id v)) (default [] rows)
               ∧ Forall (fun group => ¬ inherited (sg_id group)) groups)
    then Some (map (fun group =>
                      convertGroupToLocal group
                        (filter (fun v => sv_group_id v = sg_id group) (default [] rows)))
                 groups)
    else None.
Proof.
  unfold supabase_getAllGroups.
  destruct (decide (Forall (fun v => ¬ inherited (sv_group_id v)) (default [] rows)))
    as [Hrows|Hrows].
  - destruct (versionsByGroup_lookup _ Hrows) as (acc & -> & Hl). cbn [mbind option_bind].
    destruct (decide (Forall (fun group => ¬ inherited (sg_id group)) groups))
      as [Hgroups|Hgroups].
    + rewrite decide_True by done. apply mapM_Some_2.
      apply Forall2_fmap_r, Forall_Forall2_diag.
      eapply Forall_impl; [exact Hgroups|]. intros group Hg. cbn beta in *.
      by rewrite decide_False, Hl.
    + rewrite decide_False by tauto. apply mapM_None.
      apply not_Forall_Exists in Hgroups; [|apply _].
      eapply Exists_impl; [exact Hgroups|]. intros group Hg. cbn beta in *.
      apply dec_stable in Hg. by rewrite decide_True.
  - rewrite decide_False by tauto.
    apply not_Forall_Exists in Hrows; [|apply _].
    rewrite versionsByGroup_None; [done|].
    eapply Exists_impl; [exact Hrows|]. intros v Hv. by apply dec_stable in Hv.
Qed.

Lemma convertGroupToLocal_promptId group rows v :
  v ∈ versions (convertGroupToLocal group rows) ->
  Forall (fun row => sv_group_id row = sg_id group) rows ->
  promptId v = sg_id group.
Proof.
  cbn [convertGroupToLocal versions]. intros Hv Hrows.
  apply list_elem_of_lookup in Hv as [i Hi].
  rewrite list_lookup_imap in Hi.
  destruct (rows !! i) as [row|] eqn:Hrow; [|done].
  injection Hi as <-. cbn.
  by apply (Forall_lookup_1 _ _ _ _ Hrows Hrow).
Qed.

(** X24. The remote [getAllGroups] sorts the version rows into their groups.
    An error of either [select] rejects the promise and [null] for the groups
    gives no group. When both succeed, the promise is also rejected if a
    version row carries, or a group row has, an identifier that is the name
    of a property every object inherits ([constructor], [__proto__],
    [toString], ...). Otherwise there is one group per group row, in the
    order of the answer, and each is [convertGroupToLocal] of its row and of
    exactly the version rows that carry its identifier, in the order of the
    answer: a version row of no answered group is dropped. Every version of a
    resulting group names that group as its [promptId]. *)
Theorem supabase_getAllGroups_groups_rows groups version_rows :
  supabase_getAllGroups DbError version_rows = None ∧
  supabase_getAllGroups (DbData (Some groups)) DbError = None ∧
  supabase_getAllGroups (DbData None) version_rows = Some [] ∧
  forall rows,
    supabase_getAllGroups (DbData (Some groups)) (DbData rows)
    = (if decide (Forall (fun v => ¬ inherited (sv_group_id v)) (default [] rows)
                  ∧ Forall (fun group => ¬ inherited (sg_id group)) groups)
       then Some (map (fun group =>
                         convertGroupToLocal group
                           (filter (fun v => sv_group_id v = sg_id group) (default [] rows)))
                    groups)
       else None) ∧
    forall result g v,
      supabase_getAllGroups (DbData (Some groups)) (DbData rows) = Some result ->
      g ∈ result -> v ∈ versions g -> promptId v = g_id g.
Proof.
  split; [done|]. split; [done|]. split; [done|].
  intros rows. split; [apply supabase_getAllGroups_rows|].
  intros result g v Hres Hg Hv. rewrite supabase_getAllGroups_rows in Hres.
  destruct (decide _) as [_|_]; [|done]. injection Hres as <-.
  apply list_elem_of_fmap in Hg as (group & -> & _).
  apply (convertGroupToLocal_promptId _ _ _ Hv).
  apply Forall_forall. by intros row [? _]%list_elem_of_filter.
Qed.

Lemma supabase_getAllGroups_groups_rows_witness :
  promptId
    (mkVersion "r1" "remote-G" (Some 1) "v1" "You are helpful." None current None
       1700000000001 None) = "remote-G".
Proof.
  pose (sg := mkSupabaseGroup "remote-G" "Support Bot" None 1700000000000 1700000000000).
  pose (rows := [mkSupabaseVersion "r9" "remote-H" "v1" "Stray." draft 1700000000003;
                 mkSupabaseVersion "r1" "remote-G" "v1" "You are helpful." current
                   1700000000001]).
  destruct (supabase_getAllGroups_groups_rows [sg] (DbData None)) as (_ & _ & _ & Hrows).
  destruct (Hrows (Some rows)) as [_ Hin].
  apply (Hin [convertGroupToLocal sg (filter (fun v => sv_group_id v = sg_id sg) rows)]
           (convertGroupToLocal sg (filter (fun v => sv_group_id v = sg_id sg) rows))).
  - vm_compute. reflexivity.
  - apply list_elem_of_singleton. reflexivity.
  - apply list_elem_of_singleton. reflexivity.
Defined.

Lemma includes_empty s : includes s "" = true.
Proof. by destruct s. Qed.

Lemma searchVersions_filter (toLowerCase : string -> string) query w :
  (searchVersions toLowerCase query w).1
  = filter (fun gv : PromptGroup * PromptVersion =>
              includes (toLowerCase (content gv.2)) (toLowerCase query)
              || includes (toLowerCase (v_name gv.2)) (toLowerCase query)
              || includes_opt toLowerCase (v_description gv.2) (toLowerCase query)
              || includes (toLowerCase (g_name gv.1)) (toLowerCase query) = true)
      (allVersions (map rehydrate (stored w))) ∧
  same_local w (searchVersions toLowerCase query w).2.
Proof.
  unfold searchVersions, bind, ret. read_groups w Hl. split; [|exact Hl].
  set (C := fun gv : PromptGroup * PromptVersion =>
              includes (toLowerCase (content gv.2)) (toLowerCase query)
              || includes (toLowerCase (v_name gv.2)) (toLowerCase query)
              || includes_opt toLowerCase (v_description gv.2) (toLowerCase query)
              || includes (toLowerCase (g_name gv.1)) (toLowerCase query)).
  rewrite allVersions_bind.
  assert (Hin : forall (g : PromptGroup) (vs : list PromptVersion) acc,
            foldl (fun results version =>
                     if C (g, version) then results ++ [(g, version)] else results) acc vs
            = acc ++ filter (fun gv => C gv = true) (pair g <$> vs)).
  { intros g vs. induction vs as [|v vs IH]; intros acc.
    - by rewrite app_nil_r.
    - cbn [foldl fmap list_fmap]. rewrite IH, filter_cons.
      destruct (C (g, v)) eqn:HC.
      + rewrite decide_True by done. by rewrite <- app_assoc.
      + by rewrite decide_False by done. }
  assert (Hout : forall (gs : list PromptGroup) acc,
            foldl (fun results group =>
                     foldl (fun results version =>
                              if C (group, version) then results ++ [(group, version)]
                              else results) results (versions group)) acc gs
            = acc ++ filter (fun gv => C gv = true)
                       (gs ≫= (fun g => pair g <$> versions g))).
  { induction gs as [|g gs IH]; intros acc.
    - by rewrite app_nil_r.
    - cbn [foldl]. rewrite IH, Hin. rewrite bind_cons, filter_app.
      by rewrite <- app_assoc. }
  exact (Hout _ []).
Qed.

(** X25. [searchVersions] never writes the store. Its hits are
    (group, version) pairs of the store, in stored order; when the query, in
    lower case, occurs in the lower-cased name of a group, every version of
    that group is a hit; a query whose lower case is empty hits every
    version. *)
Theorem searchVersions_hits (toLowerCase : string -> string) query w :
  let r := (searchVersions toLowerCase query w).1 in
  let every := allVersions (map rehydrate (stored w)) in
  ls_prompt_groups (searchVersions toLowerCase query w).2 = ls_prompt_groups w ∧
  r `sublist_of` every ∧
  (forall g v, (g, v) ∈ every ->
     includes (toLowerCase (g_name g)) (toLowerCase query) = true -> (g, v) ∈ r) ∧
  (toLowerCase query = "" -> r = every).
Proof.
  destruct (searchVersions_filter toLowerCase query w) as [Hr Hl]. cbn zeta.
  rewrite Hr. split; [apply Hl|]. split; [apply sublist_filter|]. split.
  - intros g v Hin Hname. apply list_elem_of_filter. split; [|done].
    cbn [fst snd]. rewrite Hname. by rewrite !orb_true_r.
  - intros Hq. rewrite Hq. apply filter_Forall_id, Forall_forall.
    intros gv _. by rewrite includes_empty.
Qed.

Lemma searchVersions_hits_witness :
  (searchVersions ascii_toLowerCase "" world0).1
  = allVersions (map rehydrate (stored world0)).
Proof.
  apply (searchVersions_hits ascii_toLowerCase "" world0). reflexivity.
Defined.

(** X26. [promptStorage.search] returns stored prompts in stored order and
    only prompts that have an original text, an improved text or a context: a
    prompt with none of the three is found by no query. A query whose lower
    case is empty finds exactly the prompts that have one of the three. *)
Theorem promptStorage_search_needs_text (toLowerCase : string -> string) query ws :
  let r := (promptStorage_search toLowerCase query ws).1 in
  (promptStorage_search toLowerCase query ws).2 = ws ∧
  r `sublist_of` prompts_of (shelf ws) ∧
  Forall (fun p => originalPrompt p ≠ None ∨ improvedPrompt p ≠ None ∨ p_context p ≠ None) r ∧
  (toLowerCase query = "" ->
   r = filter (fun p => originalPrompt p ≠ None ∨ improvedPrompt p ≠ None
                        ∨ p_context p ≠ None) (prompts_of (shelf ws))).
Proof.
  cbn zeta.
  assert (Hr : promptStorage_search toLowerCase query ws
    = (filter (fun p =>
                 includes_opt toLowerCase (originalPrompt p) (toLowerCase query)
                 || includes_opt toLowerCase (improvedPrompt p) (toLowerCase query)
                 || includes_opt toLowerCase (p_context p) (toLowerCase query) = true)
         (prompts_of (shelf ws)), ws)) by done.
  rewrite Hr. cbn [fst snd]. split; [done|]. split; [apply sublist_filter|]. split.
  - apply Forall_forall. intros p [Hp _]%list_elem_of_filter.
    destruct (originalPrompt p), (improvedPrompt p), (p_context p); cbn in Hp; auto.
  - intros Hq. rewrite Hq. apply list_filter_iff. intros p.
    destruct (originalPrompt p), (improvedPrompt p), (p_context p); cbn;
      rewrite ?includes_empty; cbn; split; auto; try discriminate.
    intros [H|[H|H]]; done.
Qed.

Lemma promptStorage_search_needs_text_witness :
  (promptStorage_search ascii_toLowerCase ""
     (world0, set_ls_prompts
                (Some [mkPrompt "p1" None None None None 5 PromptType.improved;
                       mkPrompt "p2" (Some "Hello") None None None 6 PromptType.improved])
                empty_shelf)).1
  = [mkPrompt "p2" (Some "Hello") None None None 6 PromptType.improved].
Proof.
  rewrite (proj2 (proj2 (proj2 (promptStorage_search_needs_text ascii_toLowerCase ""
     (world0, set_ls_prompts
                (Some [mkPrompt "p1" None None None None 5 PromptType.improved;
                       mkPrompt "p2" (Some "Hello") None None None 6 PromptType.improved])
                empty_shelf)))) eq_refl).
  reflexivity.
Defined.

(** ** What a settled push leaves in the store *)

Lemma settle_AfterAddVersion_stored n arr gi vi result_id w groups g version :
  pending w !! n = Some (AfterAddVersion arr gi vi) ->
  arrays w !! arr = Some groups ->
  groups !! gi = Some g ->
  versions g !! vi = Some version ->
  ls_prompt_groups (settle n (Ident (Some result_id)) w).2
  = if ls_throws w (ls_writes w) then ls_prompt_groups w
    else Some (map serializable
                 (alter (fun group => set_syncedVersionIds
                                        (mark_synced (v_id version) (_syncedVersionIds group))
                                        group)
                    gi groups)).
Proof.
  intros Hn Harr Hgi Hvi. unfold settle. rewrite Hn.
  unfold run_continuation, bind, read_array. cbn [fst snd arrays].
  rewrite Harr. change (default [] (Some groups)) with groups.
  rewrite Hgi. cbn [mbind option_bind]. rewrite Hvi.
  unfold modify_group. cbn [fst snd arrays].
  rewrite list_lookup_alter_eq, Harr.
  change (default [] (alter _ gi <$> Some groups)) with
    (alter (fun group => set_syncedVersionIds
                           (mark_synced (v_id version) (_syncedVersionIds group)) group)
           gi groups).
  unfold localStorage_set. cbn [fst snd ls_throws ls_writes].
  destruct (ls_throws w (ls_writes w)).
  all: match goal with
       | |- context [push_status ?r ?v ?w0] =>
           pose proof (push_status_same_local r v w0) as Hp;
           destruct (push_status r v w0) as [[] w1]
       end.
  all: cbn [fst snd] in *; destruct Hp as [Hp _]; by etrans; [exact Hp|].
Qed.

Lemma settle_AfterCreateGroup_stored n arr gi supabaseGroup_id w groups :
  pending w !! n = Some (AfterCreateGroup arr gi) ->
  arrays w !! arr = Some groups ->
  ls_prompt_groups (settle n (Ident (Some supabaseGroup_id)) w).2
  = if ls_throws w (ls_writes w) then ls_prompt_groups w
    else Some (map serializable (alter (set_supabase_id (Some supabaseGroup_id)) gi groups)).
Proof.
  intros Hn Harr. unfold settle. rewrite Hn.
  unfold run_continuation, bind, read_array, modify_group. cbn [fst snd arrays].
  rewrite list_lookup_alter_eq, Harr.
  change (default [] (alter _ gi <$> Some groups)) with
    (alter (set_supabase_id (Some supabaseGroup_id)) gi groups).
  unfold localStorage_set. cbn [fst snd ls_throws ls_writes].
  destruct (ls_throws w (ls_writes w)).
  all: match goal with
       | |- ls_prompt_groups (?m ?w0).2 = _ =>
           assert (Hl : same_local w0 (m w0).2)
       end.
  all: try (destruct (alter _ gi groups !! gi) as [group|]; [|apply same_local_refl];
            case_bool_decide; [|apply same_local_refl];
            apply forEach_same_local; intros vi version w1; apply issue_same_local).
  all: destruct Hl as [Hl _]; by etrans; [exact Hl|].
Qed.

(** X27. A push that succeeds writes back the groups of its pass. When the
    remote [addVersion], respectively [createGroup], of a push pass resolves
    with a result and the write is accepted, the store becomes the array of
    groups that the pass was given, with the version marked as synced,
    respectively the [supabase_id] set, in its group: it does not depend on
    what the store holds at that moment, so what was written since the pass
    began is lost. When the write is refused the store is as it was. *)
Theorem settled_push_writes_back_its_pass :
  (forall n arr gi vi result_id w groups g version,
     pending w !! n = Some (AfterAddVersion arr gi vi) ->
     arrays w !! arr = Some groups ->
     groups !! gi = Some g ->
     versions g !! vi = Some version ->
     (accepts 0 w ->
      stored (settle n (Ident (Some result_id)) w).2
      = map serializable
          (alter (fun group => set_syncedVersionIds
                                 (mark_synced (v_id version) (_syncedVersionIds group)) group)
             gi groups) ∧
      forall o,
        stored (settle n (Ident (Some result_id)) (with_store o w)).2
        = stored (settle n (Ident (Some result_id)) w).2) ∧
     (¬ accepts 0 w ->
      ls_prompt_groups (settle n (Ident (Some result_id)) w).2 = ls_prompt_groups w)) ∧
  (forall n arr gi supabaseGroup_id w groups,
     pending w !! n = Some (AfterCreateGroup arr gi) ->
     arrays w !! arr = Some groups ->
     (accepts 0 w ->
      stored (settle n (Ident (Some supabaseGroup_id)) w).2
      = map serializable (alter (set_supabase_id (Some supabaseGroup_id)) gi groups) ∧
      forall o,
        stored (settle n (Ident (Some supabaseGroup_id)) (with_store o w)).2
        = stored (settle n (Ident (Some supabaseGroup_id)) w).2) ∧
     (¬ accepts 0 w ->
      ls_prompt_groups (settle n (Ident (Some supabaseGroup_id)) w).2
      = ls_prompt_groups w)).
Proof.
  unfold accepts. cbn [Nat.add]. split.
  - intros n arr gi vi result_id w groups g version Hn Harr Hgi Hvi.
    pose proof (settle_AfterAddVersion_stored n arr gi vi result_id w groups g version
                  Hn Harr Hgi Hvi) as Hw.
    split.
    + intros Hacc. rewrite Hacc in Hw. unfold stored. rewrite Hw. split; [done|].
      intros o.
      rewrite (settle_AfterAddVersion_stored n arr gi vi result_id (with_store o w)
                 groups g version) by done.
      cbn [with_store ls_throws ls_writes]. by rewrite Hacc.
    + intros Hacc%not_false_is_true. by rewrite Hacc in Hw.
  - intros n arr gi supabaseGroup_id w groups Hn Harr.
    pose proof (settle_AfterCreateGroup_stored n arr gi supabaseGroup_id w groups Hn Harr)
      as Hw.
    split.
    + intros Hacc. rewrite Hacc in Hw. unfold stored. rewrite Hw. split; [done|].
      intros o.
      rewrite (settle_AfterCreateGroup_stored n arr gi supabaseGroup_id (with_store o w)
                 groups) by done.
      cbn [with_store ls_throws ls_writes]. by rewrite Hacc.
    + intros Hacc%not_false_is_true. by rewrite Hacc in Hw.
Qed.

Lemma settled_push_writes_back_its_pass_witness :
  v_id <$> (stored
              (settle 1 (Ident (Some "remote-a1"))
                 (deleteVersion "a1" (setVersionStatus "a1" draft pushed_world).2).2).2
              ≫= versions)
  = ["a1"; "a2"].
Proof.
  rewrite (proj1 (proj1 (proj1 settled_push_writes_back_its_pass 1%nat 0%nat 0%nat 0%nat
                           "remote-a1"
                           (deleteVersion "a1" (setVersionStatus "a1" draft pushed_world).2).2
                           _ _ _ eq_refl eq_refl eq_refl eq_refl) eq_refl)).
  reflexivity.
Defined.

(** X28. A push that succeeded is remembered when its write is accepted.
    When the remote [addVersion] for a version of a group with a
    [supabase_id] resolves with a result and the write is accepted, the
    stored group holds the version's identifier in [_syncedVersionIds], next
    to the identifiers it held; if no other group of the pass holds a version
    with that identifier, a pass over the groups as they are then read from
    the store makes no remote creation for it. When the write is refused the
    store is as it was, and with it what it remembers. *)
Theorem successful_push_is_remembered n arr gi vi result_id w groups g version :
  pending w !! n = Some (AfterAddVersion arr gi vi) ->
  arrays w !! arr = Some groups ->
  groups !! gi = Some g ->
  versions g !! vi = Some version ->
  let w' := (settle n (Ident (Some result_id)) w).2 in
  (accepts 0 w ->
   (exists g',
      stored w' !! gi = Some g' ∧
      synced_set (_syncedVersionIds g')
      = {[ v_id version ]} ∪ synced_set (_syncedVersionIds g)) ∧
   (truthy (supabase_id g) = true ->
    (forall j gj, groups !! j = Some gj -> j ≠ gi -> ¬ contains (v_id version) gj) ->
    forall w'',
      creates_for (v_id version) (syncToSupabase (getAllGroups w').1 w'').2
      = creates_for (v_id version) w'')) ∧
  (¬ accepts 0 w -> ls_prompt_groups w' = ls_prompt_groups w).
Proof.
  intros Hn Harr Hgi Hvi. cbn zeta.
  pose proof (settle_AfterAddVersion_stored n arr gi vi result_id w groups g version
                Hn Harr Hgi Hvi) as Hw.
  split; [|unfold accepts; cbn [Nat.add]; intros Hacc%not_false_is_true;
           by rewrite Hacc in Hw].
  intros Hacc.
  split; [by eapply settle_marks_synced|].
  intros Hsid Hother w''.
  destruct (getAllGroups_spec (settle n (Ident (Some result_id)) w).2) as [-> _].
  unfold accepts in Hacc. cbn [Nat.add] in Hacc. rewrite Hacc in Hw.
  unfold stored. rewrite Hw. change (default [] (Some ?l)) with l.
  apply syncToSupabase_skips_synced.
  rewrite !Forall_fmap. apply Forall_lookup_2. intros j gj Hj.
  cbn. rewrite contains_rehydrate.
  assert (Hs : contains (v_id version) (serializable gj) ↔ contains (v_id version) gj).
  { unfold contains. by rewrite serializable_versions. }
  rewrite Hs. intros Hc.
  destruct (decide (j = gi)) as [->|Hne].
  - rewrite list_lookup_alter_eq, Hgi in Hj. injection Hj as <-. split.
    + by destruct g as [? ? ? ? ? ? ? ? ? ? [[]|]].
    + rewrite already_synced_rehydrate, serializable_synced_set.
      apply bool_decide_eq_true. unfold mark_synced.
      cbn [_syncedVersionIds set_syncedVersionIds synced_set].
      apply elem_of_union. left. by apply elem_of_singleton.
  - rewrite list_lookup_alter_ne in Hj by done.
    unfold contains in Hc. cbn in Hc. by destruct (Hother j gj Hj Hne).
Qed.

Lemma successful_push_is_remembered_witness :
  creates_for "a1"
    (syncToSupabase
       (getAllGroups
          (settle 1 (Ident (Some "remote-a1"))
             (setVersionStatus "a1" draft pushed_world).2).2).1
       pushed_world).2
  = creates_for "a1" pushed_world.
Proof.
  eapply (proj1 (successful_push_is_remembered 1%nat 0%nat 0%nat 0%nat "remote-a1"
                   (setVersionStatus "a1" draft pushed_world).2 _ _
                   (sample_version "a1" 1 draft) eq_refl eq_refl eq_refl eq_refl)).
  - reflexivity.
  - reflexivity.
  - intros [|j] gj Hj Hne; [done|]. discriminate.
Defined.

(** ** What follows the remote creation of a group *)

Lemma forEach_issue_calls {A} (c : nat -> A -> Issued) (ks : nat -> A -> list Continuation)
    items : forall i w,
  remote_calls (forEach (fun vi x => issue (c vi x) (ks vi x)) i items w).2
  = remote_calls w ++ imap (fun vi x => c (i + vi)%nat x) items.
Proof.
  induction items as [|x items IH]; intros i w.
  - cbn. by rewrite app_nil_r.
  - cbn [forEach]. unfold bind.
    destruct (issue (c i x) (ks i x) w) as [[] w1] eqn:Hw.
    assert (Hc : remote_calls w1 = remote_calls w ++ [c i x]).
    { by injection Hw as <-. }
    rewrite IH, Hc, <- app_assoc. cbn [imap]. f_equal. cbn. f_equal.
    + f_equal. lia.
    + apply imap_ext. intros j y _. cbn. f_equal. lia.
Qed.

(** X29. What follows the remote creation of a group. When the remote
    [createGroup] of a push pass resolves with a group, one remote
    [addVersion] is called for each version of the group of the pass but the
    first, in their order, and nothing else, whether or not the write is
    accepted. When the write is accepted the group of the pass gets the
    remote identifier as [supabase_id] in the store; when it is refused the
    store is as it was. When such an [addVersion] resolves with a result, the
    status of the version is sent with [setVersionStatus] if it is current or
    in production, and nothing is sent for a draft; the store is not
    written. *)
Theorem created_group_sends_the_other_versions :
  (forall n arr gi supabaseGroup_id w groups g,
     pending w !! n = Some (AfterCreateGroup arr gi) ->
     arrays w !! arr = Some groups ->
     groups !! gi = Some g ->
     let w' := (settle n (Ident (Some supabaseGroup_id)) w).2 in
     (accepts 0 w ->
      exists g', stored w' !! gi = Some g' ∧ supabase_id g' = Some supabaseGroup_id ∧
        versions g' = versions g) ∧
     (¬ accepts 0 w -> ls_prompt_groups w' = ls_prompt_groups w) ∧
     remote_calls w'
     = remote_calls w
       ++ map (fun v => mkIssued (Some (v_id v))
                          (RAddVersion supabaseGroup_id (v_name v) (content v)))
            (drop 1 (versions g))) ∧
  (forall n arr gi vi result_id w groups g version,
     pending w !! n = Some (AfterAddAdditional arr gi vi) ->
     arrays w !! arr = Some groups ->
     groups !! gi = Some g ->
     versions g !! vi = Some version ->
     let w' := (settle n (Ident (Some result_id)) w).2 in
     ls_prompt_groups w' = ls_prompt_groups w ∧
     remote_calls w'
     = remote_calls w
       ++ (if decide (status version = draft) then []
           else [mkIssued (Some (v_id version))
                   (RSetVersionStatus result_id (status version))])).
Proof.
  split.
  - intros n arr gi supabaseGroup_id w groups g Hn Harr Hgi. cbn zeta.
    pose proof (settle_AfterCreateGroup_stored n arr gi supabaseGroup_id w groups Hn Harr)
      as Hw.
    unfold accepts. cbn [Nat.add].
    split; [|split].
    + intros Hacc. rewrite Hacc in Hw. unfold stored. rewrite Hw.
      change (default [] (Some ?l)) with l.
      rewrite list_lookup_fmap, list_lookup_alter_eq, Hgi. cbn.
      eexists. split; [reflexivity|].
      split; [|by rewrite serializable_versions].
      by destruct g as [? ? ? ? ? ? ? ? ? ? [[]|]].
    + intros Hacc%not_false_is_true. by rewrite Hacc in Hw.
    + clear Hw. unfold settle. rewrite Hn.
      unfold run_continuation, bind, read_array, modify_group. cbn [fst snd arrays].
      rewrite list_lookup_alter_eq, Harr.
      change (default [] (alter _ gi <$> Some groups)) with
        (alter (set_supabase_id (Some supabaseGroup_id)) gi groups).
      unfold localStorage_set. cbn [fst snd ls_throws ls_writes].
      rewrite list_lookup_alter_eq, Hgi. cbn [fmap option_fmap option_map].
      cbn [set_supabase_id versions].
      destruct (ls_throws w (ls_writes w)); cbn [fst snd].
      all: case_bool_decide as Hlen.
      all: try (rewrite forEach_issue_calls; unfold written, with_store;
                cbn [remote_calls]; f_equal;
                clear; induction (drop 1 (versions g)) as [|v vs IH]; [done|];
                cbn [imap map]; f_equal; rewrite <- IH; apply imap_ext; by intros).
      all: unfold written, with_store; cbn [ret snd remote_calls];
        destruct (versions g) as [|v [|v' vs]]; cbn in *;
        rewrite ?app_nil_r; try done; lia.
  - intros n arr gi vi result_id w groups g version Hn Harr Hgi Hvi. cbn zeta.
    unfold settle. rewrite Hn.
    unfold run_continuation, bind, read_array. cbn [fst snd arrays].
    rewrite Harr. change (default [] (Some groups)) with groups.
    rewrite Hgi. cbn [mbind option_bind]. rewrite Hvi.
    unfold push_status. destruct (status version); cbn; by rewrite ?app_nil_r.
Qed.

Lemma created_group_sends_the_other_versions_witness :
  remote_calls (settle 1 (Ident (Some "remote-G"))
                  (setVersionStatus "a1" draft unsynced_world).2).2
  = remote_calls (setVersionStatus "a1" draft unsynced_world).2
    ++ [mkIssued (Some "a2") (RAddVersion "remote-G" "v2.0" "You are helpful.")].
Proof.
  pose proof (proj1 created_group_sends_the_other_versions 1%nat 0%nat 0%nat "remote-G"
                (setVersionStatus "a1" draft unsynced_world).2 _ _
                eq_refl eq_refl eq_refl) as (_ & _ & Hcalls).
  exact Hcalls.
Defined.

(** ** A pull from end to end *)

Lemma serializable_unmarked groups :
  Forall (fun g => _syncedVersionIds g = None) groups -> map serializable groups = groups.
Proof.
  induction 1 as [|g gs Hnone _ IH]; [done|].
  cbn [map]. rewrite IH. f_equal. unfold serializable. by rewrite Hnone.
Qed.

Lemma supabase_getAllGroups_shape group_rows version_rows groups :
  supabase_getAllGroups group_rows version_rows = Some groups ->
  Forall (fun g => supabase_id g = Some (g_id g) ∧ _syncedVersionIds g = None ∧
                   Forall (fun v => promptId v = g_id g) (versions g)) groups.
Proof.
  intros Hanswer.
  destruct group_rows as [|[rows|]]; [done| |].
  - destruct version_rows as [|vrows]; [done|].
    rewrite supabase_getAllGroups_rows in Hanswer.
    destruct (decide _) as [_|_]; [|done]. injection Hanswer as <-.
    apply Forall_fmap, Forall_forall. intros sg _.
    split; [done|]. split; [done|].
    apply Forall_forall. intros v Hv.
    apply (convertGroupToLocal_promptId _ _ _ Hv).
    apply Forall_forall. by intros r [Hr _]%list_elem_of_filter.
  - injection Hanswer as <-. constructor.
Qed.

(** X30. A pull from end to end. With Supabase configured, a read of the
    groups asks the remote service for all groups. If the promise is
    rejected, the store is left as it is: that is so when one of the two
    [select] fails, and when a row carries an identifier that is the name of
    a property every object inherits. Otherwise the answer is the groups that
    [convertGroupToLocal] makes of the answered rows: each has its remote
    identifier as [supabase_id] and no [_syncedVersionIds], and each of its
    versions names it as [promptId]; the store becomes these groups when the
    write is accepted, and is left as it is when the write is refused. *)
Theorem pull_end_to_end group_rows version_rows w :
  supabase_configured w = true ->
  let answer := supabase_getAllGroups group_rows version_rows in
  let w1 := (getAllGroups w).2 in
  let w2 := (settle (length (pending w)) (pulled answer) w1).2 in
  match answer with
  | None => ls_prompt_groups w2 = ls_prompt_groups w
  | Some groups =>
      (accepts 0 w -> stored w2 = groups) ∧
      (¬ accepts 0 w -> ls_prompt_groups w2 = ls_prompt_groups w) ∧
      Forall (fun g => supabase_id g = Some (g_id g) ∧ _syncedVersionIds g = None ∧
                       Forall (fun v => promptId v = g_id g) (versions g))
        groups
  end ∧
  (group_rows = DbError ∨ (group_rows ≠ DbData None ∧ version_rows = DbError) ->
   ls_prompt_groups w2 = ls_prompt_groups w) ∧
  (forall gs rows,
     group_rows = DbData (Some gs) -> version_rows = DbData rows ->
     Exists (fun v => inherited (sv_group_id v)) (default [] rows)
     ∨ Exists (fun group => inherited (sg_id group)) gs ->
     ls_prompt_groups w2 = ls_prompt_groups w).
Proof.
  intros Hconf. cbn zeta.
  assert (Hw1 : (getAllGroups w).2
                = (issue (mkIssued None RGetAllGroups) [AfterPull] w).2).
  { unfold getAllGroups, syncFromSupabase, bind, isSupabaseConfigured.
    by rewrite Hconf. }
  assert (Hn : pending (getAllGroups w).2 !! length (pending w) = Some AfterPull).
  { rewrite Hw1. cbn [issue snd pending].
    by rewrite lookup_app_r, Nat.sub_diag by done. }
  assert (Hnone : ls_prompt_groups
                    (settle (length (pending w)) Rejected (getAllGroups w).2).2
                  = ls_prompt_groups w).
  { unfold settle. rewrite Hn. cbn. by rewrite Hw1. }
  assert (Hsome : forall groups,
            ls_prompt_groups
              (settle (length (pending w)) (Groups groups) (getAllGroups w).2).2
            = if ls_throws w (ls_writes w) then ls_prompt_groups w
              else Some (map serializable groups)).
  { intros groups. unfold settle. rewrite Hn. rewrite Hw1.
    unfold run_continuation, bind, localStorage_set. cbn [issue fst snd ls_throws ls_writes].
    by destruct (ls_throws w (ls_writes w)). }
  split; [|split].
  - destruct (supabase_getAllGroups group_rows version_rows) as [groups|] eqn:Hanswer;
      cbn [pulled]; [|exact Hnone].
    pose proof (supabase_getAllGroups_shape _ _ _ Hanswer) as Hshape.
    specialize (Hsome groups). unfold accepts. cbn [Nat.add].
    split; [|split; [|exact Hshape]].
    + intros Hacc. rewrite Hacc in Hsome. unfold stored. rewrite Hsome.
      apply serializable_unmarked.
      eapply Forall_impl; [exact Hshape|]. by intros g (_ & Hunmarked & _).
    + intros Hacc%not_false_is_true. by rewrite Hacc in Hsome.
  - intros [->|[Hgroups ->]]; [exact Hnone|].
    destruct group_rows as [|[gs|]]; [exact Hnone|exact Hnone|done].
  - intros gs rows -> -> Hex. rewrite supabase_getAllGroups_rows.
    rewrite decide_False; [exact Hnone|].
    intros [Hrows Hgs]. destruct Hex as [Hex|Hex].
    + apply Exists_exists in Hex as (v & Hv & Hi).
      by apply (proj1 (Forall_forall _ _) Hrows v Hv).
    + apply Exists_exists in Hex as (group & Hg & Hi).
      by apply (proj1 (Forall_forall _ _) Hgs group Hg).
Qed.

Lemma pull_end_to_end_witness :
  stored
    (settle (length (pending unsynced_world))
       (pulled (supabase_getAllGroups
                  (DbData (Some [mkSupabaseGroup "remote-G" "Support Bot" None
                                   1700000000000 1700000000000]))
                  (DbData (Some [mkSupabaseVersion "r1" "remote-G" "v1" "You are helpful."
                                   current 1700000000001]))))
       (getAllGroups unsynced_world).2).2
  = [convertGroupToLocal
       (mkSupabaseGroup "remote-G" "Support Bot" None 1700000000000 1700000000000)
       [mkSupabaseVersion "r1" "remote-G" "v1" "You are helpful." current 1700000000001]].
Proof.
  apply (proj1 (proj1 (pull_end_to_end
           (DbData (Some [mkSupabaseGroup "remote-G" "Support Bot" None
                            1700000000000 1700000000000]))
           (DbData (Some [mkSupabaseVersion "r1" "remote-G" "v1" "You are helpful."
                            current 1700000000001]))
           unsynced_world eq_refl))).
  reflexivity.
Defined.
